(** * metro-file-map: the Watcher of [packages/metro-file-map/src/Watcher.js]

    A shallow embedding of the [Watcher] class: [crawl] with its single
    fallback, [watch] with the per-root ready handshake and the routing of
    health-check cookies, and [checkHealth] with its three racing tasks.

    JavaScript runs these on one thread.  Every callback (a timer, a
    settled file-system promise, a backend event) runs to completion
    together with the promise reactions it triggers before the next one
    starts, so the asynchronous part is a state machine whose inputs are
    those callbacks in the order the event loop runs them. *)

From Stdlib Require Import ZArith String Ascii List Bool Lia.
From stdpp Require Import base option list gmap strings pretty.

Local Open Scope string_scope.
Local Open Scope Z_scope.

(** ** Strings, paths and errors *)

Abbreviation Path := string (only parsing).

Definition nl : string := String (ascii_of_nat 10) EmptyString.
Definition dq : string := String (ascii_of_nat 34) EmptyString.

(** [s.startsWith(p)] *)
Definition startsWith (s p : string) : bool := String.prefix p s.

(** [s] occurs in [t] *)
Definition includes (t s : string) : Prop := exists pre post, t = pre ++ s ++ post.

Definition slash : ascii := ascii_of_nat 47.
Definition is_slash (c : ascii) : bool := Ascii.eqb c slash.

Fixpoint drop_slashes (l : list ascii) : list ascii :=
  match l with
  | c :: l' => if is_slash c then drop_slashes l' else l
  | [] => []
  end.

Fixpoint take_segment (l : list ascii) : list ascii :=
  match l with
  | c :: l' => if is_slash c then [] else c :: take_segment l'
  | [] => []
  end.

(** Node's [path.basename(p)] on POSIX: the scan runs from the end of the
    path, skips the trailing separators and stops at the separator before
    the last segment; a path of separators only has the empty basename. *)
Definition basename (p : Path) : string :=
  string_of_list_ascii
    (rev (take_segment (drop_slashes (rev (list_ascii_of_string p))))).

(** The segments of a path, between its separators. *)
Fixpoint segments (l : list ascii) : list (list ascii) :=
  match l with
  | [] => [[]]
  | c :: l' =>
      if is_slash c then [] :: segments l'
      else match segments l' with
           | s :: ss => (c :: s) :: ss
           | [] => [[c]]
           end
  end.

Definition full_stop : ascii := ascii_of_nat 46.

Definition is_dot (seg : list ascii) : bool :=
  match seg with
  | [c] => Ascii.eqb c full_stop
  | _ => false
  end.

Definition is_dotdot (seg : list ascii) : bool :=
  match seg with
  | [c; d] => Ascii.eqb c full_stop && Ascii.eqb d full_stop
  | _ => false
  end.

(** One segment in Node's [normalizeString]: [res] holds the segments of
    the result so far, the last one first.  An empty segment and [.] are
    skipped; [..] takes the last segment away, unless there is none or it
    is [..] itself, where [..] is kept if the path is relative. *)
Definition normalize_segment (allowAboveRoot : bool) (res : list (list ascii))
    (seg : list ascii) : list (list ascii) :=
  match seg with
  | [] => res
  | _ :: _ =>
      if is_dot seg then res
      else if is_dotdot seg then
        match res with
        | top :: rest =>
            if is_dotdot top then (if allowAboveRoot then seg :: res else res)
            else rest
        | [] => if allowAboveRoot then [seg] else []
        end
      else seg :: res
  end.

Fixpoint glue (ss : list (list ascii)) : list ascii :=
  match ss with
  | [] => []
  | s :: ss' =>
      match ss' with
      | [] => s
      | _ :: _ => (s ++ slash :: glue ss')%list
      end
  end.

(** Node's [path.normalize(p)] on POSIX *)
Definition normalize_chars (l : list ascii) : list ascii :=
  match l with
  | [] => [full_stop]
  | c :: _ =>
      let isAbsolute := is_slash c in
      let trailingSeparator :=
        match rev l with d :: _ => is_slash d | [] => false end in
      let res :=
        glue (rev (fold_left (normalize_segment (negb isAbsolute)) (segments l) [])) in
      match res with
      | [] =>
          if isAbsolute then [slash]
          else if trailingSeparator then [full_stop; slash] else [full_stop]
      | _ :: _ =>
          ((if isAbsolute then [slash] else [])
           ++ res ++ (if trailingSeparator then [slash] else []))%list
      end
  end.

Definition normalize (p : string) : string :=
  string_of_list_ascii (normalize_chars (list_ascii_of_string p)).

(** Node's [path.join(dir, name)] on POSIX: the arguments that are not
    empty are joined by a separator, and the result is normalized. *)
Definition join (dir name : string) : Path :=
  match dir, name with
  | EmptyString, EmptyString => "."
  | EmptyString, _ => normalize name
  | _, EmptyString => normalize dir
  | _, _ => normalize (dir ++ "/" ++ name)
  end.

Record Error := mkError { name : string; message : string }.

(** [Error.prototype.toString] *)
Definition toString (e : Error) : string :=
  if String.eqb (name e) EmptyString then message e
  else if String.eqb (message e) EmptyString then name e
  else name e ++ ": " ++ message e.

(** A promise once settled. *)
Inductive Settled (A : Type) : Type :=
  | Resolved (value : A)
  | Rejected (reason : Error).
Arguments Resolved {A} value.
Arguments Rejected {A} reason.

(** What a call expression does: it throws, or it returns. *)
Inductive Call (A : Type) : Type :=
  | Throws (e : Error)
  | Returns (value : A).
Arguments Throws {A} e.
Arguments Returns {A} value.

(** ** Options and crawl results *)

Abbreviation FileMetaData := string (only parsing).
Abbreviation FileData := (gmap Path FileMetaData) (only parsing).
Abbreviation WatchmanClocks := (gmap Path string) (only parsing).

Record CrawlResult := {
  changedFiles : FileData;
  clocks : option WatchmanClocks;
  removedFiles : gset Path;
}.

Record AbortSignal := { aborted : bool; reason : Error }.

(** Objects that the watcher only hands on are kept by identity. *)
Definition Console := nat.
Definition PerfLogger := nat.
Definition PreviousState := string.
Definition Status := string.

Record WatcherOptions := {
  abortSignal : AbortSignal;
  computeSha1 : bool;
  console : Console;
  enableSymlinks : bool;
  extensions : list string;
  forceNodeFilesystemAPI : bool;
  healthCheckFilePrefix : string;
  ignore : string -> bool;
  ignorePattern : string -> bool;
  previousState : PreviousState;
  perfLogger : option PerfLogger;
  roots : list Path;
  rootDir : Path;
  useWatchman : bool;
  watch_ : bool;
  watchmanDeferStates : list string;
}.

Module Crawl.

Inductive DebugArg := ArgS (s : string) | ArgN (n : nat).

Inductive CrawlerName := watchman | node.

Definition crawler_string (c : CrawlerName) : string :=
  match c with watchman => "watchman" | node => "node" end.

(** [this.emit(event, payload)] *)
Inductive Emission := emit (event : string) (payload : Status).

Record CrawlerOptions := {
  co_abortSignal : AbortSignal;
  co_computeSha1 : bool;
  co_console : Console;
  co_includeSymlinks : bool;
  co_extensions : list string;
  co_forceNodeFilesystemAPI : bool;
  co_ignore : string -> bool;
  co_onStatus : Status -> Emission;
  co_perfLogger : option PerfLogger;
  co_previousState : PreviousState;
  co_rootDir : Path;
  co_roots : list Path;
}.

(** The observable actions of one [crawl()] call, in program order; the
    call of a crawl strategy is one of them. *)
Inductive Effect :=
  | PerfPoint (label : string)
  | Debug (format : string) (args : list DebugArg)
  | ConsoleWarn (text : string)
  | Emitted (e : Emission)
  | Invoke (c : CrawlerName) (o : CrawlerOptions).

(** One run of a crawl strategy: the statuses it reports through
    [onStatus] and how its promise settles. *)
Record CrawlRun := { statuses : list Status; outcome : Settled CrawlResult }.

(** [./crawlers/node] and [./crawlers/watchman] are not part of this
    file: a strategy is any function of the crawler options.  Its call
    may throw before a promise exists, which is what the [try] around the
    first call is for. *)
Definition Crawler := CrawlerOptions -> Call CrawlRun.

(** An [async function]: its call always returns a promise. *)
Definition async_function (f : CrawlerOptions -> CrawlRun) : Crawler :=
  fun o => Returns (f o).

(** The one local of a [crawl()] activation that is reassigned, with the
    actions performed so far. *)
Record Frame := {
  crawler : CrawlerName;
  effects : list Effect;
}.

Definition M (A : Type) : Type := Frame -> Frame * (Error + A).

Definition ret {A} (a : A) : M A := fun f => (f, inr a).
Definition throw {A} (e : Error) : M A := fun f => (f, inl e).
Definition bind {A B} (k : A -> M B) (m : M A) : M B :=
  fun f => match m f with
           | (f', inl e) => (f', inl e)
           | (f', inr a) => k a f'
           end.
#[local] Instance M_ret : MRet M := @ret.
#[local] Instance M_bind : MBind M := @bind.
Definition perform (e : Effect) : M unit :=
  fun f => ({| crawler := crawler f; effects := effects f ++ [e] |}, inr tt).
Definition set_crawler (c : CrawlerName) : M unit :=
  fun f => ({| crawler := c; effects := effects f |}, inr tt).
Definition get_crawler : M CrawlerName := fun f => (f, inr (crawler f)).

Fixpoint perform_all (es : list Effect) : M unit :=
  match es with
  | [] => ret tt
  | e :: es' => perform e ;; perform_all es'
  end.

(** [this._options.perfLogger?.point(label)] *)
Definition perf_point (options : WatcherOptions) (label : string) : M unit :=
  match perfLogger options with
  | Some _ => perform (PerfPoint label)
  | None => ret tt
  end.

Section crawl.
Variable options : WatcherOptions.
Variables watchmanCrawl nodeCrawl : Crawler.

Definition implementation (c : CrawlerName) : Crawler :=
  match c with watchman => watchmanCrawl | node => nodeCrawl end.

(** Calling a strategy: the call is recorded, and the statuses of the
    run go through [onStatus]. *)
Definition call (c : CrawlerName) (o : CrawlerOptions) : M (Call (Settled CrawlResult)) :=
  perform (Invoke c o) ;;
  match implementation c o with
  | Throws e => ret (Throws e)
  | Returns run =>
      perform_all (map (fun s => Emitted (co_onStatus o s)) (statuses run)) ;;
      ret (Returns (outcome run))
  end.

Definition ignore_ (filePath : string) : bool :=
  ignore options filePath
  || startsWith (basename filePath) (healthCheckFilePrefix options).

(** [const crawl = options.useWatchman ? watchmanCrawl : nodeCrawl] *)
Definition selected : CrawlerName :=
  if useWatchman options then watchman else node.

Definition crawlerOptions : CrawlerOptions := {|
  co_abortSignal := abortSignal options;
  co_computeSha1 := computeSha1 options;
  co_console := console options;
  co_includeSymlinks := enableSymlinks options;
  co_extensions := extensions options;
  co_forceNodeFilesystemAPI := forceNodeFilesystemAPI options;
  co_ignore := ignore_;
  co_onStatus := emit "status";
  co_perfLogger := perfLogger options;
  co_previousState := previousState options;
  co_rootDir := rootDir options;
  co_roots := roots options;
|}.

Definition retry_warning (error : Error) : string :=
  "metro-file-map: Watchman crawl failed. Retrying once with node " ++
  "crawler." ++ nl ++
  "  Usually this happens when watchman isn't running. Create an " ++
  "empty `.watchmanconfig` file in your project's root folder or " ++
  "initialize a git or hg repository in your project." ++ nl ++
  "  " ++
  toString error.

Definition retry_failed (error e : Error) : Error :=
  mkError "Error"
    ("Crawler retry failed:" ++ nl ++
     "  Original error: " ++ message error ++ nl ++
     "  Retry error: " ++ message e ++ nl).

(** [retry]: a throw of [retry] and a rejection of the promise it
    returns both reject what [crawl()] returns, so both are [throw]. *)
Definition retry (error : Error) : M CrawlResult :=
  match selected with
  | watchman =>
      set_crawler node ;;
      perform (ConsoleWarn (retry_warning error)) ;;
      r ← call node crawlerOptions;
      match r with
      | Throws e => throw e
      | Returns (Rejected e) => throw (retry_failed error e)
      | Returns (Resolved delta) => ret delta
      end
  | node => throw error
  end.

Definition logEnd (delta : CrawlResult) : M CrawlResult :=
  c ← get_crawler;
  perform (Debug ("Crawler " ++ dq ++ "%s" ++ dq ++
                  " returned %d added/modified, %d removed, %d clock(s).")
             [ArgS (crawler_string c);
              ArgN (size (changedFiles delta));
              ArgN (size (removedFiles delta));
              ArgN (match clocks delta with Some m => size m | None => 0%nat end)]) ;;
  perf_point options "crawl_end" ;;
  ret delta.

Definition crawl_body : M CrawlResult :=
  perf_point options "crawl_start" ;;
  (if aborted (abortSignal options)
   then throw (reason (abortSignal options)) else ret tt) ;;
  c ← get_crawler;
  perform (Debug ("Beginning crawl with " ++ dq ++ "%s" ++ dq ++ ".")
             [ArgS (crawler_string c)]) ;;
  r ← call selected crawlerOptions;
  match r with
  | Returns (Resolved delta) => logEnd delta
  | Returns (Rejected error) => delta ← retry error; logEnd delta
  | Throws error => delta ← retry error; logEnd delta
  end.

(** [crawl()]: the final frame and how the returned promise settles. *)
Definition crawl : Frame * Settled CrawlResult :=
  match crawl_body {| crawler := selected; effects := [] |} with
  | (f, inl e) => (f, Rejected e)
  | (f, inr delta) => (f, Resolved delta)
  end.

End crawl.

(** *** Reading a trace *)

Fixpoint warnings (es : list Effect) : list string :=
  match es with
  | ConsoleWarn text :: es' => text :: warnings es'
  | _ :: es' => warnings es'
  | [] => []
  end.

Fixpoint invocations (es : list Effect) : list (CrawlerName * CrawlerOptions) :=
  match es with
  | Invoke c o :: es' => (c, o) :: invocations es'
  | _ :: es' => invocations es'
  | [] => []
  end.

(** A strategy fails with [error] on [o]: its call throws [error], or
    the promise it returns is rejected with [error]. *)
Definition fails (c : Crawler) (o : CrawlerOptions) (error : Error) : Prop :=
  c o = Throws error \/ exists run, c o = Returns run /\ outcome run = Rejected error.

(** The fallback strategy invoked directly with the options that
    [crawl()] builds, as the specification puts it. *)
Definition fallback_directly (options : WatcherOptions) (nodeCrawl : Crawler)
  : Settled CrawlResult :=
  match nodeCrawl (crawlerOptions options) with
  | Returns run => outcome run
  | Throws e => Rejected e
  end.

(** A strategy honours the [ignore] predicate it is given when it never
    reports an ignored path as changed. *)
Definition honours_ignore (c : Crawler) : Prop :=
  forall o run delta p,
    c o = Returns run -> outcome run = Resolved delta ->
    is_Some (changedFiles delta !! p) -> co_ignore o p = false.

End Crawl.

(** ** The watcher session: [watch], [checkHealth] and their callbacks

    The state is the [Watcher] object together with the activations of
    [watch] and [checkHealth] that are under way: their locals and the
    promises they wait for.  A turn of the event loop is one call of a
    method or one callback, run with the promise reactions it sets off.
    The lines written through [debug] and [perfLogger] in these methods
    change nothing of this state and are left out. *)

Module Session.

(** [./watchers/common] *)
Definition CHANGE_EVENT : string := "change".
Definition DELETE_EVENT : string := "delete".
Definition ADD_EVENT : string := "add".

Record WatcherBackendChangeEvent := {
  event : string;
  relativePath : Path;
  root : Path;
  metadata : option string;
}.

Definition MAX_WAIT_TIME : Z := 240000.

(** [Number.MAX_SAFE_INTEGER].  Up to this value, and one step beyond
    it, [n++] on a JavaScript number is exact, so the counter is a [Z]. *)
Definition MAX_SAFE_INTEGER : Z := 2 ^ 53 - 1.

Inductive HealthCheckResult :=
  | error_ (timeout : Z) (error : Error) (watcher : option string)
  | success (timeout : Z) (timeElapsed : Z) (watcher : option string)
  | timeout_ (timeout : Z) (watcher : option string) (pauseReason : option string).

Inductive WatcherImpl := WatchmanWatcher | FSEventsWatcher | NodeWatcher.

Record WatcherBackendOptions := {
  dot : bool;
  glob : list string;
  ignored : string -> bool;
  deferStates : list string;
}.

(** One activation of [createWatcherBackend(root)]: the backend made for
    the root, its start-up timer, its [ready] listener and the promise
    the activation returned. *)
Record RootWatch := {
  rw_root : Path;
  rw_impl : WatcherImpl;
  rw_options : WatcherBackendOptions;
  rw_rejectTimeout : option Z;   (* the delay it was armed with, until cleared or fired *)
  rw_subscribed : bool;          (* the listener of [ready] has run: [all] is listened to *)
  rw_promise : option (Settled unit);
}.

(** One activation of [watch(onChange)]. *)
Record WatchFrame := {
  wf_roots : list RootWatch;     (* the backends constructed by [roots.map] *)
  wf_onChange : list WatcherBackendChangeEvent;   (* the calls of [onChange] *)
  wf_promise : option (Settled unit);             (* what [watch] returned *)
}.

(** One activation of [checkHealth(timeout)]: its locals and promises. *)
Record CheckFrame := {
  ck_healthCheckId : Z;
  ck_timeout : Z;
  ck_watcher : option string;
  ck_basename : string;
  ck_healthCheckPath : Path;
  ck_startTime : Z;
  ck_result : option HealthCheckResult;
  ck_timer : option Z;           (* [setTimeout(resolve, timeout)] not fired yet *)
  ck_created : bool;             (* [creationPromise] is settled *)
  ck_observed : bool;            (* [observationPromise] is settled *)
  ck_returned : option (Call HealthCheckResult);  (* how the activation ended *)
}.

Inductive FsOp :=
  | writeFile (file : Path) (data : string)
  | unlink (file : Path).

(** The fields of the [Watcher] object.  A backend is named by the
    activation of [watch] and the index of the root it was made for; a
    registered [resolve] by the activation of [checkHealth] it belongs to. *)
Record Watcher := {
  _options : WatcherOptions;
  _backends : list (nat * nat);
  _instanceId : Z;
  _nextHealthCheckId : Z;
  _pendingHealthChecks : gmap string nat;
  _activeWatcher : option string;
}.

Record State := {
  this : Watcher;
  pid : Z;                       (* [process.pid] *)
  fsevents : bool;               (* [FSEventsWatcher.isSupported()] *)
  watching : list WatchFrame;
  checks : list CheckFrame;
  fsOps : list FsOp;
}.

(** What the event loop runs next.  Calls of the public methods come
    from the user of the watcher, the rest from timers, the file system
    and the backends. *)
Inductive Input :=
  | CallWatch (construct : nat -> option Error)
      (* [watch(onChange)]; [construct i] is what [new WatcherImpl] throws for root [i] *)
  | CallCheckHealth (timeout : Z)
  | Ready (w i : nat)            (* backend [i] of activation [w] emits [ready] *)
  | All (w i : nat) (change : WatcherBackendChangeEvent)
  | StartupTimeout (w i : nat)   (* the [rejectTimeout] of that backend fires *)
  | HealthTimeout (c : nat) (pause : option string)
      (* the timer of check [c] fires; [pause] is what [getPauseReason()] answers now *)
  | WriteFileSettled (c : nat) (failure : option Error)
  | CloseSettled.                (* the backends have closed, [close()] goes on *)

(** *** Updates *)

Definition set_this (f : Watcher -> Watcher) (st : State) : State :=
  {| this := f (this st); pid := pid st; fsevents := fsevents st;
     watching := watching st; checks := checks st; fsOps := fsOps st |}.

Definition set_watching (f : list WatchFrame -> list WatchFrame) (st : State) : State :=
  {| this := this st; pid := pid st; fsevents := fsevents st;
     watching := f (watching st); checks := checks st; fsOps := fsOps st |}.

Definition set_checks (f : list CheckFrame -> list CheckFrame) (st : State) : State :=
  {| this := this st; pid := pid st; fsevents := fsevents st;
     watching := watching st; checks := f (checks st); fsOps := fsOps st |}.

Definition issue (op : FsOp) (st : State) : State :=
  {| this := this st; pid := pid st; fsevents := fsevents st;
     watching := watching st; checks := checks st; fsOps := fsOps st ++ [op] |}.

Definition with_backends (bs : list (nat * nat)) (w : Watcher) : Watcher :=
  {| _options := _options w; _backends := bs; _instanceId := _instanceId w;
     _nextHealthCheckId := _nextHealthCheckId w;
     _pendingHealthChecks := _pendingHealthChecks w;
     _activeWatcher := _activeWatcher w |}.

Definition with_nextHealthCheckId (n : Z) (w : Watcher) : Watcher :=
  {| _options := _options w; _backends := _backends w; _instanceId := _instanceId w;
     _nextHealthCheckId := n;
     _pendingHealthChecks := _pendingHealthChecks w;
     _activeWatcher := _activeWatcher w |}.

Definition with_pending (f : gmap string nat -> gmap string nat) (w : Watcher) : Watcher :=
  {| _options := _options w; _backends := _backends w; _instanceId := _instanceId w;
     _nextHealthCheckId := _nextHealthCheckId w;
     _pendingHealthChecks := f (_pendingHealthChecks w);
     _activeWatcher := _activeWatcher w |}.

Definition with_activeWatcher (a : option string) (w : Watcher) : Watcher :=
  {| _options := _options w; _backends := _backends w; _instanceId := _instanceId w;
     _nextHealthCheckId := _nextHealthCheckId w;
     _pendingHealthChecks := _pendingHealthChecks w;
     _activeWatcher := a |}.

(** [if (!result) { result = r; }] *)
Definition set_once (r : HealthCheckResult) (slot : option HealthCheckResult)
  : option HealthCheckResult :=
  match slot with
  | Some r0 => Some r0
  | None => Some r
  end.

Definition with_result (slot : option HealthCheckResult) (fr : CheckFrame) : CheckFrame :=
  {| ck_healthCheckId := ck_healthCheckId fr; ck_timeout := ck_timeout fr;
     ck_watcher := ck_watcher fr; ck_basename := ck_basename fr;
     ck_healthCheckPath := ck_healthCheckPath fr; ck_startTime := ck_startTime fr;
     ck_result := slot; ck_timer := ck_timer fr; ck_created := ck_created fr;
     ck_observed := ck_observed fr; ck_returned := ck_returned fr |}.

Definition timer_fired (fr : CheckFrame) : CheckFrame :=
  {| ck_healthCheckId := ck_healthCheckId fr; ck_timeout := ck_timeout fr;
     ck_watcher := ck_watcher fr; ck_basename := ck_basename fr;
     ck_healthCheckPath := ck_healthCheckPath fr; ck_startTime := ck_startTime fr;
     ck_result := ck_result fr; ck_timer := None; ck_created := ck_created fr;
     ck_observed := ck_observed fr; ck_returned := ck_returned fr |}.

Definition creation_settled (fr : CheckFrame) : CheckFrame :=
  {| ck_healthCheckId := ck_healthCheckId fr; ck_timeout := ck_timeout fr;
     ck_watcher := ck_watcher fr; ck_basename := ck_basename fr;
     ck_healthCheckPath := ck_healthCheckPath fr; ck_startTime := ck_startTime fr;
     ck_result := ck_result fr; ck_timer := ck_timer fr; ck_created := true;
     ck_observed := ck_observed fr; ck_returned := ck_returned fr |}.

Definition observation_settled (fr : CheckFrame) : CheckFrame :=
  {| ck_healthCheckId := ck_healthCheckId fr; ck_timeout := ck_timeout fr;
     ck_watcher := ck_watcher fr; ck_basename := ck_basename fr;
     ck_healthCheckPath := ck_healthCheckPath fr; ck_startTime := ck_startTime fr;
     ck_result := ck_result fr; ck_timer := ck_timer fr; ck_created := ck_created fr;
     ck_observed := true; ck_returned := ck_returned fr |}.

Definition with_returned (v : Call HealthCheckResult) (fr : CheckFrame) : CheckFrame :=
  {| ck_healthCheckId := ck_healthCheckId fr; ck_timeout := ck_timeout fr;
     ck_watcher := ck_watcher fr; ck_basename := ck_basename fr;
     ck_healthCheckPath := ck_healthCheckPath fr; ck_startTime := ck_startTime fr;
     ck_result := ck_result fr; ck_timer := ck_timer fr; ck_created := ck_created fr;
     ck_observed := ck_observed fr; ck_returned := Some v |}.

(** *** The constructor *)

(** [new Watcher(options)], with the value of the module's
    [nextInstanceId] at the call; the first component is its new value. *)
Definition new_Watcher (options : WatcherOptions) (nextInstanceId : Z) : Z * Watcher :=
  (nextInstanceId + 1,
   {| _options := options; _backends := []; _instanceId := nextInstanceId;
      _nextHealthCheckId := 0; _pendingHealthChecks := ∅;
      _activeWatcher := None |}).

Definition start (options : WatcherOptions) (nextInstanceId : Z)
    (process_pid : Z) (fsevents_supported : bool) : State :=
  {| this := (new_Watcher options nextInstanceId).2; pid := process_pid;
     fsevents := fsevents_supported; watching := []; checks := []; fsOps := [] |}.

(** *** [watch] *)

(** WatchmanWatcher > FSEventsWatcher > sane.NodeWatcher *)
Definition select_impl (useWatchman_ fsevents_supported : bool) : WatcherImpl :=
  if useWatchman_ then WatchmanWatcher
  else if fsevents_supported then FSEventsWatcher
  else NodeWatcher.

Definition watcher_name (impl : WatcherImpl) : string :=
  match impl with
  | WatchmanWatcher => "watchman"
  | FSEventsWatcher => "fsevents"
  | NodeWatcher => "node"
  end.

Definition watcherOptions (options : WatcherOptions) : WatcherBackendOptions :=
  {| dot := true;
     glob := "**/package.json"
             :: ("**/" ++ healthCheckFilePrefix options ++ "*")
             :: map (fun extension => "**/*." ++ extension) (extensions options);
     ignored := ignorePattern options;
     deferStates := watchmanDeferStates options |}.

(** [createWatcherBackend(root)] up to the promise it returns. *)
Definition createWatcherBackend (options : WatcherOptions) (impl : WatcherImpl)
    (root_ : Path) : RootWatch :=
  {| rw_root := root_; rw_impl := impl; rw_options := watcherOptions options;
     rw_rejectTimeout := Some MAX_WAIT_TIME; rw_subscribed := false;
     rw_promise := None |}.

(** [roots.map(createWatcherBackend)]: the map stops at the first root
    whose constructor throws, with the earlier backends already made. *)
Fixpoint create_all (options : WatcherOptions) (impl : WatcherImpl)
    (construct : nat -> option Error) (i : nat) (rs : list Path)
  : list RootWatch * option Error :=
  match rs with
  | [] => ([], None)
  | r :: rs' =>
      match construct i with
      | Some e => ([], Some e)
      | None =>
          let '(made, thrown) := create_all options impl construct (S i) rs' in
          (createWatcherBackend options impl r :: made, thrown)
      end
  end.

Definition is_resolved (rw : RootWatch) : bool :=
  match rw_promise rw with
  | Some (Resolved _) => true
  | _ => false
  end.

Definition backends_of (w : nat) (rws : list RootWatch) : list (nat * nat) :=
  map (fun i => (w, i)) (seq 0 (length rws)).

(** The reaction of [Promise.all] to a fulfilled element, and what
    follows the [await]: [this._backends] is assigned once every element
    is fulfilled. *)
Definition all_fulfilled (w : nat) (st : State) : State :=
  match watching st !! w with
  | Some wf =>
      match wf_promise wf with
      | Some _ => st
      | None =>
          if forallb is_resolved (wf_roots wf) then
            set_this (with_backends (backends_of w (wf_roots wf)))
              (set_watching
                 (<[w := {| wf_roots := wf_roots wf; wf_onChange := wf_onChange wf;
                            wf_promise := Some (Resolved tt) |}]>) st)
          else st
      end
  | None => st
  end.

(** The reaction of [Promise.all] to a rejected element. *)
Definition one_rejected (w : nat) (e : Error) (st : State) : State :=
  match watching st !! w with
  | Some wf =>
      match wf_promise wf with
      | Some _ => st
      | None =>
          set_watching
            (<[w := {| wf_roots := wf_roots wf; wf_onChange := wf_onChange wf;
                       wf_promise := Some (Rejected e) |}]>) st
      end
  | None => st
  end.

Definition watch (construct : nat -> option Error) (st : State) : State :=
  let options := _options (this st) in
  let impl := select_impl (useWatchman options) (fsevents st) in
  let st1 := set_this (with_activeWatcher (Some (watcher_name impl))) st in
  let w := length (watching st) in
  let '(made, thrown) := create_all options impl construct 0 (roots options) in
  match thrown with
  | Some e =>
      set_watching (fun ws => (ws ++ [{| wf_roots := made; wf_onChange := [];
                                         wf_promise := Some (Rejected e) |}])%list) st1
  | None =>
      all_fulfilled w
        (set_watching (fun ws => (ws ++ [{| wf_roots := made; wf_onChange := [];
                                            wf_promise := None |}])%list) st1)
  end.

Definition set_root (w i : nat) (rw : RootWatch) (st : State) : State :=
  set_watching
    (alter (fun wf => {| wf_roots := <[i := rw]> (wf_roots wf);
                         wf_onChange := wf_onChange wf;
                         wf_promise := wf_promise wf |}) w) st.

Definition root_at (st : State) (w i : nat) : option RootWatch :=
  wf ← watching st !! w; wf_roots wf !! i.

(** The listener of [ready], which runs once. *)
Definition on_ready (w i : nat) (st : State) : State :=
  match root_at st w i with
  | Some rw =>
      if rw_subscribed rw then st
      else
        all_fulfilled w
          (set_root w i
             {| rw_root := rw_root rw; rw_impl := rw_impl rw;
                rw_options := rw_options rw;
                rw_rejectTimeout := None;
                rw_subscribed := true;
                rw_promise := match rw_promise rw with
                              | None => Some (Resolved tt)
                              | Some p => Some p
                              end |} st)
  | None => st
  end.

Definition start_failed : Error := mkError "Error" "Failed to start watch mode.".

(** The callback of [rejectTimeout]. *)
Definition on_rejectTimeout (w i : nat) (st : State) : State :=
  match root_at st w i with
  | Some rw =>
      match rw_rejectTimeout rw with
      | Some _ =>
          match rw_promise rw with
          | None =>
              one_rejected w start_failed
                (set_root w i
                   {| rw_root := rw_root rw; rw_impl := rw_impl rw;
                      rw_options := rw_options rw;
                      rw_rejectTimeout := None;
                      rw_subscribed := rw_subscribed rw;
                      rw_promise := Some (Rejected start_failed) |} st)
          | Some _ =>
              set_root w i
                {| rw_root := rw_root rw; rw_impl := rw_impl rw;
                   rw_options := rw_options rw;
                   rw_rejectTimeout := None;
                   rw_subscribed := rw_subscribed rw;
                   rw_promise := rw_promise rw |} st
          end
      | None => st
      end
  | None => st
  end.

(** *** [checkHealth] *)

(** [nullthrows(x)] *)
Definition nullthrows (x : option HealthCheckResult) : Call HealthCheckResult :=
  match x with
  | Some r => Returns r
  | None => Throws (mkError "Error" "Got unexpected undefined")
  end.

Definition cookie (prefix_ : string) (process_pid instanceId healthCheckId : Z) : string :=
  prefix_ ++ "-" ++ pretty process_pid ++ "-" ++ pretty instanceId
          ++ "-" ++ pretty healthCheckId.

(** [checkHealth(timeout)] up to its [await]. *)
Definition checkHealth (timeout now : Z) (st : State) : State :=
  let healthCheckId := _nextHealthCheckId (this st) in
  let next := if healthCheckId =? MAX_SAFE_INTEGER then 0 else healthCheckId + 1 in
  let options := _options (this st) in
  let basename_ :=
    cookie (healthCheckFilePrefix options) (pid st) (_instanceId (this st))
           healthCheckId in
  let healthCheckPath := join (rootDir options) basename_ in
  let c := length (checks st) in
  let fr :=
    {| ck_healthCheckId := healthCheckId; ck_timeout := timeout;
       ck_watcher := _activeWatcher (this st); ck_basename := basename_;
       ck_healthCheckPath := healthCheckPath; ck_startTime := now;
       ck_result := None; ck_timer := Some timeout; ck_created := false;
       ck_observed := false; ck_returned := None |} in
  set_this (with_pending (<[basename_ := c]>))
    (issue (writeFile healthCheckPath (pretty now))
       (set_checks (fun cs => (cs ++ [fr])%list)
          (set_this (with_nextHealthCheckId next) st))).

(** What follows [await Promise.race([...])], the first time one of the
    two raced promises is fulfilled. *)
Definition after_race (c : nat) (st : State) : State :=
  match checks st !! c with
  | Some fr =>
      match ck_returned fr with
      | Some _ => st
      | None =>
          let st1 := set_this (with_pending (delete (ck_basename fr))) st in
          let st2 := if ck_created fr
                     then issue (unlink (ck_healthCheckPath fr)) st1 else st1 in
          set_checks (<[c := with_returned (nullthrows (ck_result fr)) fr]>) st2
      end
  | None => st
  end.

(** The timer of check [c] fires: [timeoutPromise] and its reaction. *)
Definition on_timeout (c : nat) (pause : option string) (st : State) : State :=
  match checks st !! c with
  | Some fr =>
      match ck_timer fr with
      | Some _ =>
          let pauseReason :=
            match head (_backends (this st)) with
            | Some _ => pause
            | None => None
            end in
          let slot :=
            set_once (timeout_ (ck_timeout fr) (ck_watcher fr) pauseReason)
                     (ck_result fr) in
          after_race c
            (set_checks (<[c := with_result slot (timer_fired fr)]>) st)
      | None => st
      end
  | None => st
  end.

(** [fs.promises.writeFile] settles: the [catch] of [creationPromise],
    the clean-up chained to it if the check has returned, and the second
    element of the race if the observation is in. *)
Definition on_creation (c : nat) (failure : option Error) (st : State) : State :=
  match checks st !! c with
  | Some fr =>
      if ck_created fr then st
      else
        let slot :=
          match failure with
          | Some error => set_once (error_ (ck_timeout fr) error (ck_watcher fr))
                                   (ck_result fr)
          | None => ck_result fr
          end in
        let st1 := set_checks (<[c := with_result slot (creation_settled fr)]>) st in
        let st2 := match ck_returned fr with
                   | Some _ => issue (unlink (ck_healthCheckPath fr)) st1
                   | None => st1
                   end in
        if ck_observed fr then after_race c st2 else st2
  | None => st
  end.

(** The [resolve] of [observationPromise] with the reaction to it. *)
Definition resolveHealthCheck (c : nat) (now : Z) (st : State) : State :=
  match checks st !! c with
  | Some fr =>
      if ck_observed fr then st
      else
        let slot :=
          set_once (success (ck_timeout fr) (now - ck_startTime fr) (ck_watcher fr))
                   (ck_result fr) in
        let st1 := set_checks (<[c := with_result slot (observation_settled fr)]>) st in
        if ck_created fr then after_race c st1 else st1
  | None => st
  end.

Definition _handleHealthCheckObservation (basename_ : string) (now : Z) (st : State)
  : State :=
  match _pendingHealthChecks (this st) !! basename_ with
  | None => st
  | Some c => resolveHealthCheck c now st
  end.

Definition onChange (w : nat) (change : WatcherBackendChangeEvent) (st : State) : State :=
  set_watching
    (alter (fun wf => {| wf_roots := wf_roots wf;
                         wf_onChange := wf_onChange wf ++ [change];
                         wf_promise := wf_promise wf |}) w) st.

(** The listener of [all] that the [ready] listener of activation [w]
    installs. *)
Definition on_all (w : nat) (change : WatcherBackendChangeEvent) (now : Z) (st : State)
  : State :=
  let basename_ := basename (relativePath change) in
  if startsWith basename_ (healthCheckFilePrefix (_options (this st))) then
    if String.eqb (event change) ADD_EVENT || String.eqb (event change) CHANGE_EVENT
    then _handleHealthCheckObservation basename_ now st
    else st
  else onChange w change st.

Definition subscribed (st : State) (w i : nat) : bool :=
  match root_at st w i with
  | Some rw => rw_subscribed rw
  | None => false
  end.

(** *** The event loop *)

(** One turn: the input, with the reading of the clock during it. *)
Definition step (st : State) (turn : Z * Input) : State :=
  let now := turn.1 in
  match turn.2 with
  | CallWatch construct => watch construct st
  | CallCheckHealth timeout => checkHealth timeout now st
  | Ready w i => on_ready w i st
  | All w i change => if subscribed st w i then on_all w change now st else st
  | StartupTimeout w i => on_rejectTimeout w i st
  | HealthTimeout c pause => on_timeout c pause st
  | WriteFileSettled c failure => on_creation c failure st
  | CloseSettled => set_this (with_activeWatcher None) st
  end.

Definition run (st : State) (turns : list (Z * Input)) : State :=
  fold_left step turns st.

End Session.

(** ** One check seen on its own

    What the callbacks do to the frame of a single check, what a turn
    changes for a given check, the invariants of a session, and the
    verdict that the specification gives on a run.  The properties below
    relate them to [step]. *)

Module Race.
Import Session.

Definition registry (st : State) : gmap string nat := _pendingHealthChecks (this st).

(** The continuation after the race, as it acts on the frame. *)
Definition finish (fr : CheckFrame) : CheckFrame :=
  match ck_returned fr with
  | Some _ => fr
  | None => with_returned (nullthrows (ck_result fr)) fr
  end.

Definition frame_timeout (pauseReason : option string) (fr : CheckFrame) : CheckFrame :=
  match ck_timer fr with
  | Some _ =>
      finish (with_result
                (set_once (timeout_ (ck_timeout fr) (ck_watcher fr) pauseReason)
                          (ck_result fr))
                (timer_fired fr))
  | None => fr
  end.

Definition frame_creation (failure : option Error) (fr : CheckFrame) : CheckFrame :=
  if ck_created fr then fr
  else
    let slot := match failure with
                | Some error => set_once (error_ (ck_timeout fr) error (ck_watcher fr))
                                         (ck_result fr)
                | None => ck_result fr
                end in
    let fr1 := with_result slot (creation_settled fr) in
    if ck_observed fr then finish fr1 else fr1.

Definition frame_observation (now : Z) (fr : CheckFrame) : CheckFrame :=
  if ck_observed fr then fr
  else
    let slot := set_once (success (ck_timeout fr) (now - ck_startTime fr) (ck_watcher fr))
                         (ck_result fr) in
    let fr1 := with_result slot (observation_settled fr) in
    if ck_created fr then finish fr1 else fr1.

Definition is_add_or_change (kind : string) : bool :=
  String.eqb kind ADD_EVENT || String.eqb kind CHANGE_EVENT.

(** [this._backends[0]?.getPauseReason()] when the backend answers [pause] *)
Definition pause_reason (st : State) (pause : option string) : option string :=
  match head (_backends (this st)) with
  | Some _ => pause
  | None => None
  end.

(** The check, if any, whose [resolve] a turn calls. *)
Definition observed_check (st : State) (turn : Z * Input) : option nat :=
  match turn.2 with
  | All w i change =>
      let basename_ := basename (relativePath change) in
      if subscribed st w i
         && startsWith basename_ (healthCheckFilePrefix (_options (this st)))
         && is_add_or_change (event change)
      then registry st !! basename_
      else None
  | _ => None
  end.

(** The check, if any, whose callbacks a turn runs. *)
Definition target (st : State) (turn : Z * Input) : option nat :=
  match turn.2 with
  | HealthTimeout c _ => Some c
  | WriteFileSettled c _ => Some c
  | All _ _ _ => observed_check st turn
  | _ => None
  end.

(** The frame that [checkHealth(timeout)] opens. *)
Definition opened (st : State) (timeout now : Z) : CheckFrame :=
  let basename_ :=
    cookie (healthCheckFilePrefix (_options (this st))) (pid st)
           (_instanceId (this st)) (_nextHealthCheckId (this st)) in
  {| ck_healthCheckId := _nextHealthCheckId (this st); ck_timeout := timeout;
     ck_watcher := _activeWatcher (this st); ck_basename := basename_;
     ck_healthCheckPath := join (rootDir (_options (this st))) basename_;
     ck_startTime := now;
     ck_result := None; ck_timer := Some timeout; ck_created := false;
     ck_observed := false; ck_returned := None |}.

(** What a turn does to the frame of check [c]. *)
Definition touch (st : State) (turn : Z * Input) (c : nat) (fr : CheckFrame) : CheckFrame :=
  match turn.2 with
  | HealthTimeout c' pause =>
      if decide (c' = c) then frame_timeout (pause_reason st pause) fr else fr
  | WriteFileSettled c' failure =>
      if decide (c' = c) then frame_creation failure fr else fr
  | All _ _ _ =>
      if decide (observed_check st turn = Some c) then frame_observation turn.1 fr
      else fr
  | _ => fr
  end.

(** The verdict of the specification on check [c], whose frame at its
    call is [fr0]: the first, in a run, of these three events decides
    - the timer of the check elapses: [timeout];
    - the write of its cookie fails: [error];
    - a backend that is ready delivers an [add] or [change] event whose
      path has the basename of its cookie: [success].
    [written] tells that the write has settled before. *)
Fixpoint verdict (c : nat) (fr0 : CheckFrame) (st : State) (written : bool)
    (turns : list (Z * Input)) : option HealthCheckResult :=
  match turns with
  | [] => None
  | turn :: rest =>
      match turn.2 with
      | HealthTimeout c' pause =>
          if decide (c' = c)
          then Some (timeout_ (ck_timeout fr0) (ck_watcher fr0) (pause_reason st pause))
          else verdict c fr0 (step st turn) written rest
      | WriteFileSettled c' failure =>
          if decide (c' = c) then
            if written then verdict c fr0 (step st turn) written rest
            else match failure with
                 | Some error => Some (error_ (ck_timeout fr0) error (ck_watcher fr0))
                 | None => verdict c fr0 (step st turn) true rest
                 end
          else verdict c fr0 (step st turn) written rest
      | All w i change =>
          if subscribed st w i
             && String.eqb (basename (relativePath change)) (ck_basename fr0)
             && is_add_or_change (event change)
          then Some (success (ck_timeout fr0) (turn.1 - ck_startTime fr0)
                             (ck_watcher fr0))
          else verdict c fr0 (step st turn) written rest
      | _ => verdict c fr0 (step st turn) written rest
      end
  end.

(** Two states that differ at most in the frames of the checks, the
    registry and the file-system log. *)
Definition same_session (st st' : State) : Prop :=
  watching st' = watching st /\ pid st' = pid st /\ fsevents st' = fsevents st
  /\ _options (this st') = _options (this st)
  /\ _backends (this st') = _backends (this st)
  /\ _instanceId (this st') = _instanceId (this st)
  /\ _nextHealthCheckId (this st') = _nextHealthCheckId (this st)
  /\ _activeWatcher (this st') = _activeWatcher (this st).

(** The registry after the continuation of check [c] has had its chance
    to run on a frame that was [fr] and is now [fr']. *)
Definition released (fr fr' : CheckFrame) (reg : gmap string nat) : gmap string nat :=
  match ck_returned fr, ck_returned fr' with
  | None, Some _ => delete (ck_basename fr) reg
  | _, _ => reg
  end.

(** The locals of a check that are never reassigned. *)
Definition statics (fr : CheckFrame) : Z * Z * option string * string * Path * Z :=
  (ck_healthCheckId fr, ck_timeout fr, ck_watcher fr, ck_basename fr,
   ck_healthCheckPath fr, ck_startTime fr).

(** How the promises of a check hang together: the slot is empty only
    while nothing has happened, the check returns what the slot holds, and
    it returns as soon as the timer has fired or both the write and the
    observation are in. *)
Definition sound (fr : CheckFrame) : Prop :=
  (ck_result fr = None ->
   is_Some (ck_timer fr) /\ ck_observed fr = false /\ ck_returned fr = None)
  /\ (forall v, ck_returned fr = Some v ->
       exists r, ck_result fr = Some r /\ v = Returns r)
  /\ (ck_returned fr = None ->
      is_Some (ck_timer fr) /\ ck_created fr && ck_observed fr = false).

Definition all_sound (st : State) : Prop :=
  forall c fr, checks st !! c = Some fr -> sound fr.

(** The registry holds the [resolve] of checks that have not returned,
    each under the basename of its own cookie. *)
Definition registered (st : State) : Prop :=
  forall b k, registry st !! b = Some k ->
    exists fr, checks st !! k = Some fr /\ ck_basename fr = b /\ ck_returned fr = None.

(** What never changes in a session. *)
Definition config (st : State) : WatcherOptions * Z * Z * bool :=
  (_options (this st), pid st, _instanceId (this st), fsevents st).

(** The identifiers go round: the [k]-th check of a session has the
    identifier [k] modulo [MAX_SAFE_INTEGER + 1]. *)
Definition numbered (st : State) : Prop :=
  _nextHealthCheckId (this st)
  = Z.of_nat (length (checks st)) mod (MAX_SAFE_INTEGER + 1)
  /\ forall k fr, checks st !! k = Some fr ->
       ck_healthCheckId fr = Z.of_nat k mod (MAX_SAFE_INTEGER + 1)
       /\ ck_basename fr
          = cookie (healthCheckFilePrefix (_options (this st))) (pid st)
                   (_instanceId (this st)) (ck_healthCheckId fr).

(** The states of sessions: what a run from a new watcher leads to. *)
Definition reachable (st : State) : Prop :=
  exists options nextInstanceId process_pid supported turns,
    st = run (start options nextInstanceId process_pid supported) turns.

(** [fr'] is a later state of the frame [fr]: the same check, and what
    was decided or returned stays. *)
Definition later (fr fr' : CheckFrame) : Prop :=
  statics fr' = statics fr
  /\ (forall r, ck_result fr = Some r -> ck_result fr' = Some r)
  /\ (forall v, ck_returned fr = Some v -> ck_returned fr' = Some v)
  /\ (ck_timer fr = None -> ck_timer fr' = None).

(** The check that a turn belongs to, with the basename of its cookie:
    the one that a call of [checkHealth] opens, or the one whose
    callbacks the turn runs. *)
Definition concerns (st : State) (turn : Z * Input) : option (nat * string) :=
  match turn.2 with
  | CallCheckHealth timeout =>
      Some (length (checks st), ck_basename (opened st timeout turn.1))
  | _ =>
      match target st turn with
      | Some c =>
          match checks st !! c with
          | Some fr => Some (c, ck_basename fr)
          | None => None
          end
      | None => None
      end
  end.

(** How the promise of a backend hangs together with its listener and
    its timer: while it is pending the backend has not been ready and the
    timer runs, with the delay [MAX_WAIT_TIME]; it is fulfilled by the
    listener of [ready], which clears the timer. *)
Definition root_ok (rw : RootWatch) : Prop :=
  match rw_promise rw with
  | None => rw_subscribed rw = false /\ rw_rejectTimeout rw = Some MAX_WAIT_TIME
  | Some (Resolved _) => rw_subscribed rw = true /\ rw_rejectTimeout rw = None
  | Some (Rejected _) => rw_rejectTimeout rw = None
  end.

Definition never_rejected (rw : RootWatch) : Prop :=
  forall e, rw_promise rw <> Some (Rejected e).

(** [Promise.all] over the [n] configured roots: pending while no
    element is rejected, fulfilled only with every element fulfilled. *)
Definition frame_ok (n : nat) (wf : WatchFrame) : Prop :=
  Forall root_ok (wf_roots wf)
  /\ match wf_promise wf with
     | None => length (wf_roots wf) = n /\ Forall never_rejected (wf_roots wf)
     | Some (Resolved _) =>
         length (wf_roots wf) = n /\ Forall (fun rw => is_resolved rw = true) (wf_roots wf)
     | Some (Rejected _) => True
     end.

Definition watching_ok (st : State) : Prop :=
  Forall (frame_ok (length (roots (_options (this st))))) (watching st)
  /\ forall w i, In (w, i) (_backends (this st)) ->
       exists wf, watching st !! w = Some wf /\ wf_promise wf = Some (Resolved tt).

(** The calls of [onChange] of each activation of [watch]. *)
Definition delivered (st : State) : list (list WatcherBackendChangeEvent) :=
  map wf_onChange (watching st).

End Race.

(** ** [./watchers/common.js] *)

Module Common.

(** What [typeFromStat] asks of an [fs.Stats]. *)
Record Stats := { isSymbolicLink : bool; isDirectory : bool; isFile : bool }.

(** Note: these tests are not mutually exclusive - a symlink passes
    [isFile]. *)
Definition typeFromStat (stat : Stats) : option string :=
  if isSymbolicLink stat then Some "l"
  else if isDirectory stat then Some "d"
  else if isFile stat then Some "f"
  else None.

(** [s.replaceAll(sep, by_)] for a separator of one character, as
    [path.sep] is. *)
Fixpoint replaceAll (s : string) (sep by_ : ascii) : string :=
  match s with
  | EmptyString => EmptyString
  | String c s' =>
      String (if Ascii.eqb c sep then by_ else c) (replaceAll s' sep by_)
  end.

(** [posixPathMatchesPattern], chosen once from [path.sep].  [pattern]
    is the outcome of the one call of [pattern.test] that is made, as a
    function of the string tested: for a [RegExp] with the flag [g] or
    [y] it is the [test] at the [lastIndex] that the object has at this
    call, so it says nothing of another call. *)
Definition posixPathMatchesPattern (sep : ascii) (pattern : string -> bool)
    (filePath : string) : bool :=
  if Ascii.eqb sep slash then pattern filePath
  else pattern (replaceAll filePath sep slash).

(** [opts.glob] is typed as an array; [assignOptions] also takes a single
    glob and a missing one. *)
Inductive Globs := one (g : string) | many (gs : list string).

Record WatcherOptions := {
  glob : option Globs;
  dot : option bool;
  ignored : option (string -> bool);
  watchmanDeferStates : list string;
  watchman : option bool;
  watchmanPath : option string;
}.

(** The fields of a watcher that [assignOptions] sets. *)
Record Watcher := {
  doIgnore : string -> bool;
  w_dot : bool;
  globs : list string;
  w_ignored : option (string -> bool);
  w_watchmanDeferStates : list string;
  w_watchmanPath : option string;
}.

(** [assignOptions(watcher, opts)]: the watcher after the call, and the
    options, which it returns. *)
Definition assignOptions (sep : ascii) (watcher : Watcher) (opts : WatcherOptions)
  : Watcher * WatcherOptions :=
  let globs_ := match glob opts with
                | Some (many gs) => gs
                | Some (one g) => [g]
                | None => []
                end in
  let ignored_ := ignored opts in
  ({| doIgnore := match ignored_ with
                  | Some pattern => fun filePath => posixPathMatchesPattern sep pattern filePath
                  | None => fun _ => false
                  end;
      w_dot := match dot opts with Some b => b | None => false end;
      globs := globs_;
      w_ignored := ignored_;
      w_watchmanDeferStates := watchmanDeferStates opts;
      w_watchmanPath := match watchman opts, watchmanPath opts with
                        | Some true, Some file => Some file
                        | _, _ => w_watchmanPath watcher
                        end |},
   opts).

Section isIncluded.
(** [micromatch.some(str, patterns, {dot})], from the package micromatch;
    the options are [None] where the call gives none. *)
Variable some : string -> list string -> option bool -> bool.

(** Checks a file relative path against the globs array. *)
Definition isIncluded (type : option string) (globs_ : list string) (dot_ : bool)
    (doIgnore_ : string -> bool) (relativePath : string) : bool :=
  if doIgnore_ relativePath then false
  else if (length globs_ =? 0)%nat
          || negb (match type with Some t => String.eqb t "f" | None => false end)
  then dot_ || some relativePath ["**/*"] None
  else some relativePath globs_ (Some dot_).

End isIncluded.

End Common.

(** ** Reading traces and frames *)

Module Ledger.
Import Crawl Session Race.

Fixpoint perf_points (es : list Effect) : list string :=
  match es with
  | PerfPoint label :: es' => label :: perf_points es'
  | _ :: es' => perf_points es'
  | [] => []
  end.

Fixpoint emissions (es : list Effect) : list Emission :=
  match es with
  | Emitted e :: es' => e :: emissions es'
  | _ :: es' => emissions es'
  | [] => []
  end.

(** The statuses that the strategies report in a sequence of calls. *)
Definition reported (watchmanCrawl nodeCrawl : Crawler)
    (calls : list (CrawlerName * CrawlerOptions)) : list Status :=
  flat_map (fun call_ : CrawlerName * CrawlerOptions =>
              match implementation watchmanCrawl nodeCrawl call_.1 call_.2 with
              | Returns run => statuses run
              | Throws _ => []
              end) calls.

Definition is_resolution {A} (p : Settled A) : bool :=
  match p with Resolved _ => true | Rejected _ => false end.

(** The fields that every variant of a result has. *)
Definition result_timeout (r : HealthCheckResult) : Z :=
  match r with
  | error_ t _ _ => t
  | success t _ _ => t
  | timeout_ t _ _ => t
  end.

Definition result_watcher (r : HealthCheckResult) : option string :=
  match r with
  | error_ _ _ w => w
  | success _ _ w => w
  | timeout_ _ w _ => w
  end.

Definition carries (fr : CheckFrame) : Prop :=
  forall r, ck_result fr = Some r ->
    result_timeout r = ck_timeout fr /\ result_watcher r = ck_watcher fr.

Definition has_returned (fr : CheckFrame) : bool :=
  match ck_returned fr with Some _ => true | None => false end.

Definition timer_gone (fr : CheckFrame) : bool :=
  match ck_timer fr with Some _ => false | None => true end.

(** One of the two raced promises is fulfilled. *)
Definition race_won (fr : CheckFrame) : bool :=
  timer_gone fr || (ck_created fr && ck_observed fr).

(** The clean-up chained to [creationPromise] has run. *)
Definition cleaned (fr : CheckFrame) : bool := ck_created fr && has_returned fr.

Definition tidy (fr : CheckFrame) : Prop :=
  has_returned fr = race_won fr.

Fixpoint written (ops : list FsOp) : list (Path * string) :=
  match ops with
  | writeFile file data :: ops' => (file, data) :: written ops'
  | _ :: ops' => written ops'
  | [] => []
  end.

Fixpoint unlinked (ops : list FsOp) : list Path :=
  match ops with
  | unlink file :: ops' => file :: unlinked ops'
  | _ :: ops' => unlinked ops'
  | [] => []
  end.

(** What a callback of a check adds to the file-system log when it
    takes the frame from [fr] to [fr']. *)
Definition swept (fr fr' : CheckFrame) : list FsOp :=
  if negb (cleaned fr) && cleaned fr' then [unlink (ck_healthCheckPath fr)] else [].

(** The file-system calls of a session against its checks: each check
    has written its cookie once, in the order of the calls, and the
    cookies unlinked are those of the checks whose clean-up has run, each
    one once. *)
Definition ledger_ok (st : State) : Prop :=
  written (fsOps st)
  = map (fun fr => (ck_healthCheckPath fr, pretty (ck_startTime fr))) (checks st)
  /\ Permutation (unlinked (fsOps st))
       (map ck_healthCheckPath (List.filter cleaned (checks st))).

(** What a backend is constructed with: its root, its class and its
    options. *)
Definition layout (wf : WatchFrame) : list (Path * WatcherImpl * WatcherBackendOptions) :=
  (fun rw => (rw_root rw, rw_impl rw, rw_options rw)) <$> wf_roots wf.

(** The backends that [watch] constructs for the first [n] roots of a
    watcher. *)
Definition planned (st : State) (n : nat)
  : list (Path * WatcherImpl * WatcherBackendOptions) :=
  (fun r => (r, select_impl (useWatchman (_options (this st))) (fsevents st),
             watcherOptions (_options (this st))))
    <$> take n (roots (_options (this st))).

(** The character [a] does not occur in [s]. *)
Fixpoint avoids (a : ascii) (s : string) : bool :=
  match s with
  | EmptyString => true
  | String c s' => negb (Ascii.eqb c a) && avoids a s'
  end.

Definition digit (c : ascii) : bool :=
  (48 <=? nat_of_ascii c)%nat && (nat_of_ascii c <=? 57)%nat.

Definition dash : ascii := ascii_of_nat 45.

End Ledger.

(** ** A small project to run the definitions on *)

Module Demo.
Import Crawl Session.

Definition options : WatcherOptions := {|
  abortSignal := {| aborted := false; reason := mkError "AbortError" "aborted" |};
  computeSha1 := false;
  console := 0%nat;
  enableSymlinks := false;
  extensions := ["js"];
  forceNodeFilesystemAPI := false;
  healthCheckFilePrefix := ".metro-health-check";
  ignore := fun filePath => String.eqb filePath "/proj/secret.js";
  ignorePattern := fun _ => false;
  previousState := "clock:0";
  perfLogger := Some 1%nat;
  roots := ["/proj/a"; "/proj/b"];
  rootDir := "/proj";
  useWatchman := true;
  watch_ := true;
  watchmanDeferStates := ["hg.update"];
|}.

Definition unavailable : Error := mkError "Error" "service unavailable".
Definition denied : Error := mkError "Error" "EACCES: permission denied".

Definition delta : CrawlResult := {|
  changedFiles := {[ "/proj/a.js" := "meta" ]};
  clocks := None;
  removedFiles := ∅;
|}.

Definition watchman_down : Crawler :=
  async_function (fun _ => {| statuses := ["watchman: connecting"];
                              outcome := Rejected unavailable |}).
Definition node_down : CrawlerOptions -> CrawlRun :=
  fun _ => {| statuses := []; outcome := Rejected denied |}.
Definition nothing : CrawlResult :=
  {| changedFiles := ∅; clocks := None; removedFiles := ∅ |}.
Definition node_up : Crawler :=
  async_function
    (fun o => {| statuses := [];
                 outcome := Resolved (if co_ignore o "/proj/a.js"
                                      then nothing else delta) |}).

Definition aborted_options : WatcherOptions := {|
  abortSignal := {| aborted := true; reason := mkError "AbortError" "aborted" |};
  computeSha1 := false;
  console := 0%nat;
  enableSymlinks := false;
  extensions := ["js"];
  forceNodeFilesystemAPI := false;
  healthCheckFilePrefix := ".metro-health-check";
  ignore := fun _ => false;
  ignorePattern := fun _ => false;
  previousState := "clock:0";
  perfLogger := Some 1%nat;
  roots := [];
  rootDir := "/proj";
  useWatchman := false;
  watch_ := true;
  watchmanDeferStates := [];
|}.

Definition session : State := start options 7 4242 false.

Definition cookie0 : string := ".metro-health-check-4242-7-0".
Definition cookie1 : string := ".metro-health-check-4242-7-1".
(** The cookie of another process that uses the same prefix. *)
Definition foreign_cookie : string := ".metro-health-check-999-0-0".

Definition seen (kind : string) (file : Path) : WatcherBackendChangeEvent :=
  {| event := kind; relativePath := file; root := "/proj/a"; metadata := None |}.

Definition both_ready : list (Z * Input) :=
  [(0, CallWatch (fun _ => None)); (5, Ready 0%nat 0%nat); (6, Ready 0%nat 1%nat)].

Definition checking : list (Z * Input) :=
  both_ready ++ [(10, CallCheckHealth 1000)].

Definition observed_first : list (Z * Input) :=
  checking ++ [(12, All 0%nat 0%nat (seen "add" cookie0))].

Definition seen_then_written : list (Z * Input) :=
  [(12, All 0%nat 0%nat (seen "add" cookie0)); (13, WriteFileSettled 0%nat None)].

Definition one_ready : list (Z * Input) :=
  [(0, CallWatch (fun _ => None)); (5, Ready 0%nat 0%nat)].

(** The first root is ready and reports changes, before and after the
    start-up timer of the second root, which never is ready, fires. *)
Definition one_ready_one_late : list (Z * Input) :=
  [(0, CallWatch (fun _ => None)); (5, Ready 0%nat 0%nat);
   (9, All 0%nat 0%nat (seen "change" "src/a.js"));
   (240000, StartupTimeout 0%nat 1%nat);
   (240007, All 0%nat 0%nat (seen "add" "src/b.js"))].

Definition timer_then_write : list (Z * Input) :=
  [(60, HealthTimeout 0%nat (Some "hg.update")); (210, WriteFileSettled 0%nat None)].

(** The write of the cookie takes longer than the timeout. *)
Definition slow_write : list (Z * Input) :=
  both_ready
  ++ [(10, CallCheckHealth 50); (60, HealthTimeout 0%nat (Some "hg.update"));
      (210, WriteFileSettled 0%nat None)].

(** Two checks under way at once, each cookie observed on its own. *)
Definition two_observed : list (Z * Input) :=
  both_ready
  ++ [(10, CallCheckHealth 1000); (11, CallCheckHealth 1000);
      (12, WriteFileSettled 0%nat None); (13, WriteFileSettled 1%nat None);
      (20, All 0%nat 1%nat (seen "add" cookie1));
      (25, All 0%nat 0%nat (seen "change" cookie0))].

Definition two_checks : list (Z * Input) :=
  checking ++ [(11, CallCheckHealth 1000)].

Definition the_rest : list (Z * Input) :=
  [(13, WriteFileSettled 0%nat None); (1010, HealthTimeout 0%nat None)].

(** A symbolic link to a regular file, and the options of a backend on
    Windows that ignores what lies under [node_modules]. *)
Definition link : Common.Stats :=
  {| Common.isSymbolicLink := true; Common.isDirectory := false;
     Common.isFile := true |}.

Definition backend_options : Common.WatcherOptions :=
  {| Common.glob := Some (Common.many ["**/*.js"]);
     Common.dot := Some true;
     Common.ignored := Some (fun filePath => startsWith filePath "node_modules/");
     Common.watchmanDeferStates := [];
     Common.watchman := None;
     Common.watchmanPath := None |}.

Definition blank : Common.Watcher :=
  {| Common.doIgnore := fun _ => false; Common.w_dot := false; Common.globs := [];
     Common.w_ignored := None; Common.w_watchmanDeferStates := [];
     Common.w_watchmanPath := None |}.

Definition backslash : ascii := ascii_of_nat 92.

End Demo.

(** * Properties *)

Local Open Scope list_scope.

(** ** [crawl] *)

Section crawl_facts.
Import Crawl.

Lemma perform_all_spec es f :
  perform_all es f = ({| crawler := crawler f; effects := effects f ++ es |}, inr tt).
Proof.
  revert f; induction es as [|e es IH]; intros [c l]; simpl.
  - unfold mret, M_ret, ret. by rewrite app_nil_r.
  - unfold mbind, M_bind, bind, perform; simpl. rewrite IH; simpl.
    by rewrite <- app_assoc.
Qed.

Lemma warnings_app l1 l2 : warnings (l1 ++ l2) = warnings l1 ++ warnings l2.
Proof.
  induction l1 as [|[] l1 IH]; simpl; try done. by rewrite IH.
Qed.

Lemma invocations_app l1 l2 :
  invocations (l1 ++ l2) = invocations l1 ++ invocations l2.
Proof.
  induction l1 as [|[] l1 IH]; simpl; try done. by rewrite IH.
Qed.

Lemma warnings_emitted (g : Status -> Emission) ss :
  warnings (map (fun s => Emitted (g s)) ss) = [].
Proof. by induction ss. Qed.

Lemma invocations_emitted (g : Status -> Emission) ss :
  invocations (map (fun s => Emitted (g s)) ss) = [].
Proof. by induction ss. Qed.

Lemma includes_watchman_hint error :
  includes (retry_warning error) "watchman isn't running".
Proof.
  unfold retry_warning.
  exists ("metro-file-map: Watchman crawl failed. Retrying once with node "
            +:+ "crawler." +:+ nl +:+ "  Usually this happens when "),
    (". Create an " +:+
     "empty `.watchmanconfig` file in your project's root folder or " +:+
     "initialize a git or hg repository in your project." +:+ nl +:+
     "  " +:+ toString error).
  reflexivity.
Qed.

Lemma string_app_assoc (a b c : string) : ((a +:+ b) +:+ c = a +:+ (b +:+ c))%string.
Proof.
  induction a as [|x a IH]; [done|].
  change (String x ((a +:+ b) +:+ c) = String x (a +:+ (b +:+ c))).
  by rewrite IH.
Qed.

Lemma retry_failed_includes error e :
  includes (message (retry_failed error e)) (message error)
  /\ includes (message (retry_failed error e)) (message e).
Proof.
  unfold retry_failed; simpl; split.
  - exists ("Crawler retry failed:" +:+ nl +:+ "  Original error: "),
      (nl +:+ "  Retry error: " +:+ message e +:+ nl).
    by rewrite !string_app_assoc.
  - exists ("Crawler retry failed:" +:+ nl +:+ "  Original error: "
              +:+ message error +:+ nl +:+ "  Retry error: "), nl.
    by rewrite !string_app_assoc.
Qed.

Lemma logEnd_unchanged options delta f :
  (logEnd options delta f).2 = inr delta.
Proof.
  unfold logEnd, perf_point, mbind, M_bind, bind, mret, M_ret, ret, perform,
    get_crawler; simpl.
  by destruct (perfLogger options).
Qed.

Lemma logEnd_effects options delta f :
  exists log, effects (logEnd options delta f).1 = effects f ++ log
              /\ warnings log = [] /\ invocations log = [].
Proof.
  unfold logEnd, perf_point, mbind, M_bind, bind, mret, M_ret, ret, perform,
    get_crawler; simpl.
  destruct (perfLogger options); simpl; eexists; split; try reflexivity.
  - by rewrite <- app_assoc.
  - done.
  - done.
Qed.

(** The whole of [crawl()] when the selected strategy fails. *)
Lemma crawl_after_failure options watchmanCrawl nodeCrawl error :
  aborted (abortSignal options) = false ->
  fails (implementation watchmanCrawl nodeCrawl (selected options))
        (crawlerOptions options) error ->
  exists pre,
    warnings pre = [] /\
    invocations pre = [(selected options, crawlerOptions options)] /\
    crawl options watchmanCrawl nodeCrawl =
    match selected options with
    | node => ({| crawler := node; effects := pre |}, Rejected error)
    | watchman =>
        let warn := ConsoleWarn (retry_warning error) in
        let again := Invoke node (crawlerOptions options) in
        match nodeCrawl (crawlerOptions options) with
        | Throws e =>
            ({| crawler := node; effects := pre ++ [warn; again] |}, Rejected e)
        | Returns run =>
            let heard := map (fun s => Emitted (emit "status" s)) (statuses run) in
            match outcome run with
            | Rejected e =>
                ({| crawler := node; effects := pre ++ [warn; again] ++ heard |},
                 Rejected (retry_failed error e))
            | Resolved delta =>
                ((logEnd options delta
                    {| crawler := node;
                       effects := pre ++ [warn; again] ++ heard |}).1,
                 Resolved delta)
            end
        end
    end.
Proof.
  intros Hab Hfail.
  set (begun := Debug ("Beginning crawl with " +:+ dq +:+ "%s" +:+ dq +:+ ".")
                  [ArgS (crawler_string (selected options))]).
  set (first := Invoke (selected options) (crawlerOptions options)).
  set (started := match perfLogger options with
                  | Some _ => [PerfPoint "crawl_start"]
                  | None => []
                  end).
  set (heard0 := match implementation watchmanCrawl nodeCrawl (selected options)
                         (crawlerOptions options) with
                 | Returns run =>
                     map (fun s => Emitted (emit "status" s)) (statuses run)
                 | Throws _ => []
                 end).
  exists (started ++ [begun; first] ++ heard0).
  assert (Hw : warnings (started ++ [begun; first] ++ heard0) = []).
  { rewrite !warnings_app. subst started heard0; simpl.
    destruct (perfLogger options); simpl;
      destruct (implementation _ _ _ _); simpl; try done;
      apply warnings_emitted. }
  assert (Hi : invocations (started ++ [begun; first] ++ heard0)
               = [(selected options, crawlerOptions options)]).
  { rewrite !invocations_app. subst started heard0; simpl.
    destruct (perfLogger options); simpl;
      destruct (implementation _ _ _ _); simpl; try done;
      by rewrite invocations_emitted. }
  split; [done|]. split; [done|]. clear Hw Hi.
  unfold crawl, crawl_body, retry, call, perf_point.
  unfold mbind, M_bind, bind, mret, M_ret, ret, throw, perform, get_crawler,
    set_crawler; simpl.
  rewrite Hab; simpl.
  subst started heard0 begun first.
  destruct (perfLogger options) as [pl|]; simpl;
    (destruct Hfail as [Hthrow | (run & Hret & Hrej)];
     [ rewrite Hthrow | rewrite Hret; rewrite perform_all_spec; simpl;
                        rewrite Hrej ]);
    simpl; destruct (selected options); simpl;
    rewrite <- ?app_assoc; simpl; try reflexivity;
    (destruct (nodeCrawl (crawlerOptions options)) as [e2|run2]; simpl;
     [ reflexivity
     | rewrite perform_all_spec; simpl;
       destruct (outcome run2) as [delta|e2]; simpl;
       rewrite <- ?app_assoc; simpl; try reflexivity;
       match goal with
       | |- context [logEnd ?o ?d ?f] =>
           pose proof (logEnd_unchanged o d f) as Hl;
           destruct (logEnd o d f) as [f' r']; simpl in Hl; subst r'; reflexivity
       end ]).
Qed.

Lemma crawl_after_success options watchmanCrawl nodeCrawl run delta :
  aborted (abortSignal options) = false ->
  implementation watchmanCrawl nodeCrawl (selected options)
    (crawlerOptions options) = Returns run ->
  outcome run = Resolved delta ->
  exists pre,
    warnings pre = [] /\
    invocations pre = [(selected options, crawlerOptions options)] /\
    crawl options watchmanCrawl nodeCrawl =
    ((logEnd options delta {| crawler := selected options; effects := pre |}).1,
     Resolved delta).
Proof.
  intros Hab Hret Hres.
  exists ((match perfLogger options with
           | Some _ => [PerfPoint "crawl_start"]
           | None => []
           end)
          ++ [Debug ("Beginning crawl with " +:+ dq +:+ "%s" +:+ dq +:+ ".")
                [ArgS (crawler_string (selected options))];
              Invoke (selected options) (crawlerOptions options)]
          ++ map (fun s => Emitted (emit "status" s)) (statuses run)).
  split; [|split].
  - rewrite !warnings_app, warnings_emitted. by destruct (perfLogger options).
  - rewrite !invocations_app, invocations_emitted.
    by destruct (perfLogger options).
  - unfold crawl, crawl_body, retry, call, perf_point.
    unfold mbind, M_bind, bind, mret, M_ret, ret, throw, perform, get_crawler,
      set_crawler; simpl.
    rewrite Hab; simpl.
    destruct (perfLogger options) as [pl|]; simpl; rewrite Hret;
      rewrite perform_all_spec; simpl; rewrite Hres;
      rewrite <- ?app_assoc; simpl;
      match goal with
      | |- context [logEnd ?o ?d ?f] =>
          pose proof (logEnd_unchanged o d f) as Hl;
          destruct (logEnd o d f) as [f' r']; simpl in Hl; subst r'; reflexivity
      end.
Qed.

Lemma crawl_aborted options watchmanCrawl nodeCrawl :
  aborted (abortSignal options) = true ->
  invocations (effects (crawl options watchmanCrawl nodeCrawl).1) = []
  /\ (crawl options watchmanCrawl nodeCrawl).2
     = Rejected (reason (abortSignal options)).
Proof.
  intros Hab.
  unfold crawl, crawl_body, retry, call, perf_point.
  unfold mbind, M_bind, bind, mret, M_ret, ret, throw, perform, get_crawler,
    set_crawler; simpl.
  rewrite Hab. by destruct (perfLogger options).
Qed.

Lemma fails_or_resolves (c : Crawler) o :
  (exists error, fails c o error)
  \/ exists run delta, c o = Returns run /\ outcome run = Resolved delta.
Proof.
  unfold fails. destruct (c o) as [e|run] eqn:E.
  - left. exists e. by left.
  - destruct (outcome run) as [delta|e] eqn:E'.
    + right. by exists run, delta.
    + left. exists e. right. by exists run.
Qed.

End crawl_facts.

Import Crawl.

(** C3: when the selected strategy fails with [error] and that strategy
    is the watchman one, [crawl()] warns exactly once, with a text that
    names watchman not running, and right after it calls the node strategy
    once with the same crawler options, so that each strategy is called
    once and never again; if the promise of that retry is rejected with
    [e], [crawl()] is rejected with an error whose message contains the
    messages of [error] and of [e].  When the node strategy was selected,
    [crawl()] is rejected with [error] itself, nothing is warned and no
    other call is made.  The node strategy is an async function. *)
Theorem crawl_retries_watchman_failure_once
    (options : WatcherOptions) (watchmanCrawl : Crawler)
    (n : CrawlerOptions -> CrawlRun) (error : Error) :
  aborted (abortSignal options) = false ->
  fails (if useWatchman options then watchmanCrawl else async_function n)
        (crawlerOptions options) error ->
  let finished := crawl options watchmanCrawl (async_function n) in
  let warn := ConsoleWarn (retry_warning error) in
  let again := Invoke node (crawlerOptions options) in
  if useWatchman options then
    warnings (effects finished.1) = [retry_warning error]
    /\ includes (retry_warning error) "watchman isn't running"
    /\ invocations (effects finished.1)
       = [(watchman, crawlerOptions options); (node, crawlerOptions options)]
    /\ (exists pre post, effects finished.1 = pre ++ [warn; again] ++ post)
    /\ match outcome (n (crawlerOptions options)) with
       | Rejected e =>
           finished.2 = Rejected (retry_failed error e)
           /\ includes (message (retry_failed error e)) (message error)
           /\ includes (message (retry_failed error e)) (message e)
       | Resolved delta => finished.2 = Resolved delta
       end
  else
    finished.2 = Rejected error
    /\ warnings (effects finished.1) = []
    /\ invocations (effects finished.1) = [(node, crawlerOptions options)].
Proof.
  intros Hab Hfail finished warn again.
  destruct (crawl_after_failure options watchmanCrawl (async_function n) error Hab)
    as (pre & Hw & Hi & Hc).
  { unfold selected. by destruct (useWatchman options). }
  subst finished. rewrite Hc. clear Hc. unfold selected in *.
  destruct (useWatchman options); simpl.
  - unfold async_function.
    set (heard := map (fun s => Emitted (emit "status" s))
                      (statuses (n (crawlerOptions options)))).
    destruct (outcome (n (crawlerOptions options))) as [delta|e] eqn:Hn; simpl.
    + destruct (logEnd_effects options delta
                  {| crawler := node; effects := pre ++ warn :: again :: heard |})
        as (log & Hlog & Hlw & Hli).
      subst warn again. rewrite Hlog. simpl effects.
      rewrite !warnings_app, !invocations_app, Hw, Hi, Hlw, Hli. simpl.
      subst heard. rewrite warnings_emitted, invocations_emitted.
      split_and!; [reflexivity | apply includes_watchman_hint | reflexivity
                  | | reflexivity].
      exists pre,
        (map (fun s => Emitted (emit "status" s))
           (statuses (n (crawlerOptions options))) ++ log).
      by rewrite <- app_assoc.
    + rewrite !warnings_app, !invocations_app, Hw, Hi. simpl.
      subst heard. rewrite warnings_emitted, invocations_emitted.
      split_and!; [reflexivity | apply includes_watchman_hint | reflexivity
                  | by eexists pre, _ | reflexivity
                  | apply retry_failed_includes | apply retry_failed_includes].
  - by rewrite Hw, Hi.
Qed.

Lemma crawl_retries_watchman_failure_once_witness :
  aborted (abortSignal Demo.options) = false
  /\ fails Demo.watchman_down (crawlerOptions Demo.options) Demo.unavailable
  /\ (crawl Demo.options Demo.watchman_down (async_function Demo.node_down)).2
     = Rejected (retry_failed Demo.unavailable Demo.denied).
Proof.
  split; [reflexivity|].
  split; [right; eexists; split; reflexivity|].
  refine (proj1 (proj2 (proj2 (proj2 (proj2
    (crawl_retries_watchman_failure_once Demo.options Demo.watchman_down
       Demo.node_down Demo.unavailable _ _)))))).
  - reflexivity.
  - right; eexists; split; reflexivity.
Defined.

(** C7: when the watchman strategy is selected and fails, and the node
    strategy invoked directly with the crawler options of this call
    resolves, then [crawl()] resolves with that very result, the same
    [changedFiles], [removedFiles] and [clocks]; [logEnd] returns the
    delta it is given. *)
Theorem crawl_fallback_result_unchanged
    (options : WatcherOptions) (watchmanCrawl nodeCrawl : Crawler)
    (error : Error) (delta : CrawlResult) :
  aborted (abortSignal options) = false ->
  useWatchman options = true ->
  fails watchmanCrawl (crawlerOptions options) error ->
  fallback_directly options nodeCrawl = Resolved delta ->
  (crawl options watchmanCrawl nodeCrawl).2 = fallback_directly options nodeCrawl
  /\ forall d f, (logEnd options d f).2 = inr d.
Proof.
  intros Hab Hw Hfail Hdirect. split; [|apply logEnd_unchanged].
  destruct (crawl_after_failure options watchmanCrawl nodeCrawl error Hab)
    as (pre & _ & _ & Hc).
  { unfold selected. by rewrite Hw. }
  rewrite Hc. unfold selected. rewrite Hw.
  unfold fallback_directly in *.
  destruct (nodeCrawl (crawlerOptions options)) as [e|run]; [done|].
  destruct (outcome run); [done|discriminate].
Qed.

Lemma crawl_fallback_result_unchanged_witness :
  (crawl Demo.options Demo.watchman_down Demo.node_up).2 = Resolved Demo.delta.
Proof.
  refine (eq_trans (proj1 (crawl_fallback_result_unchanged Demo.options
            Demo.watchman_down Demo.node_up Demo.unavailable Demo.delta
            _ _ _ _)) _); try reflexivity.
  right; eexists; split; reflexivity.
Defined.

Lemma crawl_invocations options watchmanCrawl nodeCrawl c o :
  In (c, o) (invocations (effects (crawl options watchmanCrawl nodeCrawl).1)) ->
  o = crawlerOptions options.
Proof.
  destruct (aborted (abortSignal options)) eqn:Hab.
  { destruct (crawl_aborted options watchmanCrawl nodeCrawl Hab) as [-> _].
    intros []. }
  destruct (fails_or_resolves
              (implementation watchmanCrawl nodeCrawl (selected options))
              (crawlerOptions options)) as [[error Hf]|(run & delta & Hr & Ho)].
  - destruct (crawl_after_failure _ _ _ _ Hab Hf) as (pre & Hw & Hi & ->).
    destruct (selected options); simpl.
    + destruct (nodeCrawl (crawlerOptions options)) as [e|run]; simpl.
      * rewrite invocations_app, Hi; simpl. intros [|[|[]]]; congruence.
      * destruct (outcome run) as [delta|e]; simpl.
        -- destruct (logEnd_effects options delta
                       {| crawler := node;
                          effects := pre ++ ConsoleWarn (retry_warning error)
                                     :: Invoke node (crawlerOptions options)
                                     :: map (fun s => Emitted (emit "status" s))
                                            (statuses run) |})
             as (log & -> & _ & Hli).
           simpl effects.
           rewrite !invocations_app, Hi, Hli; simpl.
           rewrite invocations_emitted; simpl. intros [|[|[]]]; congruence.
        -- rewrite invocations_app, Hi; simpl.
           rewrite invocations_emitted; simpl. intros [|[|[]]]; congruence.
    + rewrite Hi. intros [|[]]; congruence.
  - destruct (crawl_after_success _ _ _ _ _ Hab Hr Ho) as (pre & Hw & Hi & ->).
    simpl.
    destruct (logEnd_effects options delta
                {| crawler := selected options; effects := pre |})
      as (log & -> & _ & Hli).
    simpl effects. rewrite invocations_app, Hi, Hli; simpl.
    intros [|[]]; congruence.
Qed.

Lemma crawl_result_origin options watchmanCrawl nodeCrawl delta :
  (crawl options watchmanCrawl nodeCrawl).2 = Resolved delta ->
  exists c run,
    implementation watchmanCrawl nodeCrawl c (crawlerOptions options) = Returns run
    /\ outcome run = Resolved delta.
Proof.
  destruct (aborted (abortSignal options)) eqn:Hab.
  { destruct (crawl_aborted options watchmanCrawl nodeCrawl Hab) as [_ ->].
    discriminate. }
  destruct (fails_or_resolves
              (implementation watchmanCrawl nodeCrawl (selected options))
              (crawlerOptions options)) as [[error Hf]|(run & d & Hr & Ho)].
  - destruct (crawl_after_failure _ _ _ _ Hab Hf) as (pre & Hw & Hi & ->).
    destruct (selected options); simpl; [|discriminate].
    destruct (nodeCrawl (crawlerOptions options)) as [e|run] eqn:Hn; simpl;
      [discriminate|].
    destruct (outcome run) as [d|e] eqn:Ho; simpl; [|discriminate].
    intros [= ->]. by exists node, run.
  - destruct (crawl_after_success _ _ _ _ _ Hab Hr Ho) as (pre & Hw & Hi & ->).
    simpl. intros [= ->]. by exists (selected options), run.
Qed.

(** C9: the [ignore] predicate of the crawler options excludes the paths
    that the configured [ignore] excludes and every path whose basename
    starts with the health-check prefix; each strategy that [crawl()]
    calls is given these options.  Consequently, with strategies that
    never report an ignored path as changed, no changed file of a result
    of [crawl()] has a basename that starts with the prefix. *)
Theorem crawl_ignores_health_check_files
    (options : WatcherOptions) (watchmanCrawl nodeCrawl : Crawler) :
  (forall filePath,
      co_ignore (crawlerOptions options) filePath = true <->
      ignore options filePath = true
      \/ startsWith (basename filePath) (healthCheckFilePrefix options) = true)
  /\ (forall c o,
        In (c, o) (invocations (effects (crawl options watchmanCrawl nodeCrawl).1)) ->
        o = crawlerOptions options)
  /\ (honours_ignore watchmanCrawl -> honours_ignore nodeCrawl ->
      forall delta filePath,
        (crawl options watchmanCrawl nodeCrawl).2 = Resolved delta ->
        is_Some (changedFiles delta !! filePath) ->
        startsWith (basename filePath) (healthCheckFilePrefix options) = false).
Proof.
  split_and!.
  - intros filePath. simpl. unfold ignore_. apply orb_true_iff.
  - intros c o. apply crawl_invocations.
  - intros Hw Hn delta filePath Hres Hin.
    destruct (crawl_result_origin _ _ _ _ Hres) as (c & run & Hr & Ho).
    assert (co_ignore (crawlerOptions options) filePath = false) as Hig.
    { destruct c; simpl in Hr; [eapply Hw|eapply Hn]; eauto. }
    simpl in Hig. unfold ignore_ in Hig. by apply orb_false_elim in Hig as [_ ?].
Qed.

Lemma honours_ignore_node_up : honours_ignore Demo.node_up.
Proof.
  intros o run delta p [= <-] [= <-] [x Hx].
  destruct (co_ignore o "/proj/a.js") eqn:Hig; simpl in Hx.
  - by rewrite lookup_empty in Hx.
  - by apply lookup_singleton_Some in Hx as [<- _].
Qed.

Lemma honours_ignore_watchman_down : honours_ignore Demo.watchman_down.
Proof. intros o run delta p [= <-] [=]. Qed.

Lemma crawl_ignores_health_check_files_witness :
  honours_ignore Demo.watchman_down /\ honours_ignore Demo.node_up
  /\ startsWith (basename "/proj/a.js") (healthCheckFilePrefix Demo.options) = false.
Proof.
  split; [apply honours_ignore_watchman_down|].
  split; [apply honours_ignore_node_up|].
  refine (proj2 (proj2 (crawl_ignores_health_check_files Demo.options
            Demo.watchman_down Demo.node_up))
            honours_ignore_watchman_down honours_ignore_node_up
            Demo.delta "/proj/a.js" _ _).
  - reflexivity.
  - exists "meta"%string. reflexivity.
Defined.

(** ** The session *)

Import Session Race.

(** *** Lists updated in place *)

Lemma alter_lookup_Some {A} (f : A -> A) (l : list A) i x :
  l !! i = Some x -> <[i := f x]> l = alter f i l.
Proof.
  revert i; induction l as [|y l IH]; intros [|i] H; simplify_eq/=; try done.
  f_equal. by apply IH.
Qed.

Lemma alter_lookup_None {A} (f : A -> A) (l : list A) i :
  l !! i = None -> alter f i l = l.
Proof.
  revert i; induction l as [|y l IH]; intros [|i] H; simplify_eq/=; try done.
  f_equal. by apply IH.
Qed.

Lemma alter_fixed {A} (f : A -> A) (l : list A) i x :
  l !! i = Some x -> f x = x -> alter f i l = l.
Proof.
  intros H Hf. rewrite <- (alter_lookup_Some f l i x H), Hf.
  by apply list_insert_id.
Qed.

(** *** What each callback changes *)

Lemma same_session_refl st : same_session st st.
Proof. by repeat split. Qed.

Lemma after_race_view c st :
  checks (after_race c st) = alter finish c (checks st)
  /\ registry (after_race c st)
     = match checks st !! c with
       | Some fr => released fr (finish fr) (registry st)
       | None => registry st
       end
  /\ same_session st (after_race c st).
Proof.
  unfold after_race, registry, released, finish.
  destruct (checks st !! c) as [fr|] eqn:Hc.
  - destruct (ck_returned fr) eqn:Hr.
    + split_and!; [|done|apply same_session_refl].
      symmetry. eapply alter_fixed; [done|]. by rewrite Hr.
    + split_and!.
      * rewrite <- (alter_lookup_Some _ _ _ fr Hc). rewrite Hr.
        by destruct (ck_created fr).
      * by destruct (ck_created fr).
      * by destruct (ck_created fr).
  - split_and!; [|done|apply same_session_refl].
    symmetry. by apply alter_lookup_None.
Qed.

Lemma same_session_trans st1 st2 st3 :
  same_session st1 st2 -> same_session st2 st3 -> same_session st1 st3.
Proof.
  unfold same_session. intros (?&?&?&?&?&?&?&?) (?&?&?&?&?&?&?&?).
  split_and!; congruence.
Qed.

Lemma lookup_set_checks_insert st c fr fr' :
  checks st !! c = Some fr ->
  checks (set_checks (<[c := fr']>) st) !! c = Some fr'.
Proof.
  intros H. simpl. apply list_lookup_insert_eq. by eapply lookup_lt_Some.
Qed.

(** The common shape of the three callbacks of a check: the frame is
    rewritten, then the continuation may run. *)
Lemma rewritten_then_raced c st fr fr1 :
  checks st !! c = Some fr ->
  ck_returned fr1 = ck_returned fr ->
  ck_basename fr1 = ck_basename fr ->
  let st' := after_race c (set_checks (<[c := fr1]>) st) in
  checks st' = <[c := finish fr1]> (checks st)
  /\ registry st' = released fr (finish fr1) (registry st)
  /\ same_session st st'.
Proof.
  intros Hc Hr Hb st'.
  destruct (after_race_view c (set_checks (<[c := fr1]>) st)) as (H1 & H2 & H3).
  fold st' in H1, H2, H3.
  pose proof (lookup_set_checks_insert st c fr fr1 Hc) as Hc1.
  split_and!.
  - rewrite H1. rewrite <- (alter_lookup_Some _ _ _ fr1 Hc1). simpl.
    apply list_insert_insert_eq.
  - rewrite H2, Hc1. unfold released. by rewrite Hr, Hb.
  - eapply same_session_trans; [|exact H3]. by repeat split.
Qed.

Lemma rewritten_only c st fr fr1 :
  checks st !! c = Some fr ->
  ck_returned fr1 = ck_returned fr ->
  let st' := set_checks (<[c := fr1]>) st in
  checks st' = <[c := fr1]> (checks st)
  /\ registry st' = released fr fr1 (registry st)
  /\ same_session st st'.
Proof.
  intros Hc Hr st'. split_and!; [done| |by repeat split].
  unfold released. rewrite Hr. by destruct (ck_returned fr).
Qed.

Lemma on_timeout_view c pause st :
  checks (on_timeout c pause st)
  = alter (frame_timeout (pause_reason st pause)) c (checks st)
  /\ registry (on_timeout c pause st)
     = match checks st !! c with
       | Some fr => released fr (frame_timeout (pause_reason st pause) fr) (registry st)
       | None => registry st
       end
  /\ same_session st (on_timeout c pause st).
Proof.
  unfold on_timeout. fold (pause_reason st pause).
  destruct (checks st !! c) as [fr|] eqn:Hc.
  - rewrite <- (alter_lookup_Some _ _ _ fr Hc). unfold frame_timeout.
    destruct (ck_timer fr) eqn:Ht.
    + by apply rewritten_then_raced.
    + split_and!; [by rewrite list_insert_id| |apply same_session_refl].
      unfold released. by destruct (ck_returned fr).
  - split_and!; [|done|apply same_session_refl].
    symmetry. by apply alter_lookup_None.
Qed.

Lemma on_creation_view c failure st :
  checks (on_creation c failure st) = alter (frame_creation failure) c (checks st)
  /\ registry (on_creation c failure st)
     = match checks st !! c with
       | Some fr => released fr (frame_creation failure fr) (registry st)
       | None => registry st
       end
  /\ same_session st (on_creation c failure st).
Proof.
  unfold on_creation.
  destruct (checks st !! c) as [fr|] eqn:Hc.
  - rewrite <- (alter_lookup_Some _ _ _ fr Hc). unfold frame_creation.
    destruct (ck_created fr) eqn:Hcr.
    + split_and!; [by rewrite list_insert_id| |apply same_session_refl].
      unfold released. by destruct (ck_returned fr).
    + set (fr1 := with_result _ (creation_settled fr)).
      destruct (ck_returned fr) eqn:Hr; destruct (ck_observed fr) eqn:Ho.
      * destruct (rewritten_then_raced c
                    (issue (unlink (ck_healthCheckPath fr)) st) fr fr1)
          as (H1 & H2 & H3); done.
      * split_and!; [done| |by repeat split].
        unfold released. simpl. by rewrite Hr.
      * by apply rewritten_then_raced.
      * by apply rewritten_only.
  - split_and!; [|done|apply same_session_refl].
    symmetry. by apply alter_lookup_None.
Qed.

Lemma resolveHealthCheck_view c now st :
  checks (resolveHealthCheck c now st) = alter (frame_observation now) c (checks st)
  /\ registry (resolveHealthCheck c now st)
     = match checks st !! c with
       | Some fr => released fr (frame_observation now fr) (registry st)
       | None => registry st
       end
  /\ same_session st (resolveHealthCheck c now st).
Proof.
  unfold resolveHealthCheck.
  destruct (checks st !! c) as [fr|] eqn:Hc.
  - rewrite <- (alter_lookup_Some _ _ _ fr Hc). unfold frame_observation.
    destruct (ck_observed fr) eqn:Ho.
    + split_and!; [by rewrite list_insert_id| |apply same_session_refl].
      unfold released. by destruct (ck_returned fr).
    + destruct (ck_created fr) eqn:Hcr.
      * by apply rewritten_then_raced.
      * by apply rewritten_only.
  - split_and!; [|done|apply same_session_refl].
    symmetry. by apply alter_lookup_None.
Qed.

(** *** What a turn changes *)

Lemma step_All st now w i change :
  step st (now, All w i change)
  = match observed_check st (now, All w i change) with
    | Some c => resolveHealthCheck c now st
    | None =>
        if subscribed st w i
           && negb (startsWith (basename (relativePath change))
                               (healthCheckFilePrefix (_options (this st))))
        then onChange w change st
        else st
    end.
Proof.
  unfold step, observed_check, on_all, _handleHealthCheckObservation,
    is_add_or_change, registry; simpl.
  destruct (subscribed st w i); simpl; [|done].
  destruct (startsWith _ _); simpl; [|done].
  destruct (_ || _); simpl; [|done].
  by destruct (_ !! _).
Qed.

Lemma touch_elsewhere st turn c fr :
  target st turn <> Some c -> touch st turn c fr = fr.
Proof.
  unfold target, touch. destruct turn as [now []]; simpl; try done.
  - intros H. by rewrite decide_False.
  - intros H. rewrite decide_False; [done|congruence].
  - intros H. rewrite decide_False; [done|congruence].
Qed.

(** A turn that is not a call of [checkHealth] rewrites the frame of its
    target, releases the registry entry if that check returns, and
    leaves the other frames as they are. *)
Lemma step_checks st turn :
  (forall timeout, turn.2 <> CallCheckHealth timeout) ->
  (forall c, checks (step st turn) !! c = touch st turn c <$> checks st !! c)
  /\ registry (step st turn)
     = match target st turn with
       | Some c =>
           match checks st !! c with
           | Some fr => released fr (touch st turn c fr) (registry st)
           | None => registry st
           end
       | None => registry st
       end.
Proof.
  intros Hcall.
  destruct turn as [now input].
  destruct input as [construct|timeout|w i|w i change|w i|k pause|k failure|];
    try (by destruct (Hcall timeout)).
  - (* CallWatch *)
    assert (checks (watch construct st) = checks st
            /\ registry (watch construct st) = registry st) as [H1 H2].
    { unfold watch, all_fulfilled.
      destruct (create_all _ _ _ _ _) as [made [e|]]; simpl; [done|].
      destruct (_ !! _) as [wf|]; simpl; [|done].
      destruct (wf_promise wf); simpl; [done|].
      by destruct (forallb _ _). }
    change (step st (now, CallWatch construct)) with (watch construct st).
    rewrite H1, H2. split; [|done].
    intros c. by destruct (checks st !! c).
  - (* Ready *)
    assert (checks (on_ready w i st) = checks st
            /\ registry (on_ready w i st) = registry st) as [H1 H2].
    { unfold on_ready, all_fulfilled.
      destruct (root_at st w i) as [rw|]; [|done].
      destruct (rw_subscribed rw); [done|].
      destruct (_ !! _) as [wf|]; simpl; [|done].
      destruct (wf_promise wf); simpl; [done|].
      by destruct (forallb _ _). }
    change (step st (now, Ready w i)) with (on_ready w i st).
    rewrite H1, H2. split; [|done].
    intros c. by destruct (checks st !! c).
  - (* All *)
    rewrite step_All. unfold target, touch. simpl.
    destruct (observed_check st (now, All w i change)) as [k|] eqn:Hk.
    + destruct (resolveHealthCheck_view k now st) as (H1 & H2 & _).
      rewrite H1, H2. split.
      * intros c. destruct (decide (k = c)) as [->|Hne].
        -- rewrite list_lookup_alter_eq.
           destruct (checks st !! c); simpl; [|done]. by rewrite decide_True.
        -- rewrite list_lookup_alter_ne by done.
           destruct (checks st !! c); simpl; [|done].
           rewrite decide_False by congruence. done.
      * destruct (checks st !! k); [|done]. by rewrite decide_True.
    + split; [|by destruct (_ && _)].
      intros c.
      assert (checks (if subscribed st w i
                         && negb (startsWith (basename (relativePath change))
                                    (healthCheckFilePrefix (_options (this st))))
                      then onChange w change st else st) = checks st) as ->
        by (by destruct (_ && _)).
      by destruct (checks st !! c).
  - (* StartupTimeout *)
    assert (checks (on_rejectTimeout w i st) = checks st
            /\ registry (on_rejectTimeout w i st) = registry st) as [H1 H2].
    { unfold on_rejectTimeout, one_rejected.
      destruct (root_at st w i) as [rw|]; [|done].
      destruct (rw_rejectTimeout rw); [|done].
      destruct (rw_promise rw); [done|].
      destruct (_ !! _) as [wf|]; simpl; [|done].
      by destruct (wf_promise wf). }
    change (step st (now, StartupTimeout w i)) with (on_rejectTimeout w i st).
    rewrite H1, H2. split; [|done].
    intros c. by destruct (checks st !! c).
  - (* HealthTimeout *)
    destruct (on_timeout_view k pause st) as (H1 & H2 & _).
    change (step st (now, HealthTimeout k pause)) with (on_timeout k pause st).
    unfold target, touch; simpl. rewrite H1, H2. split.
    + intros c. destruct (decide (k = c)) as [->|Hne].
      * apply list_lookup_alter_eq.
      * rewrite list_lookup_alter_ne by done. by destruct (checks st !! c).
    + destruct (checks st !! k); [|done]. by rewrite decide_True.
  - (* WriteFileSettled *)
    destruct (on_creation_view k failure st) as (H1 & H2 & _).
    change (step st (now, WriteFileSettled k failure)) with (on_creation k failure st).
    unfold target, touch; simpl. rewrite H1, H2. split.
    + intros c. destruct (decide (k = c)) as [->|Hne].
      * apply list_lookup_alter_eq.
      * rewrite list_lookup_alter_ne by done. by destruct (checks st !! c).
    + destruct (checks st !! k); [|done]. by rewrite decide_True.
  - (* CloseSettled *)
    simpl. split; [|done]. intros c. by destruct (checks st !! c).
Qed.

Lemma step_checkHealth st now timeout :
  checks (step st (now, CallCheckHealth timeout))
  = checks st ++ [opened st timeout now]
  /\ registry (step st (now, CallCheckHealth timeout))
     = <[ck_basename (opened st timeout now) := length (checks st)]> (registry st).
Proof. done. Qed.

(** *** One frame *)

Lemma finish_statics fr : statics (finish fr) = statics fr.
Proof. unfold finish. by destruct (ck_returned fr). Qed.

Lemma touch_statics st turn c fr : statics (touch st turn c fr) = statics fr.
Proof.
  unfold touch, frame_timeout, frame_creation, frame_observation.
  destruct turn as [now []]; simpl; try done; case_decide; try done.
  - destruct (ck_observed fr); [done|].
    destruct (ck_created fr); [|done]. by rewrite finish_statics.
  - destruct (ck_timer fr); [|done]. by rewrite finish_statics.
  - destruct (ck_created fr); [done|].
    destruct (ck_observed fr); [|done]. by rewrite finish_statics.
Qed.

Lemma touch_basename st turn c fr :
  ck_basename (touch st turn c fr) = ck_basename fr.
Proof. pose proof (touch_statics st turn c fr) as H. by injection H. Qed.

Lemma finish_result fr : ck_result (finish fr) = ck_result fr.
Proof. unfold finish. by destruct (ck_returned fr). Qed.

Lemma sound_finish fr :
  is_Some (ck_result fr) ->
  (forall v, ck_returned fr = Some v ->
     exists r, ck_result fr = Some r /\ v = Returns r) ->
  sound (finish fr).
Proof.
  intros [r Hr] Hret. unfold finish.
  destruct (ck_returned fr) as [v|] eqn:Hv.
  - split_and!; [by rewrite Hr| by rewrite Hv |by rewrite Hv].
  - split_and!; simpl; [by rewrite Hr| |done].
    intros v [= <-]. exists r. by rewrite Hr.
Qed.

Lemma sound_opened st timeout now : sound (opened st timeout now).
Proof. split_and!; simpl; try done; by eauto. Qed.

Lemma set_once_is_Some r slot : is_Some (set_once r slot).
Proof. destruct slot; simpl; eauto. Qed.

Lemma sound_touch st turn c fr : sound fr -> sound (touch st turn c fr).
Proof.
  intros Hsound. pose proof Hsound as (H1 & H2 & H3).
  unfold touch, frame_timeout, frame_creation, frame_observation.
  destruct turn as [now []]; simpl; try done; case_decide; try done.
  - (* an observation *)
    destruct (ck_observed fr) eqn:Ho; [done|].
    destruct (ck_created fr) eqn:Hc.
    + apply sound_finish; simpl; [apply set_once_is_Some|].
      intros v Hv. destruct (H2 v Hv) as (r & Hr & ->).
      exists r. by rewrite Hr.
    + split_and!; simpl.
      * intros Hn. by destruct (set_once_is_Some
                                  (success (ck_timeout fr) (now - ck_startTime fr)
                                           (ck_watcher fr)) (ck_result fr))
          as [? Hs]; rewrite Hs in Hn.
      * intros v Hv. destruct (H2 v Hv) as (r & Hr & ->).
        exists r. by rewrite Hr.
      * intros Hv. rewrite Hc. split; [by apply H3|done].
  - (* the timer *)
    destruct (ck_timer fr) eqn:Ht; [|done].
    apply sound_finish; simpl; [apply set_once_is_Some|].
    intros v Hv. destruct (H2 v Hv) as (r & Hr & ->).
    exists r. by rewrite Hr.
  - (* the write *)
    destruct (ck_created fr) eqn:Hc; [done|].
    destruct (ck_observed fr) eqn:Ho.
    + apply sound_finish; simpl.
      * destruct (ck_result fr) as [r|] eqn:Hr.
        -- destruct failure; simpl; eauto.
        -- destruct (H1 eq_refl) as (_ & ? & _). congruence.
      * intros v Hv. destruct (H2 v Hv) as (r & Hr & ->).
        exists r. destruct failure; simpl; by rewrite Hr.
    + split_and!; simpl.
      * intros Hn. rewrite Ho. destruct failure as [e|]; simpl in Hn.
        -- by destruct (set_once_is_Some
                          (error_ (ck_timeout fr) e (ck_watcher fr)) (ck_result fr))
             as [? Hs]; rewrite Hs in Hn.
        -- destruct (H1 Hn) as (? & ? & ?). done.
      * intros v Hv. destruct (H2 v Hv) as (r & Hr & ->).
        exists r. destruct failure; simpl; by rewrite Hr.
      * intros Hv. rewrite Ho. split; [by apply H3|done].
Qed.

(** *** Invariants of a session *)

Lemma same_session_config st st' :
  same_session st st' ->
  config st' = config st
  /\ _nextHealthCheckId (this st') = _nextHealthCheckId (this st).
Proof.
  unfold same_session, config. intros (?&?&?&?&?&?&?&?).
  split; [|done]. congruence.
Qed.

Lemma step_fixed st turn :
  config (step st turn) = config st
  /\ ((forall timeout, turn.2 <> CallCheckHealth timeout) ->
      _nextHealthCheckId (this (step st turn)) = _nextHealthCheckId (this st)).
Proof.
  destruct turn as [now input].
  destruct input as [construct|timeout|w i|w i change|w i|k pause|k failure|].
  - change (step st (now, CallWatch construct)) with (watch construct st).
    unfold watch, all_fulfilled.
    destruct (create_all _ _ _ _ _) as [made [e|]]; simpl; [done|].
    destruct (_ !! _) as [wf|]; simpl; [|done].
    destruct (wf_promise wf); simpl; [done|].
    by destruct (forallb _ _).
  - split; [done|]. intros H. by destruct (H timeout).
  - change (step st (now, Ready w i)) with (on_ready w i st).
    unfold on_ready, all_fulfilled.
    destruct (root_at st w i) as [rw|]; [|done].
    destruct (rw_subscribed rw); [done|].
    destruct (_ !! _) as [wf|]; simpl; [|done].
    destruct (wf_promise wf); simpl; [done|].
    by destruct (forallb _ _).
  - rewrite step_All.
    destruct (observed_check _ _) as [c|].
    + destruct (resolveHealthCheck_view c now st) as (_ & _ & H).
      apply same_session_config in H as [? ?]. done.
    + by destruct (_ && _).
  - change (step st (now, StartupTimeout w i)) with (on_rejectTimeout w i st).
    unfold on_rejectTimeout, one_rejected.
    destruct (root_at st w i) as [rw|]; [|done].
    destruct (rw_rejectTimeout rw); [|done].
    destruct (rw_promise rw); [done|].
    destruct (_ !! _) as [wf|]; simpl; [|done].
    by destruct (wf_promise wf).
  - destruct (on_timeout_view k pause st) as (_ & _ & H).
    apply same_session_config in H as [? ?]. done.
  - destruct (on_creation_view k failure st) as (_ & _ & H).
    apply same_session_config in H as [? ?]. done.
  - done.
Qed.

Lemma run_snoc st turns turn : run st (turns ++ [turn]) = step (run st turns) turn.
Proof. unfold run. by rewrite fold_left_app. Qed.

Lemma run_cons st turn turns : run st (turn :: turns) = run (step st turn) turns.
Proof. done. Qed.

(** A turn either is a call of [checkHealth] or is not. *)
Lemma call_or_not (turn : Z * Input) :
  (exists timeout, turn.2 = CallCheckHealth timeout)
  \/ forall timeout, turn.2 <> CallCheckHealth timeout.
Proof. destruct turn as [now []]; simpl; eauto; right; done. Qed.

Lemma all_sound_step st turn : all_sound st -> all_sound (step st turn).
Proof.
  intros Hs c fr Hc.
  destruct (call_or_not turn) as [[timeout Ht]|Hn].
  - destruct turn as [now input]; simpl in Ht; subst input.
    destruct (step_checkHealth st now timeout) as [H1 _]. rewrite H1 in Hc.
    apply lookup_app_Some in Hc as [Hc|[_ Hc]]; [by eapply Hs|].
    apply list_lookup_singleton_Some in Hc as [_ <-]. apply sound_opened.
  - destruct (step_checks st turn Hn) as [H1 _]. rewrite H1 in Hc.
    destruct (checks st !! c) as [fr0|] eqn:Hc0; simplify_eq/=.
    apply sound_touch. by eapply Hs.
Qed.

Lemma registered_step st turn : registered st -> registered (step st turn).
Proof.
  intros Hr b k Hb.
  destruct (call_or_not turn) as [[timeout Ht]|Hn].
  - destruct turn as [now input]; simpl in Ht; subst input.
    destruct (step_checkHealth st now timeout) as [H1 H2].
    rewrite H2 in Hb. rewrite H1.
    destruct (decide (ck_basename (opened st timeout now) = b)) as [<-|Hne].
    + rewrite lookup_insert_eq in Hb. injection Hb as <-.
      exists (opened st timeout now). split_and!; try done.
      rewrite lookup_app_r by done. by rewrite Nat.sub_diag.
    + rewrite lookup_insert_ne in Hb by done.
      destruct (Hr b k Hb) as (fr & Hk & Hbn & Hret).
      exists fr. split_and!; try done. by apply lookup_app_l_Some.
  - destruct (step_checks st turn Hn) as [H1 H2]. rewrite H2 in Hb.
    assert (registry st !! b = Some k
            /\ forall c fr, target st turn = Some c -> checks st !! c = Some fr ->
                 ck_basename fr = b ->
                 ck_returned fr = None -> ck_returned (touch st turn c fr) = None)
      as [Hb0 Hkeep].
    { destruct (target st turn) as [c|] eqn:Ht; [|done].
      destruct (checks st !! c) as [fr|] eqn:Hc;
        [|split; [done|]; intros ?? [= <-] ?; congruence].
      unfold released in Hb.
      destruct (ck_returned fr) eqn:Hret0.
      { split; [done|]. intros c' fr0 [= <-] Hc0 _ Hret. congruence. }
      destruct (ck_returned (touch st turn c fr)) eqn:Hret1.
      - destruct (decide (ck_basename fr = b)) as [Heq|Hne].
        + rewrite <- Heq in Hb. by rewrite lookup_delete_eq in Hb.
        + rewrite lookup_delete_ne in Hb by done. split; [done|].
          intros c' fr0 [= <-] Hc0 Hbb _. congruence.
      - split; [done|]. intros c' fr0 [= <-] Hc0 _ _. congruence. }
    destruct (Hr b k Hb0) as (fr & Hk & Hbn & Hret).
    exists (touch st turn k fr). rewrite H1, Hk. split_and!; [done| |].
    + by rewrite touch_basename.
    + destruct (decide (target st turn = Some k)) as [Ht|Ht].
      * by eapply Hkeep.
      * by rewrite touch_elsewhere.
Qed.

Lemma length_pointwise {A} (f : nat -> A -> A) (l l' : list A) :
  (forall i, l' !! i = f i <$> l !! i) -> length l' = length l.
Proof.
  intros H. apply Nat.le_antisymm; apply Nat.nlt_ge; intros Hlt.
  - apply lookup_lt_is_Some_2 in Hlt as [x Hx].
    specialize (H (length l)). rewrite Hx in H.
    by rewrite (lookup_ge_None_2 l (length l)) in H.
  - apply lookup_lt_is_Some_2 in Hlt as [x Hx].
    specialize (H (length l')). rewrite Hx in H.
    by rewrite (lookup_ge_None_2 l' (length l')) in H.
Qed.

Lemma step_length st turn :
  (forall timeout, turn.2 <> CallCheckHealth timeout) ->
  length (checks (step st turn)) = length (checks st).
Proof.
  intros Hn. destruct (step_checks st turn Hn) as [H1 _].
  by apply (length_pointwise (touch st turn)).
Qed.

Lemma succ_mod (n M : Z) :
  0 < M ->
  (n + 1) mod M = if n mod M =? M - 1 then 0 else n mod M + 1.
Proof.
  intros HM. pose proof (Z.mod_pos_bound n M HM) as Hb.
  pose proof (Z.div_mod n M ltac:(lia)) as Hd.
  destruct (n mod M =? M - 1) eqn:E.
  - apply Z.eqb_eq in E. symmetry.
    apply (Z.mod_unique_pos _ _ (n / M + 1)); lia.
  - apply Z.eqb_neq in E. symmetry.
    apply (Z.mod_unique_pos _ _ (n / M)); lia.
Qed.

Lemma numbered_step st turn : numbered st -> numbered (step st turn).
Proof.
  intros [Hnext Hall]. unfold numbered.
  pose proof (step_fixed st turn) as [Hcfg Hsame].
  assert (_options (this (step st turn)) = _options (this st)
          /\ pid (step st turn) = pid st
          /\ _instanceId (this (step st turn)) = _instanceId (this st))
    as (-> & -> & ->) by (unfold config in Hcfg; by simplify_eq).
  destruct (call_or_not turn) as [[timeout Ht]|Hn].
  - destruct turn as [now input]; simpl in Ht; subst input.
    destruct (step_checkHealth st now timeout) as [H1 _]. rewrite H1.
    split.
    + rewrite length_app, Nat2Z.inj_add. simpl length.
      change (Z.of_nat 1) with 1.
      rewrite succ_mod by done. rewrite <- Hnext.
      change (MAX_SAFE_INTEGER + 1 - 1) with MAX_SAFE_INTEGER. done.
    + intros k fr Hk.
      apply lookup_app_Some in Hk as [Hk|[Hge Hk]]; [by apply Hall|].
      apply list_lookup_singleton_Some in Hk as [Hz <-]. simpl.
      split; [|done]. rewrite Hnext. f_equal. lia.
  - rewrite (Hsame Hn), (step_length st turn Hn). split; [done|].
    destruct (step_checks st turn Hn) as [H1 _].
    intros k fr Hk. rewrite H1 in Hk.
    destruct (checks st !! k) as [fr0|] eqn:Hk0; simplify_eq/=.
    pose proof (touch_statics st turn k fr0) as Hst. unfold statics in Hst.
    injection Hst as -> _ _ -> _ _. by apply Hall.
Qed.

(** The invariants together. *)
Lemma start_invariants options nextInstanceId process_pid supported :
  let st := start options nextInstanceId process_pid supported in
  all_sound st /\ registered st /\ numbered st.
Proof.
  split_and!.
  - intros c fr H. simpl in H. by rewrite lookup_nil in H.
  - intros b k H. unfold registry in H. simpl in H. by rewrite lookup_empty in H.
  - split; [done|]. intros k fr H. simpl in H. by rewrite lookup_nil in H.
Qed.

Lemma run_invariants st turns :
  all_sound st /\ registered st /\ numbered st ->
  all_sound (run st turns) /\ registered (run st turns) /\ numbered (run st turns).
Proof.
  revert st; induction turns as [|turn turns IH]; intros st (H1 & H2 & H3); [done|].
  rewrite run_cons. apply IH.
  split_and!; [by apply all_sound_step|by apply registered_step|by apply numbered_step].
Qed.

(** *** Frames stay *)

Lemma later_refl fr : later fr fr.
Proof. by split_and!. Qed.

Lemma later_trans fr1 fr2 fr3 : later fr1 fr2 -> later fr2 fr3 -> later fr1 fr3.
Proof.
  intros (H1 & H2 & H3 & H4) (H1' & H2' & H3' & H4').
  split_and!; [congruence|eauto..].
Qed.

Lemma finish_later fr : later fr (finish fr).
Proof.
  unfold finish. destruct (ck_returned fr) eqn:Hr; [apply later_refl|].
  split_and!; simpl; try done. intros v Hv. congruence.
Qed.

Lemma touch_later st turn c fr : later fr (touch st turn c fr).
Proof.
  unfold touch, frame_timeout, frame_creation, frame_observation.
  destruct turn as [now []]; simpl; try apply later_refl;
    case_decide; try apply later_refl.
  - destruct (ck_observed fr); [apply later_refl|].
    set (fr1 := with_result _ (observation_settled fr)).
    assert (later fr fr1) as Hl.
    { split_and!; simpl; try done. by intros r ->. }
    destruct (ck_created fr); [|done].
    eapply later_trans; [exact Hl|apply finish_later].
  - destruct (ck_timer fr); [|apply later_refl].
    set (fr1 := with_result _ (timer_fired fr)).
    assert (later fr fr1) as Hl.
    { split_and!; simpl; try done. by intros r ->. }
    eapply later_trans; [exact Hl|apply finish_later].
  - destruct (ck_created fr); [apply later_refl|].
    set (fr1 := with_result _ (creation_settled fr)).
    assert (later fr fr1) as Hl.
    { split_and!; simpl; try done. intros r ->. by destruct failure. }
    destruct (ck_observed fr); [|done].
    eapply later_trans; [exact Hl|apply finish_later].
Qed.

Lemma step_frame_kept st turn c fr :
  checks st !! c = Some fr ->
  exists fr', checks (step st turn) !! c = Some fr' /\ later fr fr'.
Proof.
  intros Hc. destruct (call_or_not turn) as [[timeout Ht]|Hn].
  - destruct turn as [now input]; simpl in Ht; subst input.
    destruct (step_checkHealth st now timeout) as [H1 _]. rewrite H1.
    exists fr. split; [by apply lookup_app_l_Some|apply later_refl].
  - destruct (step_checks st turn Hn) as [H1 _]. rewrite H1, Hc.
    exists (touch st turn c fr). split; [done|apply touch_later].
Qed.

Lemma run_frame_kept st turns c fr :
  checks st !! c = Some fr ->
  exists fr', checks (run st turns) !! c = Some fr' /\ later fr fr'.
Proof.
  revert st fr; induction turns as [|turn turns IH]; intros st fr Hc.
  - exists fr. split; [done|apply later_refl].
  - rewrite run_cons.
    destruct (step_frame_kept st turn c fr Hc) as (fr1 & Hc1 & Hl1).
    destruct (IH _ _ Hc1) as (fr2 & Hc2 & Hl2).
    exists fr2. split; [done|]. by eapply later_trans.
Qed.

Lemma later_basename fr fr' : later fr fr' -> ck_basename fr' = ck_basename fr.
Proof. intros [H _]. unfold statics in H. by injection H. Qed.

Lemma reachable_invariants st :
  reachable st -> all_sound st /\ registered st /\ numbered st.
Proof.
  intros (options & inst & p & sup & turns & ->).
  apply run_invariants, start_invariants.
Qed.

Lemma reachable_step st turn : reachable st -> reachable (step st turn).
Proof.
  intros (options & inst & p & sup & turns & ->).
  exists options, inst, p, sup, (turns ++ [turn]). by rewrite run_snoc.
Qed.

Lemma reachable_run st turns : reachable st -> reachable (run st turns).
Proof.
  revert st; induction turns as [|turn turns IH]; intros st H; [done|].
  rewrite run_cons. by apply IH, reachable_step.
Qed.

(** *** The listener of backend events and the result slot *)

(** C10: an observation of a basename that has no entry in the registry
    changes nothing: the handler returns the state it was given, with the
    registry and every check as they were, and so does the whole turn of
    a backend event whose path has such a basename starting with the
    health-check prefix, whatever its kind. *)
Theorem stray_observation_changes_nothing
    (st : State) (basename_ : string) (now : Z) :
  _pendingHealthChecks (this st) !! basename_ = None ->
  _handleHealthCheckObservation basename_ now st = st
  /\ forall w i change,
      basename (relativePath change) = basename_ ->
      startsWith basename_ (healthCheckFilePrefix (_options (this st))) = true ->
      step st (now, All w i change) = st.
Proof.
  intros Hnone.
  assert (_handleHealthCheckObservation basename_ now st = st) as Hh.
  { unfold _handleHealthCheckObservation. by rewrite Hnone. }
  split; [done|].
  intros w i change Hb Hp. unfold step; simpl.
  destruct (subscribed st w i); [|done].
  unfold on_all. rewrite Hb, Hp, Hh. by destruct (_ || _).
Qed.

Lemma stray_observation_changes_nothing_witness :
  _pendingHealthChecks (this (run Demo.session Demo.checking)) !! Demo.foreign_cookie
  = None
  /\ step (run Demo.session Demo.checking)
          (11, All 0%nat 0%nat (Demo.seen "add" Demo.foreign_cookie))
     = run Demo.session Demo.checking.
Proof.
  assert (_pendingHealthChecks (this (run Demo.session Demo.checking))
          !! Demo.foreign_cookie = None) as H by (vm_compute; reflexivity).
  split; [exact H|].
  apply (proj2 (stray_observation_changes_nothing _ Demo.foreign_cookie 11 H));
    reflexivity.
Defined.

Lemma subscribed_frame st w i :
  subscribed st w i = true -> is_Some (watching st !! w).
Proof.
  unfold subscribed, root_at. destruct (watching st !! w); [by eauto|done].
Qed.

(** C2, as the code has it: an event of a ready backend whose basename
    starts with the health-check prefix is never passed to [onChange];
    with kind [add] or [change] it goes to the observation handler, with
    any other kind it is dropped and the state stays as it is.  Every
    event whose basename does not start with the prefix is passed to
    [onChange] of that activation as it is, and nothing else changes. *)
Theorem health_check_events_are_kept_from_onChange
    (st : State) (w i : nat) (change : WatcherBackendChangeEvent) (now : Z) :
  subscribed st w i = true ->
  let basename_ := basename (relativePath change) in
  let st' := step st (now, All w i change) in
  if startsWith basename_ (healthCheckFilePrefix (_options (this st))) then
    watching st' = watching st
    /\ st' = (if is_add_or_change (event change)
              then _handleHealthCheckObservation basename_ now st
              else st)
  else
    exists wf,
      watching st !! w = Some wf
      /\ watching st'
         = <[w := {| wf_roots := wf_roots wf;
                     wf_onChange := wf_onChange wf ++ [change];
                     wf_promise := wf_promise wf |}]> (watching st)
      /\ checks st' = checks st /\ this st' = this st /\ fsOps st' = fsOps st.
Proof.
  intros Hsub basename_ st'.
  assert (st' = on_all w change now st) as ->.
  { subst st'. unfold step; simpl. by rewrite Hsub. }
  unfold on_all. fold basename_.
  destruct (startsWith basename_ _) eqn:Hp.
  - fold (is_add_or_change (event change)).
    split; [|done].
    destruct (is_add_or_change (event change)); [|done].
    unfold _handleHealthCheckObservation.
    destruct (_ !! _) as [c|]; [|done].
    by destruct (resolveHealthCheck_view c now st) as (_ & _ & -> & _).
  - destruct (subscribed_frame st w i Hsub) as [wf Hwf].
    exists wf. split_and!; try done.
    unfold onChange; simpl. by rewrite <- (alter_lookup_Some _ _ _ wf Hwf).
Qed.

Lemma health_check_events_are_kept_from_onChange_witness :
  subscribed (run Demo.session Demo.checking) 0 0 = true
  /\ watching (step (run Demo.session Demo.checking)
                    (30, All 0%nat 0%nat (Demo.seen "delete" Demo.cookie0)))
     = watching (run Demo.session Demo.checking).
Proof.
  split; [reflexivity|].
  exact (proj1 (health_check_events_are_kept_from_onChange
                  (run Demo.session Demo.checking) 0 0
                  (Demo.seen "delete" Demo.cookie0) 30 eq_refl)).
Defined.

(** C2 as it is stated fails: the event that reports the deletion of a
    cookie has a kind other than [add] and [change], and it is not passed
    to [onChange]. *)
Lemma cookie_deletion_is_not_forwarded :
  ~ (forall st w i change now,
        subscribed st w i = true ->
        startsWith (basename (relativePath change))
                   (healthCheckFilePrefix (_options (this st)))
        && is_add_or_change (event change) = false ->
        step st (now, All w i change) = onChange w change st).
Proof.
  intros H.
  specialize (H (run Demo.session Demo.checking) 0%nat 0%nat
                (Demo.seen "delete" Demo.cookie0) 30 eq_refl eq_refl).
  apply (f_equal delivered) in H. vm_compute in H. discriminate.
Qed.

(** C5: the slot of a check is assigned once.  Once a result is in the
    slot of a check, it is there after every further run, whichever
    callbacks of the check run later, and it is the value that the call
    returns, if it has returned; a call that has returned a value keeps
    it. *)
Theorem result_slot_is_single_assignment
    (st : State) (turns : list (Z * Input)) (c : nat) (fr : CheckFrame)
    (r : HealthCheckResult) :
  reachable st ->
  checks st !! c = Some fr ->
  ck_result fr = Some r ->
  exists fr',
    checks (run st turns) !! c = Some fr'
    /\ ck_result fr' = Some r
    /\ (forall v, ck_returned fr' = Some v -> v = Returns r)
    /\ (forall v, ck_returned fr = Some v -> ck_returned fr' = Some v).
Proof.
  intros Hreach Hc Hr.
  destruct (run_frame_kept st turns c fr Hc) as (fr' & Hc' & _ & Hres & Hret & _).
  exists fr'. split_and!; [done|by apply Hres| |done].
  intros v Hv.
  destruct (reachable_invariants _ (reachable_run st turns Hreach)) as (Hs & _ & _).
  destruct (Hs c fr' Hc') as (_ & H2 & _).
  destruct (H2 v Hv) as (r' & Hr' & ->).
  rewrite (Hres r Hr) in Hr'. congruence.
Qed.

Lemma demo_reachable turns : reachable (run Demo.session turns).
Proof. by exists Demo.options, 7, 4242, false, turns. Qed.

Lemma result_slot_is_single_assignment_witness :
  exists fr fr',
    checks (run Demo.session Demo.observed_first) !! 0%nat = Some fr
    /\ ck_result fr = Some (success 1000 2 (Some "watchman"))
    /\ checks (run (run Demo.session Demo.observed_first) Demo.the_rest) !! 0%nat
       = Some fr'
    /\ ck_result fr' = Some (success 1000 2 (Some "watchman")).
Proof.
  assert (exists fr, checks (run Demo.session Demo.observed_first) !! 0%nat = Some fr
                     /\ ck_result fr = Some (success 1000 2 (Some "watchman")))
    as (fr & Hc & Hr) by (eexists; split; vm_compute; reflexivity).
  destruct (result_slot_is_single_assignment
              (run Demo.session Demo.observed_first) Demo.the_rest 0 fr
              (success 1000 2 (Some "watchman"))
              (demo_reachable _) Hc Hr) as (fr' & Hc' & Hr' & _).
  by exists fr, fr'.
Defined.

(** *** Identifiers and basenames *)

Lemma cookie_inj prefix_ process_pid instanceId id1 id2 :
  cookie prefix_ process_pid instanceId id1 = cookie prefix_ process_pid instanceId id2 ->
  id1 = id2.
Proof.
  unfold cookie. intros H.
  repeat (apply String.app_inj in H). by apply pretty_Z_inj in H.
Qed.

Lemma mod_distinct (a b M : Z) :
  0 < M -> a < b -> b - a < M -> a mod M <> b mod M.
Proof.
  intros HM Hab Hlt Heq.
  pose proof (Z.div_mod a M ltac:(lia)) as Ha.
  pose proof (Z.div_mod b M ltac:(lia)) as Hb.
  assert (b - a = M * (b / M - a / M)) as Hd by lia.
  assert (0 < b / M - a / M) by nia.
  nia.
Qed.

(** C8: in a session, the identifier of a check lies between 0 and
    [Number.MAX_SAFE_INTEGER]; the next check has the identifier one
    greater, and the identifier 0 when this one is
    [Number.MAX_SAFE_INTEGER].  Hence among [MAX_SAFE_INTEGER + 1]
    successive checks no two have the same identifier or the same cookie
    basename, also across the wrap.  A call of [checkHealth] always opens
    its check, with the current identifier, and moves the counter on. *)
Theorem health_check_ids_wrap_without_collision (st : State) :
  reachable st ->
  (forall k fr, checks st !! k = Some fr ->
     0 <= ck_healthCheckId fr <= MAX_SAFE_INTEGER
     /\ forall fr', checks st !! S k = Some fr' ->
          ck_healthCheckId fr'
          = if ck_healthCheckId fr =? MAX_SAFE_INTEGER then 0
            else ck_healthCheckId fr + 1)
  /\ (forall k k' fr fr',
        checks st !! k = Some fr -> checks st !! k' = Some fr' ->
        (k < k')%nat -> Z.of_nat k' - Z.of_nat k <= MAX_SAFE_INTEGER ->
        ck_healthCheckId fr <> ck_healthCheckId fr'
        /\ ck_basename fr <> ck_basename fr')
  /\ (forall now timeout,
        let st' := step st (now, CallCheckHealth timeout) in
        let healthCheckId := _nextHealthCheckId (this st) in
        exists fr,
          checks st' !! length (checks st) = Some fr
          /\ ck_healthCheckId fr = healthCheckId
          /\ ck_returned fr = None
          /\ _nextHealthCheckId (this st')
             = if healthCheckId =? MAX_SAFE_INTEGER then 0 else healthCheckId + 1).
Proof.
  intros Hreach.
  destruct (reachable_invariants st Hreach) as (_ & _ & Hnext & Hall).
  assert (0 < MAX_SAFE_INTEGER + 1) as HM by done.
  split_and!.
  - intros k fr Hk. destruct (Hall k fr Hk) as [Hid _]. split.
    + pose proof (Z.mod_pos_bound (Z.of_nat k) _ HM). lia.
    + intros fr' Hk'. destruct (Hall (S k) fr' Hk') as [Hid' _].
      rewrite Hid', Hid, Nat2Z.inj_succ, <- Z.add_1_r.
      rewrite succ_mod by done.
      by change (MAX_SAFE_INTEGER + 1 - 1) with MAX_SAFE_INTEGER.
  - intros k k' fr fr' Hk Hk' Hlt Hwin.
    destruct (Hall k fr Hk) as [Hid Hb].
    destruct (Hall k' fr' Hk') as [Hid' Hb'].
    assert (ck_healthCheckId fr <> ck_healthCheckId fr') as Hne.
    { rewrite Hid, Hid'. apply mod_distinct; lia. }
    split; [done|]. rewrite Hb, Hb'. intros Heq. by apply cookie_inj in Heq.
  - intros now timeout st' healthCheckId.
    exists (opened st timeout now). split_and!; try done.
    subst st'. destruct (step_checkHealth st now timeout) as [-> _].
    rewrite lookup_app_r by done. by rewrite Nat.sub_diag.
Qed.

Lemma health_check_ids_wrap_without_collision_witness :
  exists fr fr',
    checks (run Demo.session Demo.two_checks) !! 0%nat = Some fr
    /\ checks (run Demo.session Demo.two_checks) !! 1%nat = Some fr'
    /\ ck_healthCheckId fr' = ck_healthCheckId fr + 1
    /\ ck_basename fr <> ck_basename fr'.
Proof.
  pose proof (health_check_ids_wrap_without_collision
                (run Demo.session Demo.two_checks)
                (ex_intro _ Demo.options (ex_intro _ 7 (ex_intro _ 4242
                   (ex_intro _ false (ex_intro _ Demo.two_checks eq_refl))))))
    as (Hnext & Hwin & _).
  assert (exists fr fr',
            checks (run Demo.session Demo.two_checks) !! 0%nat = Some fr
            /\ checks (run Demo.session Demo.two_checks) !! 1%nat = Some fr'
            /\ ck_healthCheckId fr = 0)
    as (fr & fr' & H0 & H1 & Hid)
    by (eexists _, _; split_and!; vm_compute; reflexivity).
  exists fr, fr'. split_and!; try done.
  - rewrite (proj2 (Hnext 0%nat fr H0) fr' H1), Hid. reflexivity.
  - apply (Hwin 0%nat 1%nat fr fr' H0 H1); [lia|done].
Defined.

(** *** The registry *)

Lemma returning_releases st turn c fr fr' :
  checks st !! c = Some fr -> ck_returned fr = None ->
  checks (step st turn) !! c = Some fr' -> is_Some (ck_returned fr') ->
  registry (step st turn) !! ck_basename fr = None.
Proof.
  intros Hc Hret Hc' [v Hv].
  destruct (call_or_not turn) as [[timeout Ht]|Hn].
  - destruct turn as [now input]; simpl in Ht; subst input.
    destruct (step_checkHealth st now timeout) as [H1 _]. rewrite H1 in Hc'.
    rewrite (lookup_app_l_Some _ _ _ _ Hc) in Hc'. congruence.
  - destruct (step_checks st turn Hn) as [H1 H2].
    rewrite H1, Hc in Hc'. injection Hc' as <-.
    destruct (decide (target st turn = Some c)) as [Ht|Ht].
    + rewrite H2, Ht, Hc. unfold released. rewrite Hret, Hv.
      apply lookup_delete_eq.
    + rewrite touch_elsewhere in Hv by done. congruence.
Qed.

Lemma other_checks_untouched st turn c2 fr2 :
  checks st !! c2 = Some fr2 ->
  (forall c1 b1, concerns st turn = Some (c1, b1) ->
     c1 <> c2 /\ b1 <> ck_basename fr2) ->
  checks (step st turn) !! c2 = Some fr2
  /\ registry (step st turn) !! ck_basename fr2 = registry st !! ck_basename fr2.
Proof.
  intros Hc Hother.
  destruct (call_or_not turn) as [[timeout Ht]|Hn].
  - destruct turn as [now input]; simpl in Ht; subst input.
    destruct (step_checkHealth st now timeout) as [H1 H2]. rewrite H1, H2.
    split; [by apply lookup_app_l_Some|].
    destruct (Hother _ _ eq_refl) as [_ Hb].
    by rewrite lookup_insert_ne.
  - destruct (step_checks st turn Hn) as [H1 H2]. rewrite H1, H2, Hc.
    assert (concerns st turn
            = match target st turn with
              | Some c => match checks st !! c with
                          | Some fr => Some (c, ck_basename fr)
                          | None => None
                          end
              | None => None
              end) as Hcon.
    { unfold concerns. destruct turn as [now []]; try done.
      by destruct (Hn timeout). }
    rewrite Hcon in Hother.
    destruct (target st turn) as [c1|] eqn:Ht.
    + destruct (checks st !! c1) as [fr1|] eqn:Hc1.
      * destruct (Hother _ _ eq_refl) as [Hne Hb].
        change (touch st turn c2 <$> Some fr2) with (Some (touch st turn c2 fr2)).
        rewrite (touch_elsewhere st turn c2) by congruence. split; [done|].
        unfold released.
        destruct (ck_returned fr1); [done|].
        destruct (ck_returned (touch st turn c1 fr1)); [|done].
        by rewrite lookup_delete_ne.
      * change (touch st turn c2 <$> Some fr2) with (Some (touch st turn c2 fr2)).
        rewrite touch_elsewhere; [done|].
        intros Heq. rewrite Ht in Heq. injection Heq as ->. congruence.
    + change (touch st turn c2 <$> Some fr2) with (Some (touch st turn c2 fr2)).
      rewrite touch_elsewhere; [done|]. by rewrite Ht.
Qed.


(** *** The race *)

Lemma step_frame st turn c fr :
  checks st !! c = Some fr ->
  checks (step st turn) !! c = Some (touch st turn c fr).
Proof.
  intros Hc. destruct (call_or_not turn) as [[timeout Ht]|Hn].
  - destruct turn as [now input]; simpl in Ht; subst input.
    destruct (step_checkHealth st now timeout) as [H1 _]. rewrite H1.
    by apply lookup_app_l_Some.
  - destruct (step_checks st turn Hn) as [H1 _]. by rewrite H1, Hc.
Qed.

Lemma startsWith_append (p x : string) : startsWith (p +:+ x) p = true.
Proof.
  unfold startsWith. induction p as [|a p IH]; [by destruct x|].
  change (String a p +:+ x) with (String a (p +:+ x)). simpl.
  by destruct (ascii_dec a a).
Qed.

Lemma cookie_startsWith prefix_ process_pid instanceId healthCheckId :
  startsWith (cookie prefix_ process_pid instanceId healthCheckId) prefix_ = true.
Proof. apply startsWith_append. Qed.

(** While the slot of a check is empty, a turn fills it exactly when the
    specification says that the turn decides. *)
Lemma touch_undecided st turn rest c fr fr0 :
  registered st -> numbered st -> sound fr ->
  checks st !! c = Some fr ->
  statics fr = statics fr0 ->
  ck_result fr = None ->
  registry st !! ck_basename fr0 = Some c ->
  match ck_result (touch st turn c fr) with
  | Some r => Some r
  | None => verdict c fr0 (step st turn) (ck_created (touch st turn c fr)) rest
  end
  = verdict c fr0 st (ck_created fr) (turn :: rest).
Proof.
  intros Hreg Hnum (Hs1 & _ & _) Hc Hst Hres Hentry.
  destruct (Hs1 Hres) as ([t Htimer] & Hobs & Hret).
  unfold statics in Hst. injection Hst as Hid Hto Hw Hb Hp Hstart.
  destruct turn as [now input].
  destruct input as [construct|timeout|w i|w i change|w i|k pause|k failure|];
    unfold touch; simpl; try (by rewrite Hres).
  - (* a backend event *)
    destruct (subscribed st w i
              && String.eqb (basename (relativePath change)) (ck_basename fr0)
              && is_add_or_change (event change)) eqn:Hcond.
    + apply andb_prop in Hcond as [Hcond Hkind].
      apply andb_prop in Hcond as [Hsub Heq]. apply String.eqb_eq in Heq.
      assert (observed_check st (now, All w i change) = Some c) as Hoc.
      { unfold observed_check; simpl. rewrite Hsub, Hkind, Heq.
        destruct Hnum as [_ Hall]. destruct (Hall c fr Hc) as [_ Hcookie].
        rewrite <- Hb, Hcookie, cookie_startsWith. simpl.
        by rewrite <- Hcookie, Hb. }
      rewrite decide_True by done. unfold frame_observation. rewrite Hobs.
      destruct (ck_created fr); rewrite ?finish_result; simpl;
        rewrite Hres; simpl; congruence.
    + rewrite decide_False; [by rewrite Hres|].
      intros Hoc. unfold observed_check in Hoc; simpl in Hoc.
      destruct (subscribed st w i) eqn:Hsub; [|done].
      destruct (startsWith _ _); [|done].
      destruct (is_add_or_change (event change)) eqn:Hkind; [|done].
      simpl in Hoc. destruct (Hreg _ _ Hoc) as (fr' & Hc' & Hb' & _).
      rewrite Hc in Hc'. injection Hc' as <-.
      rewrite <- Hb' , Hb in Hcond. simpl in Hcond.
      by rewrite String.eqb_refl in Hcond.
  - (* the timer of a check *)
    case_decide; [|by rewrite Hres].
    unfold frame_timeout. rewrite Htimer, finish_result. simpl.
    rewrite Hres. simpl. congruence.
  - (* the write of a check *)
    case_decide; [|by rewrite Hres].
    unfold frame_creation. destruct (ck_created fr) eqn:Hcr; [by rewrite Hres, Hcr|].
    rewrite Hobs. simpl. rewrite Hres.
    destruct failure as [e|]; simpl; congruence.
Qed.

Lemma entry_kept st turn c fr :
  registered st ->
  checks st !! c = Some fr ->
  (ck_returned fr = None -> registry st !! ck_basename fr = Some c) ->
  (forall c' fr', c' <> c -> checks (step st turn) !! c' = Some fr' ->
     ck_basename fr' <> ck_basename fr) ->
  ck_returned (touch st turn c fr) = None ->
  registry (step st turn) !! ck_basename fr = Some c.
Proof.
  intros Hreg Hc Hentry Hfresh Hret1.
  assert (ck_returned fr = None) as Hret.
  { destruct (ck_returned fr) as [v|] eqn:Hv; [|done].
    destruct (touch_later st turn c fr) as (_ & _ & H & _).
    rewrite (H v Hv) in Hret1. done. }
  specialize (Hentry Hret).
  destruct (call_or_not turn) as [[timeout Ht]|Hn].
  - destruct turn as [now input]; simpl in Ht; subst input.
    destruct (step_checkHealth st now timeout) as [H1 H2]. rewrite H2.
    rewrite lookup_insert_ne; [done|].
    apply (Hfresh (length (checks st))).
    + apply lookup_lt_Some in Hc. lia.
    + rewrite H1, lookup_app_r by done. by rewrite Nat.sub_diag.
  - destruct (step_checks st turn Hn) as [H1 H2]. rewrite H2.
    destruct (target st turn) as [k|] eqn:Ht; [|done].
    destruct (checks st !! k) as [frk|] eqn:Hk; [|done].
    unfold released.
    destruct (ck_returned frk) eqn:Hretk; [done|].
    destruct (ck_returned (touch st turn k frk)) eqn:Hretk1; [|done].
    destruct (decide (k = c)) as [->|Hne].
    + rewrite Hc in Hk. injection Hk as <-. congruence.
    + rewrite lookup_delete_ne; [done|].
      rewrite <- (touch_basename st turn k frk).
      apply (Hfresh k); [done|]. by apply step_frame.
Qed.

Lemma verdict_decides turns : forall st c fr fr0,
  all_sound st -> registered st -> numbered st ->
  checks st !! c = Some fr ->
  statics fr = statics fr0 ->
  (ck_returned fr = None -> registry st !! ck_basename fr0 = Some c) ->
  (forall c' fr', c' <> c -> checks (run st turns) !! c' = Some fr' ->
     ck_basename fr' <> ck_basename fr0) ->
  exists fr_end,
    checks (run st turns) !! c = Some fr_end
    /\ later fr fr_end
    /\ ck_result fr_end
       = match ck_result fr with
         | Some r => Some r
         | None => verdict c fr0 st (ck_created fr) turns
         end.
Proof.
  induction turns as [|turn rest IH]; intros st c fr fr0 Hs Hreg Hnum Hc Hst Hentry Hfresh.
  - exists fr. split_and!; [done|apply later_refl|]. by destruct (ck_result fr).
  - rewrite run_cons in *.
    assert (ck_basename fr = ck_basename fr0) as Hb
      by (unfold statics in Hst; by injection Hst).
    pose proof (step_frame st turn c fr Hc) as Hc1.
    pose proof (touch_later st turn c fr) as Hl1.
    assert (forall c' fr', c' <> c -> checks (step st turn) !! c' = Some fr' ->
              ck_basename fr' <> ck_basename fr) as Hfresh1.
    { intros c' fr' Hne Hc'.
      destruct (run_frame_kept (step st turn) rest c' fr' Hc') as (fr'' & Hc'' & Hl).
      rewrite <- (later_basename _ _ Hl), Hb. by eapply Hfresh. }
    destruct (IH (step st turn) c (touch st turn c fr) fr0) as (fr_end & He & Hle & Hr);
      [by apply all_sound_step|by apply registered_step|by apply numbered_step
      |done|by destruct Hl1 as [-> _]| |done|].
    { intros Hret1. rewrite <- Hb.
      apply entry_kept; try done. by rewrite Hb. }
    exists fr_end. split_and!; [done|by eapply later_trans|].
    rewrite Hr. destruct (ck_result fr) as [r|] eqn:Hres.
    + destruct Hl1 as (_ & H & _). by rewrite (H r Hres).
    + apply touch_undecided; try done; [by eapply Hs|].
      apply Hentry. destruct (Hs c fr Hc) as (H1 & _). by apply H1.
Qed.

Lemma finish_flags fr :
  ck_created (finish fr) = ck_created fr /\ ck_observed (finish fr) = ck_observed fr.
Proof. unfold finish. by destruct (ck_returned fr). Qed.

(** A turn after which the race of a pending check is won makes the
    check return and deletes its entry. *)
Lemma winning_releases st turn c fr fr' :
  reachable st ->
  checks st !! c = Some fr -> ck_returned fr = None ->
  checks (step st turn) !! c = Some fr' ->
  ck_timer fr' = None \/ (ck_created fr' = true /\ ck_observed fr' = true) ->
  is_Some (ck_returned fr') /\ registry (step st turn) !! ck_basename fr = None.
Proof.
  intros Hreach Hc Hret Hc' Hwon.
  assert (is_Some (ck_returned fr')) as Hsome.
  { destruct (reachable_invariants _ (reachable_step st turn Hreach)) as (Hs & _).
    destruct (Hs c fr' Hc') as (_ & _ & H3).
    destruct (ck_returned fr') as [v|]; [by eauto|].
    destruct (H3 eq_refl) as [[t Ht] Hco].
    destruct Hwon as [Hn|[Hcr Ho]]; [congruence|]. by rewrite Hcr, Ho in Hco. }
  split; [done|]. by eapply returning_releases.
Qed.

Lemma timeout_wins pauseReason fr : ck_timer (frame_timeout pauseReason fr) = None.
Proof.
  unfold frame_timeout. destruct (ck_timer fr) eqn:Ht; [|done].
  unfold finish; simpl. by destruct (ck_returned fr).
Qed.

Lemma creation_wins failure fr :
  ck_observed fr = true ->
  ck_created (frame_creation failure fr) = true
  /\ ck_observed (frame_creation failure fr) = true.
Proof.
  intros Ho. unfold frame_creation. destruct (ck_created fr) eqn:Hc; [done|].
  rewrite Ho. by destruct (finish_flags
    (with_result match failure with
                 | Some error => set_once (error_ (ck_timeout fr) error (ck_watcher fr))
                                          (ck_result fr)
                 | None => ck_result fr
                 end (creation_settled fr))) as [-> ->].
Qed.

Lemma observation_wins now fr :
  ck_created fr = true ->
  ck_created (frame_observation now fr) = true
  /\ ck_observed (frame_observation now fr) = true.
Proof.
  intros Hc. unfold frame_observation. destruct (ck_observed fr) eqn:Ho; [done|].
  rewrite Hc. by destruct (finish_flags
    (with_result (set_once (success (ck_timeout fr) (now - ck_startTime fr)
                              (ck_watcher fr)) (ck_result fr))
       (observation_settled fr))) as [-> ->].
Qed.

(** C6: in a session, a call of [checkHealth] enters the [resolve] of its
    check in the registry under the basename of its cookie; an entry of
    the registry always belongs to one check that has not returned and
    whose cookie has the basename of the entry; the turn in which a check
    returns, whatever its result, removes the entry of its basename, and
    until then the entry stays, as long as no other check has the same
    basename; and a turn that belongs to one check leaves every other
    check with a different basename as it is, its frame and its entry
    alike.  The entry is removed indeed: the turn in which the timer of
    a pending check fires, the turn in which its write settles after the
    cookie was observed, and the turn in which its cookie is observed
    after the write has settled each make the check return and delete
    its entry, whatever result the slot holds; so does every turn after
    which its race is won; and in no state of a session has a check
    whose race is won not returned or still its entry. *)
Theorem registry_has_one_entry_per_pending_check (st : State) :
  reachable st ->
  (forall now timeout,
     let st' := step st (now, CallCheckHealth timeout) in
     checks st' !! length (checks st) = Some (opened st timeout now)
     /\ registry st' !! ck_basename (opened st timeout now)
        = Some (length (checks st)))
  /\ (forall b k, registry st !! b = Some k ->
        exists fr, checks st !! k = Some fr /\ ck_basename fr = b
                   /\ ck_returned fr = None)
  /\ (forall turn c fr fr',
        checks st !! c = Some fr -> ck_returned fr = None ->
        checks (step st turn) !! c = Some fr' -> is_Some (ck_returned fr') ->
        registry (step st turn) !! ck_basename fr = None)
  /\ (forall turn c fr fr',
        checks st !! c = Some fr -> registry st !! ck_basename fr = Some c ->
        (forall c' fr', c' <> c -> checks (step st turn) !! c' = Some fr' ->
           ck_basename fr' <> ck_basename fr) ->
        checks (step st turn) !! c = Some fr' -> ck_returned fr' = None ->
        registry (step st turn) !! ck_basename fr = Some c)
  /\ (forall turn c2 fr2,
        checks st !! c2 = Some fr2 ->
        (forall c1 b1, concerns st turn = Some (c1, b1) ->
           c1 <> c2 /\ b1 <> ck_basename fr2) ->
        checks (step st turn) !! c2 = Some fr2
        /\ registry (step st turn) !! ck_basename fr2
           = registry st !! ck_basename fr2)
  /\ (forall now pause c fr,
        checks st !! c = Some fr -> ck_returned fr = None ->
        let st' := step st (now, HealthTimeout c pause) in
        exists fr', checks st' !! c = Some fr' /\ is_Some (ck_returned fr')
                    /\ registry st' !! ck_basename fr = None)
  /\ (forall now failure c fr,
        checks st !! c = Some fr -> ck_returned fr = None ->
        ck_observed fr = true ->
        let st' := step st (now, WriteFileSettled c failure) in
        exists fr', checks st' !! c = Some fr' /\ is_Some (ck_returned fr')
                    /\ registry st' !! ck_basename fr = None)
  /\ (forall now w i change c fr,
        checks st !! c = Some fr -> ck_returned fr = None ->
        ck_created fr = true ->
        registry st !! ck_basename fr = Some c ->
        subscribed st w i = true ->
        basename (relativePath change) = ck_basename fr ->
        is_add_or_change (event change) = true ->
        let st' := step st (now, All w i change) in
        exists fr', checks st' !! c = Some fr' /\ is_Some (ck_returned fr')
                    /\ registry st' !! ck_basename fr = None)
  /\ (forall turn c fr fr',
        checks st !! c = Some fr -> ck_returned fr = None ->
        checks (step st turn) !! c = Some fr' ->
        ck_timer fr' = None \/ (ck_created fr' = true /\ ck_observed fr' = true) ->
        is_Some (ck_returned fr')
        /\ registry (step st turn) !! ck_basename fr = None)
  /\ (forall c fr,
        checks st !! c = Some fr ->
        ck_timer fr = None \/ (ck_created fr = true /\ ck_observed fr = true) ->
        is_Some (ck_returned fr) /\ registry st !! ck_basename fr <> Some c).
Proof.
  intros Hreach.
  destruct (reachable_invariants st Hreach) as (Hsound & Hreg & Hnum).
  split_and!.
  - intros now timeout st'. subst st'.
    destruct (step_checkHealth st now timeout) as [-> ->]. split.
    + rewrite lookup_app_r by done. by rewrite Nat.sub_diag.
    + apply lookup_insert_eq.
  - exact Hreg.
  - apply returning_releases.
  - intros turn c fr fr' Hc Hentry Hfresh Hc' Hret.
    rewrite (step_frame st turn c fr Hc) in Hc'. injection Hc' as <-.
    by apply entry_kept.
  - apply other_checks_untouched.
  - intros now pause c fr Hc Hret st'. subst st'.
    pose proof (step_frame st (now, HealthTimeout c pause) c fr Hc) as Hc'.
    eexists. split; [exact Hc'|].
    eapply winning_releases; [done|exact Hc|done|exact Hc'|]. left.
    unfold touch; simpl. rewrite decide_True by done. apply timeout_wins.
  - intros now failure c fr Hc Hret Ho st'. subst st'.
    pose proof (step_frame st (now, WriteFileSettled c failure) c fr Hc) as Hc'.
    eexists. split; [exact Hc'|].
    eapply winning_releases; [done|exact Hc|done|exact Hc'|]. right.
    unfold touch; simpl. rewrite decide_True by done. by apply creation_wins.
  - intros now w i change c fr Hc Hret Hcr Hentry Hsub Hb Hkind st'. subst st'.
    pose proof (step_frame st (now, All w i change) c fr Hc) as Hc'.
    eexists. split; [exact Hc'|].
    eapply winning_releases; [done|exact Hc|done|exact Hc'|]. right.
    assert (observed_check st (now, All w i change) = Some c) as Hoc.
    { unfold observed_check; simpl. rewrite Hsub, Hb, Hkind.
      destruct Hnum as [_ Hn]. destruct (Hn c fr Hc) as [_ Hcookie].
      rewrite Hcookie at 1. rewrite cookie_startsWith. exact Hentry. }
    unfold touch; simpl. rewrite decide_True by done. by apply observation_wins.
  - intros turn c fr fr'. by apply winning_releases.
  - intros c fr Hc Hwon.
    assert (is_Some (ck_returned fr)) as [v Hv].
    { destruct (Hsound c fr Hc) as (_ & _ & H3).
      destruct (ck_returned fr) as [v|]; [by eauto|].
      destruct (H3 eq_refl) as [[t Ht] Hco].
      destruct Hwon as [Hn|[Hcr Ho]]; [congruence|]. by rewrite Hcr, Ho in Hco. }
    split; [by eauto|]. intros Hentry.
    destruct (Hreg _ _ Hentry) as (fr0 & Hc0 & _ & Hret0). congruence.
Qed.

Lemma registry_has_one_entry_per_pending_check_witness :
  registry (step (run Demo.session Demo.two_checks) (1010, HealthTimeout 0%nat None))
    !! Demo.cookie1
  = registry (run Demo.session Demo.two_checks) !! Demo.cookie1
  /\ registry (run Demo.session Demo.two_checks) !! Demo.cookie0 = Some 0%nat
  /\ registry (step (run Demo.session Demo.two_checks) (1010, HealthTimeout 0%nat None))
       !! Demo.cookie0
     = None.
Proof.
  assert (exists fr2, checks (run Demo.session Demo.two_checks) !! 1%nat = Some fr2
                      /\ ck_basename fr2 = Demo.cookie1)
    as (fr2 & H1 & Hb) by (eexists; split; vm_compute; reflexivity).
  assert (exists fr1, checks (run Demo.session Demo.two_checks) !! 0%nat = Some fr1
                      /\ ck_basename fr1 = Demo.cookie0 /\ ck_returned fr1 = None)
    as (fr1 & H0 & Hb0 & Hr0) by (eexists; split_and!; vm_compute; reflexivity).
  rewrite <- Hb, <- Hb0.
  destruct (registry_has_one_entry_per_pending_check
              (run Demo.session Demo.two_checks)
              (ex_intro _ Demo.options (ex_intro _ 7 (ex_intro _ 4242
                 (ex_intro _ false (ex_intro _ Demo.two_checks eq_refl))))))
    as (_ & _ & _ & _ & Hother & Htimer & _).
  split_and!.
  - apply (Hother (1010, HealthTimeout 0%nat None) 1%nat fr2 H1).
    intros c1 b1 Hcon. rewrite Hb. vm_compute in Hcon.
    injection Hcon as <- <-. split; [lia|discriminate].
  - rewrite Hb0. vm_compute. reflexivity.
  - destruct (Htimer 1010 None 0%nat fr1 H0 Hr0) as (fr' & _ & _ & Hgone).
    exact Hgone.
Defined.

Lemma finish_timer fr : ck_timer (finish fr) = ck_timer fr.
Proof. unfold finish. by destruct (ck_returned fr). Qed.

Lemma timer_fires turns : forall st c fr t pause,
  checks st !! c = Some fr ->
  In (t, HealthTimeout c pause) turns ->
  exists fr', checks (run st turns) !! c = Some fr' /\ ck_timer fr' = None.
Proof.
  induction turns as [|turn rest IH]; intros st c fr t pause Hc Hin; [done|].
  rewrite run_cons. pose proof (step_frame st turn c fr Hc) as Hc1.
  destruct Hin as [->|Hin].
  - destruct (run_frame_kept _ rest c _ Hc1) as (fr' & Hc' & _ & _ & _ & Hkeep).
    exists fr'. split; [done|]. apply Hkeep.
    unfold touch; simpl. rewrite decide_True by done. unfold frame_timeout.
    destruct (ck_timer fr) eqn:Ht; [|done]. by rewrite finish_timer.
  - by eapply IH.
Qed.

(** C1: a call of [checkHealth(timeout)] in a session opens a check
    whose result is the verdict of the specification on the rest of the
    run: [timeout] when the timer of the check elapses first, [error] with
    the cause when the write of the cookie fails first, [success] with the
    elapsed time when a ready backend first delivers an [add] or [change]
    event for the basename of its cookie, and no result while none of the
    three has happened.  The call never throws: what it returns is the
    result in the slot; and it has returned once its timer has fired.
    No other check of the run uses the same basename. *)
Theorem checkHealth_returns_the_first_decision
    (st0 : State) (now timeout : Z) (turns : list (Z * Input)) :
  reachable st0 ->
  let c := length (checks st0) in
  let fr0 := opened st0 timeout now in
  let st1 := step st0 (now, CallCheckHealth timeout) in
  let final := run st1 turns in
  (forall c' fr', c' <> c -> checks final !! c' = Some fr' ->
     ck_basename fr' <> ck_basename fr0) ->
  exists fr,
    checks final !! c = Some fr
    /\ statics fr = statics fr0
    /\ ck_result fr = verdict c fr0 st1 false turns
    /\ (forall v, ck_returned fr = Some v ->
          exists r, v = Returns r /\ ck_result fr = Some r)
    /\ ((exists t pause, In (t, HealthTimeout c pause) turns) ->
        is_Some (ck_returned fr)).
Proof.
  intros Hreach c fr0 st1 final Hfresh.
  pose proof (reachable_step st0 (now, CallCheckHealth timeout) Hreach) as Hreach1.
  fold st1 in Hreach1.
  destruct (reachable_invariants st1 Hreach1) as (Hs & Hreg & Hnum).
  destruct (step_checkHealth st0 now timeout) as [H1 H2]. fold st1 in H1, H2.
  assert (checks st1 !! c = Some fr0) as Hc.
  { rewrite H1, lookup_app_r by done. subst c. by rewrite Nat.sub_diag. }
  destruct (verdict_decides turns st1 c fr0 fr0 Hs Hreg Hnum Hc eq_refl)
    as (fr & Hend & Hlater & Hres); [|done|].
  { intros _. rewrite H2. apply lookup_insert_eq. }
  exists fr. split_and!; [done|by destruct Hlater|done| |].
  - intros v Hv.
    destruct (reachable_invariants final (reachable_run st1 turns Hreach1))
      as (Hsf & _ & _).
    destruct (Hsf c fr Hend) as (_ & Hret & _).
    destruct (Hret v Hv) as (r & Hr & ->). by exists r.
  - intros (t & pause & Hin).
    destruct (timer_fires turns st1 c fr0 t pause Hc Hin) as (fr' & Hc' & Htimer).
    assert (Some fr' = Some fr) as [= ->] by (rewrite <- Hc'; exact Hend).
    destruct (reachable_invariants final (reachable_run st1 turns Hreach1))
      as (Hsf & _ & _).
    destruct (Hsf c fr Hend) as (_ & _ & Hpending).
    destruct (ck_returned fr) eqn:Hret; [by eauto|].
    destruct (Hpending eq_refl) as [[? Ht] _]. congruence.
Qed.

Lemma checkHealth_returns_the_first_decision_witness :
  exists fr,
    checks (run (step (run Demo.session Demo.both_ready) (10, CallCheckHealth 1000))
                Demo.seen_then_written) !! 0%nat = Some fr
    /\ ck_result fr = Some (success 1000 2 (Some "watchman"))
    /\ ck_returned fr = Some (Returns (success 1000 2 (Some "watchman"))).
Proof.
  destruct (checkHealth_returns_the_first_decision
              (run Demo.session Demo.both_ready) 10 1000 Demo.seen_then_written
              (ex_intro _ Demo.options (ex_intro _ 7 (ex_intro _ 4242
                 (ex_intro _ false (ex_intro _ Demo.both_ready eq_refl))))))
    as (fr & Hc & _ & Hres & Hret & _).
  { intros [|c'] fr' Hne Hc'; [done|]. vm_compute in Hc'. discriminate. }
  exists fr. split_and!; [exact Hc|exact Hres|].
  assert (is_Some (ck_returned fr)) as [v Hv].
  { vm_compute in Hc. injection Hc as <-. by eexists. }
  destruct (Hret v Hv) as (r & -> & Hr).
  rewrite Hv. rewrite Hres in Hr. by injection Hr as <-.
Defined.

(** *** [watch] *)

Lemma create_all_spec options impl construct rs : forall i,
  let '(made, thrown) := create_all options impl construct i rs in
  Forall root_ok made
  /\ Forall never_rejected made
  /\ Forall (fun rw => rw_promise rw = None) made
  /\ match thrown with
     | None => length made = length rs
               /\ forall j, (j < length rs)%nat -> construct (i + j)%nat = None
     | Some e => exists j, (j < length rs)%nat /\ construct (i + j)%nat = Some e
     end.
Proof.
  induction rs as [|r rs IH]; intros i; simpl.
  - split_and!; try done. intros j Hj. lia.
  - destruct (construct i) as [e|] eqn:Hi.
    + split_and!; try done. exists 0%nat. rewrite Nat.add_0_r. split; [lia|done].
    + specialize (IH (S i)).
      destruct (create_all options impl construct (S i) rs) as [made thrown].
      destruct IH as (H1 & H2 & H3 & H4).
      split_and!; try (constructor; done).
      destruct thrown as [e|].
      * destruct H4 as (j & Hj & He). exists (S j). split; [lia|].
        by rewrite Nat.add_succ_r.
      * destruct H4 as [Hlen Hnone]. split; [simpl; lia|].
        intros [|j] Hj; [by rewrite Nat.add_0_r|].
        rewrite Nat.add_succ_r. apply Hnone. lia.
Qed.

Lemma all_fulfilled_view w st wf :
  watching st !! w = Some wf ->
  all_fulfilled w st
  = match wf_promise wf with
    | Some _ => st
    | None =>
        if forallb is_resolved (wf_roots wf) then
          set_this (with_backends (backends_of w (wf_roots wf)))
            (set_watching
               (<[w := {| wf_roots := wf_roots wf; wf_onChange := wf_onChange wf;
                          wf_promise := Some (Resolved tt) |}]>) st)
        else st
    end.
Proof. intros H. unfold all_fulfilled. by rewrite H. Qed.

Lemma one_rejected_view w e st wf :
  watching st !! w = Some wf ->
  one_rejected w e st
  = match wf_promise wf with
    | Some _ => st
    | None =>
        set_watching
          (<[w := {| wf_roots := wf_roots wf; wf_onChange := wf_onChange wf;
                     wf_promise := Some (Rejected e) |}]>) st
    end.
Proof. intros H. unfold one_rejected. by rewrite H. Qed.

Lemma root_at_Some st w i rw :
  root_at st w i = Some rw ->
  exists wf, watching st !! w = Some wf /\ wf_roots wf !! i = Some rw.
Proof.
  unfold root_at. destruct (watching st !! w) as [wf|]; [|done].
  simpl. intros H. by exists wf.
Qed.

Lemma lookup_set_root st w i rw wf :
  watching st !! w = Some wf ->
  watching (set_root w i rw st) !! w
  = Some {| wf_roots := <[i := rw]> (wf_roots wf); wf_onChange := wf_onChange wf;
            wf_promise := wf_promise wf |}.
Proof.
  intros H. unfold set_root; simpl. by rewrite list_lookup_alter_eq, H.
Qed.

Lemma in_backends_of w rws w' i :
  In (w', i) (backends_of w rws) -> w' = w.
Proof.
  unfold backends_of. intros H. apply in_map_iff in H as (j & [= -> _] & _). done.
Qed.

Lemma forallb_is_resolved rws :
  forallb is_resolved rws = true -> Forall (fun rw => is_resolved rw = true) rws.
Proof.
  intros H. apply Forall_forall. intros rw Hin.
  apply list_elem_of_In in Hin. by eapply forallb_forall in H.
Qed.

Lemma watching_set_root st w i rw wf :
  watching st !! w = Some wf ->
  watching (set_root w i rw st)
  = <[w := {| wf_roots := <[i := rw]> (wf_roots wf); wf_onChange := wf_onChange wf;
              wf_promise := wf_promise wf |}]> (watching st).
Proof.
  intros H. unfold set_root; simpl.
  by rewrite <- (alter_lookup_Some _ _ _ wf H).
Qed.

(** The frame of an activation after the [ready] of one of its
    backends that was not ready before. *)
Lemma on_ready_view st w i rw wf :
  watching st !! w = Some wf -> wf_roots wf !! i = Some rw ->
  rw_subscribed rw = false ->
  let rw' := {| rw_root := rw_root rw; rw_impl := rw_impl rw;
                rw_options := rw_options rw; rw_rejectTimeout := None;
                rw_subscribed := true;
                rw_promise := match rw_promise rw with
                              | None => Some (Resolved tt)
                              | Some p => Some p
                              end |} in
  let roots' := <[i := rw']> (wf_roots wf) in
  let settles := match wf_promise wf with
                 | None => forallb is_resolved roots'
                 | Some _ => false
                 end in
  watching (on_ready w i st)
  = <[w := {| wf_roots := roots'; wf_onChange := wf_onChange wf;
              wf_promise := if settles then Some (Resolved tt) else wf_promise wf |}]>
      (watching st)
  /\ _backends (this (on_ready w i st))
     = (if settles then backends_of w roots' else _backends (this st)).
Proof.
  intros Hw Hi Hsub rw' roots' settles.
  unfold on_ready. unfold root_at. rewrite Hw. simpl. rewrite Hi, Hsub.
  fold rw'.
  rewrite (all_fulfilled_view w _ _ (lookup_set_root st w i rw' wf Hw)).
  simpl wf_promise. simpl wf_roots. fold roots'. subst settles.
  destruct (wf_promise wf) as [p|] eqn:Hp.
  - split; [|done]. rewrite (watching_set_root _ _ _ _ wf Hw). by rewrite Hp.
  - destruct (forallb is_resolved roots'); simpl.
    + split; [|done].
      rewrite <- (alter_lookup_Some _ _ _ wf Hw). simpl.
      by rewrite list_insert_insert_eq.
    + split; [|done]. rewrite <- (alter_lookup_Some _ _ _ wf Hw). simpl.
      by rewrite Hp.
Qed.

(** The frame of an activation after the start-up timer of one of its
    backends has fired. *)
Lemma on_rejectTimeout_view st w i rw wf t :
  watching st !! w = Some wf -> wf_roots wf !! i = Some rw ->
  rw_rejectTimeout rw = Some t ->
  let rw' := {| rw_root := rw_root rw; rw_impl := rw_impl rw;
                rw_options := rw_options rw; rw_rejectTimeout := None;
                rw_subscribed := rw_subscribed rw;
                rw_promise := match rw_promise rw with
                              | None => Some (Rejected start_failed)
                              | Some p => Some p
                              end |} in
  watching (on_rejectTimeout w i st)
  = <[w := {| wf_roots := <[i := rw']> (wf_roots wf); wf_onChange := wf_onChange wf;
              wf_promise := match rw_promise rw, wf_promise wf with
                            | None, None => Some (Rejected start_failed)
                            | _, p => p
                            end |}]>
      (watching st)
  /\ _backends (this (on_rejectTimeout w i st)) = _backends (this st).
Proof.
  intros Hw Hi Ht rw'.
  unfold on_rejectTimeout. unfold root_at. rewrite Hw. simpl. rewrite Hi, Ht.
  subst rw'. destruct (rw_promise rw) as [p|] eqn:Hp.
  - split; [|done]. rewrite (watching_set_root _ _ _ _ wf Hw).
    by destruct (wf_promise wf).
  - match goal with
    | |- context [set_root w i ?r st] =>
        rewrite (one_rejected_view w _ _ _ (lookup_set_root st w i r wf Hw))
    end.
    simpl wf_promise. destruct (wf_promise wf) as [q|] eqn:Hq.
    + split; [|done]. rewrite (watching_set_root _ _ _ _ wf Hw). by rewrite Hq.
    + split; [|done]. simpl.
      rewrite <- (alter_lookup_Some _ _ _ wf Hw). simpl.
      by rewrite list_insert_insert_eq.
Qed.

Lemma insert_snoc {A} (l : list A) (x y : A) : <[length l := x]> (l ++ [y]) = l ++ [x].
Proof. induction l as [|z l IH]; simpl; [done|]. by f_equal. Qed.

Lemma lookup_snoc {A} (l : list A) (x : A) : (l ++ [x]) !! length l = Some x.
Proof. rewrite lookup_app_r by done. by rewrite Nat.sub_diag. Qed.

(** The frame that a call of [watch] opens. *)
Lemma watch_view construct st :
  let options := _options (this st) in
  let impl := select_impl (useWatchman options) (fsevents st) in
  let w := length (watching st) in
  let made := (create_all options impl construct 0 (roots options)).1 in
  let thrown := (create_all options impl construct 0 (roots options)).2 in
  let settles := match thrown with
                 | None => forallb is_resolved made
                 | Some _ => false
                 end in
  watching (watch construct st)
  = watching st
    ++ [{| wf_roots := made; wf_onChange := [];
           wf_promise := match thrown with
                         | Some e => Some (Rejected e)
                         | None => if settles then Some (Resolved tt) else None
                         end |}]
  /\ _backends (this (watch construct st))
     = (if settles then backends_of w made else _backends (this st))
  /\ _activeWatcher (this (watch construct st)) = Some (watcher_name impl).
Proof.
  intros options impl w made thrown settles.
  subst made thrown settles. unfold watch. fold options impl w.
  destruct (create_all options impl construct 0 (roots options)) as [made thrown].
  simpl. destruct thrown as [e|]; [done|].
  match goal with
  | |- context [all_fulfilled w ?s] =>
      rewrite (all_fulfilled_view w s _ (lookup_snoc (watching st) _))
  end.
  simpl. destruct (forallb is_resolved made); simpl; [|done].
  split_and!; try done. subst w. apply insert_snoc.
Qed.

Lemma frame_ok_roots n wf wf' :
  wf_roots wf' = wf_roots wf -> wf_promise wf' = wf_promise wf ->
  frame_ok n wf -> frame_ok n wf'.
Proof. unfold frame_ok. by intros -> ->. Qed.

Lemma watching_ok_same st st' :
  watching st' = watching st ->
  _backends (this st') = _backends (this st) ->
  _options (this st') = _options (this st) ->
  watching_ok st -> watching_ok st'.
Proof. unfold watching_ok. by intros -> -> ->. Qed.

Lemma watching_ok_update st st' w wf wf' :
  watching_ok st -> watching st !! w = Some wf ->
  watching st' = <[w := wf']> (watching st) ->
  _options (this st') = _options (this st) ->
  frame_ok (length (roots (_options (this st)))) wf' ->
  (wf_promise wf = Some (Resolved tt) -> wf_promise wf' = Some (Resolved tt)) ->
  (_backends (this st') = _backends (this st)
   \/ _backends (this st') = backends_of w (wf_roots wf')
      /\ wf_promise wf' = Some (Resolved tt)) ->
  watching_ok st'.
Proof.
  intros [Hall Hb] Hw Hws Hopt Hok Hres Hbs. unfold watching_ok.
  rewrite Hws, Hopt. split.
  - by apply Forall_insert.
  - intros w' i' Hin.
    assert (forall wf0, watching st !! w' = Some wf0 ->
              wf_promise wf0 = Some (Resolved tt) ->
              exists wf1, <[w := wf']> (watching st) !! w' = Some wf1
                          /\ wf_promise wf1 = Some (Resolved tt)) as Hkeep.
    { intros wf0 Hw0 Hp0. destruct (decide (w = w')) as [<-|Hne].
      - exists wf'. rewrite list_lookup_insert_eq by (by eapply lookup_lt_Some).
        split; [done|]. apply Hres. congruence.
      - exists wf0. by rewrite list_lookup_insert_ne. }
    destruct Hbs as [Hsame|[Hnew Hp]].
    + rewrite Hsame in Hin. destruct (Hb w' i' Hin) as (wf0 & Hw0 & Hp0). eauto.
    + rewrite Hnew in Hin. apply in_backends_of in Hin as ->.
      exists wf'. rewrite list_lookup_insert_eq by (by eapply lookup_lt_Some). done.
Qed.

Lemma Forall_lookup_1' {A} (P : A -> Prop) (l : list A) i x :
  Forall P l -> l !! i = Some x -> P x.
Proof. intros H Hi. by eapply Forall_lookup_1. Qed.

Lemma watching_ok_step st turn : watching_ok st -> watching_ok (step st turn).
Proof.
  intros Hok. pose proof Hok as [Hall Hb].
  pose proof (step_fixed st turn) as [Hcfg _].
  assert (_options (this (step st turn)) = _options (this st)) as Hopt
    by (unfold config in Hcfg; by simplify_eq).
  destruct turn as [now input].
  destruct input as [construct|timeout|w i|w i change|w i|k pause|k failure|].
  - (* watch *)
    change (step st (now, CallWatch construct)) with (watch construct st) in *.
    destruct (watch_view construct st) as (Hws & Hbs & _).
    pose proof (create_all_spec (_options (this st))
                  (select_impl (useWatchman (_options (this st))) (fsevents st))
                  construct (roots (_options (this st))) 0%nat) as Hspec.
    destruct (create_all _ _ _ _ _) as [made thrown]. simpl in Hws, Hbs.
    destruct Hspec as (H1 & H2 & H3 & H4).
    unfold watching_ok. rewrite Hws, Hbs, Hopt. split.
    + apply Forall_app. split; [done|]. constructor; [|done].
      split; [done|]. simpl. destruct thrown as [e|]; [done|].
      destruct H4 as [Hlen _].
      destruct (forallb is_resolved made) eqn:Hf; [|done].
      split; [done|]. by apply forallb_is_resolved.
    + intros w' i' Hin.
      destruct (match thrown with
                | Some _ => false
                | None => forallb is_resolved made
                end) eqn:Hs.
      * apply in_backends_of in Hin as ->. eexists. rewrite lookup_snoc.
        split; [done|]. simpl. destruct thrown; [discriminate Hs|done].
      * destruct (Hb w' i' Hin) as (wf0 & Hw0 & Hp0).
        exists wf0. split; [by apply lookup_app_l_Some|done].
  - (* checkHealth *)
    by apply (watching_ok_same st).
  - (* ready *)
    change (step st (now, Ready w i)) with (on_ready w i st) in *.
    destruct (root_at st w i) as [rw|] eqn:Hroot;
      [|by unfold on_ready; rewrite Hroot].
    destruct (rw_subscribed rw) eqn:Hsub;
      [by unfold on_ready; rewrite Hroot, Hsub|].
    apply root_at_Some in Hroot as (wf & Hw & Hi).
    destruct (on_ready_view st w i rw wf Hw Hi Hsub) as [Hws Hbs].
    pose proof (Forall_lookup_1' _ _ _ _ Hall Hw) as [Hroots Hprom].
    pose proof (Forall_lookup_1' _ _ _ _ Hroots Hi) as Hrw.
    unfold root_ok in Hrw.
    eapply (watching_ok_update st _ w wf); [done|done|exact Hws|done| | |].
    + split; simpl.
      * apply Forall_insert; [done|]. unfold root_ok; simpl.
        by destruct (rw_promise rw) as [[]|].
      * destruct (wf_promise wf) as [[]|] eqn:Hp; simpl.
        -- destruct Hprom as [Hlen Hres].
           pose proof (Forall_lookup_1' _ _ _ _ Hres Hi) as Hr.
           unfold is_resolved in Hr.
           destruct (rw_promise rw) as [[]|]; try done. destruct Hrw. congruence.
        -- done.
        -- destruct Hprom as [Hlen Hnr].
           destruct (forallb is_resolved _) eqn:Hf.
           ++ split; [by rewrite length_insert|]. by apply forallb_is_resolved.
           ++ split; [by rewrite length_insert|].
              apply Forall_insert; [done|]. intros e; simpl.
              pose proof (Forall_lookup_1' _ _ _ _ Hnr Hi e) as Hne.
              by destruct (rw_promise rw) as [[]|].
    + simpl. intros Hp. rewrite Hp. done.
    + simpl. rewrite Hbs.
      destruct (wf_promise wf) as [p|]; [by left|].
      destruct (forallb is_resolved _); [by right|by left].
  - (* a backend event *)
    rewrite step_All in *.
    destruct (observed_check _ _) as [c|].
    + destruct (resolveHealthCheck_view c now st) as (_ & _ & Hs).
      destruct Hs as (? & _ & _ & ? & ? & _). by apply (watching_ok_same st).
    + destruct (_ && _) eqn:Hcond; [|done].
      apply andb_prop in Hcond as [Hsub _].
      destruct (subscribed_frame st w i Hsub) as [wf Hw].
      eapply (watching_ok_update st _ w wf); [done|done| |done| | |by left].
      * unfold onChange; simpl. by rewrite <- (alter_lookup_Some _ _ _ wf Hw).
      * eapply frame_ok_roots; [| |by eapply Forall_lookup_1']; done.
      * done.
  - (* the start-up timer *)
    change (step st (now, StartupTimeout w i)) with (on_rejectTimeout w i st) in *.
    destruct (root_at st w i) as [rw|] eqn:Hroot;
      [|by unfold on_rejectTimeout; rewrite Hroot].
    destruct (rw_rejectTimeout rw) as [t|] eqn:Ht;
      [|by unfold on_rejectTimeout; rewrite Hroot, Ht].
    apply root_at_Some in Hroot as (wf & Hw & Hi).
    destruct (on_rejectTimeout_view st w i rw wf t Hw Hi Ht) as [Hws Hbs].
    pose proof (Forall_lookup_1' _ _ _ _ Hall Hw) as [Hroots Hprom].
    pose proof (Forall_lookup_1' _ _ _ _ Hroots Hi) as Hrw.
    unfold root_ok in Hrw.
    destruct (rw_promise rw) as [[]|] eqn:Hp;
      try (destruct Hrw; congruence); try congruence.
    eapply (watching_ok_update st _ w wf); [done|done|exact Hws|done| | |by left].
    + split; simpl.
      * apply Forall_insert; [done|]. unfold root_ok; by simpl.
      * destruct (wf_promise wf) as [[]|] eqn:Hq; simpl; try done.
        destruct Hprom as [_ Hres].
        pose proof (Forall_lookup_1' _ _ _ _ Hres Hi) as Hr.
        unfold is_resolved in Hr. by rewrite Hp in Hr.
    + simpl. intros Hq. by rewrite Hq.
  - (* the timer of a check *)
    destruct (on_timeout_view k pause st) as (_ & _ & Hs).
    destruct Hs as (? & _ & _ & ? & ? & _). by apply (watching_ok_same st).
  - (* the write of a check *)
    destruct (on_creation_view k failure st) as (_ & _ & Hs).
    destruct Hs as (? & _ & _ & ? & ? & _). by apply (watching_ok_same st).
  - by apply (watching_ok_same st).
Qed.

Lemma step_settled st turn w wf p :
  watching st !! w = Some wf -> wf_promise wf = Some p ->
  exists wf', watching (step st turn) !! w = Some wf' /\ wf_promise wf' = Some p.
Proof.
  intros Hw Hp.
  assert (forall st', watching st' = watching st ->
            exists wf', watching st' !! w = Some wf' /\ wf_promise wf' = Some p)
    as Hsame by (intros st' ->; eauto).
  assert (forall st' v wf1 wf1',
            watching st !! v = Some wf1 ->
            watching st' = <[v := wf1']> (watching st) ->
            (wf_promise wf1 = Some p -> wf_promise wf1' = Some p) ->
            exists wf', watching st' !! w = Some wf' /\ wf_promise wf' = Some p)
    as Hupd.
  { intros st' v wf1 wf1' Hv -> Hkeep. destruct (decide (v = w)) as [->|Hne].
    - exists wf1'. rewrite list_lookup_insert_eq by (by eapply lookup_lt_Some).
      split; [done|]. apply Hkeep. congruence.
    - exists wf. by rewrite list_lookup_insert_ne. }
  destruct turn as [now input].
  destruct input as [construct|timeout|v i|v i change|v i|k pause|k failure|].
  - change (step st (now, CallWatch construct)) with (watch construct st).
    destruct (watch_view construct st) as (-> & _).
    exists wf. split; [by apply lookup_app_l_Some|done].
  - by apply Hsame.
  - change (step st (now, Ready v i)) with (on_ready v i st).
    destruct (root_at st v i) as [rw|] eqn:Hroot;
      [|apply Hsame; by unfold on_ready; rewrite Hroot].
    destruct (rw_subscribed rw) eqn:Hsub;
      [apply Hsame; by unfold on_ready; rewrite Hroot, Hsub|].
    apply root_at_Some in Hroot as (wf1 & Hv & Hi).
    destruct (on_ready_view st v i rw wf1 Hv Hi Hsub) as [Hws _].
    eapply Hupd; [exact Hv|exact Hws|]. simpl. by intros ->.
  - rewrite step_All.
    destruct (observed_check _ _) as [c|].
    + destruct (resolveHealthCheck_view c now st) as (_ & _ & Hs & _).
      by apply Hsame.
    + destruct (_ && _) eqn:Hcond; [|by apply Hsame].
      apply andb_prop in Hcond as [Hsub _].
      destruct (subscribed_frame st v i Hsub) as [wf1 Hv].
      eapply Hupd; [exact Hv| |].
      * unfold onChange; simpl. by rewrite <- (alter_lookup_Some _ _ _ wf1 Hv).
      * done.
  - change (step st (now, StartupTimeout v i)) with (on_rejectTimeout v i st).
    destruct (root_at st v i) as [rw|] eqn:Hroot;
      [|apply Hsame; by unfold on_rejectTimeout; rewrite Hroot].
    destruct (rw_rejectTimeout rw) as [t|] eqn:Ht;
      [|apply Hsame; by unfold on_rejectTimeout; rewrite Hroot, Ht].
    apply root_at_Some in Hroot as (wf1 & Hv & Hi).
    destruct (on_rejectTimeout_view st v i rw wf1 t Hv Hi Ht) as [Hws _].
    eapply Hupd; [exact Hv|exact Hws|]. simpl. intros ->.
    by destruct (rw_promise rw).
  - destruct (on_timeout_view k pause st) as (_ & _ & Hs & _). by apply Hsame.
  - destruct (on_creation_view k failure st) as (_ & _ & Hs & _). by apply Hsame.
  - by apply Hsame.
Qed.

Lemma run_settled st turns w wf p :
  watching st !! w = Some wf -> wf_promise wf = Some p ->
  exists wf', watching (run st turns) !! w = Some wf' /\ wf_promise wf' = Some p.
Proof.
  revert st wf; induction turns as [|turn turns IH]; intros st wf Hw Hp; [by eauto|].
  rewrite run_cons.
  destruct (step_settled st turn w wf p Hw Hp) as (wf1 & Hw1 & Hp1). by eapply IH.
Qed.

Lemma reachable_watching_ok st : reachable st -> watching_ok st.
Proof.
  intros (options & inst & p & sup & turns & ->).
  assert (watching_ok (start options inst p sup)) as H0.
  { split; [by constructor|]. intros w i []. }
  revert H0. generalize (start options inst p sup).
  induction turns as [|turn turns IH]; intros st H; [done|].
  rewrite run_cons. by apply IH, watching_ok_step.
Qed.

(** C4, as the code has it: [watch()] resolves only with a backend for
    every configured root, each of which has fired [ready]; it rejects
    when the constructor of a backend throws, with what was thrown, and
    when the start-up timer of a backend that has not fired [ready]
    fires, a timer that is set to 240000 ms; once settled it stays as it
    is, and a backend is listed in the session only through a call that
    resolved, so there is no partial success.  But each backend passes
    its events to [onChange] from its own [ready] on, whether or not the
    call as a whole resolves. *)
Theorem watch_is_all_or_nothing (st : State) :
  reachable st ->
  (forall w wf,
     watching st !! w = Some wf -> wf_promise wf = Some (Resolved tt) ->
     length (wf_roots wf) = length (roots (_options (this st)))
     /\ forall i rw, wf_roots wf !! i = Some rw -> rw_subscribed rw = true)
  /\ (forall now construct i e,
        (i < length (roots (_options (this st))))%nat -> construct i = Some e ->
        exists wf e' j,
          watching (step st (now, CallWatch construct)) !! length (watching st)
          = Some wf
          /\ wf_promise wf = Some (Rejected e') /\ construct j = Some e')
  /\ (forall w wf i rw,
        watching st !! w = Some wf -> wf_roots wf !! i = Some rw ->
        rw_subscribed rw = false ->
        (forall d, rw_rejectTimeout rw = Some d -> d = 240000)
        /\ forall now, exists wf' e,
             watching (step st (now, StartupTimeout w i)) !! w = Some wf'
             /\ wf_promise wf' = Some (Rejected e))
  /\ (forall turns w wf p,
        watching st !! w = Some wf -> wf_promise wf = Some p ->
        exists wf', watching (run st turns) !! w = Some wf'
                    /\ wf_promise wf' = Some p)
  /\ (forall w i, In (w, i) (_backends (this st)) ->
        exists wf, watching st !! w = Some wf
                   /\ wf_promise wf = Some (Resolved tt))
  /\ (forall now w i change,
        startsWith (basename (relativePath change))
                   (healthCheckFilePrefix (_options (this st))) = false ->
        step st (now, All w i change)
        = if subscribed st w i then onChange w change st else st).
Proof.
  intros Hreach. pose proof (reachable_watching_ok st Hreach) as [Hall Hb].
  split_and!.
  - intros w wf Hw Hp.
    pose proof (Forall_lookup_1' _ _ _ _ Hall Hw) as [Hroots Hprom].
    rewrite Hp in Hprom. destruct Hprom as [Hlen Hres]. split; [done|].
    intros i rw Hi.
    pose proof (Forall_lookup_1' _ _ _ _ Hroots Hi) as Hrw.
    pose proof (Forall_lookup_1' _ _ _ _ Hres Hi) as Hr.
    unfold root_ok in Hrw. unfold is_resolved in Hr.
    destruct (rw_promise rw) as [[]|]; try done. by destruct Hrw.
  - intros now construct i e Hi He.
    change (step st (now, CallWatch construct)) with (watch construct st).
    destruct (watch_view construct st) as (Hws & _).
    pose proof (create_all_spec (_options (this st))
                  (select_impl (useWatchman (_options (this st))) (fsevents st))
                  construct (roots (_options (this st))) 0%nat) as Hspec.
    destruct (create_all _ _ _ _ _) as [made thrown]. simpl in Hws.
    destruct Hspec as (_ & _ & _ & H4). rewrite Hws, lookup_snoc.
    destruct thrown as [e'|].
    + destruct H4 as (j & _ & Hj). by eexists _, e', j.
    + destruct H4 as [_ Hnone]. specialize (Hnone i Hi). simpl in Hnone. congruence.
  - intros w wf i rw Hw Hi Hsub.
    pose proof (Forall_lookup_1' _ _ _ _ Hall Hw) as [Hroots Hprom].
    pose proof (Forall_lookup_1' _ _ _ _ Hroots Hi) as Hrw.
    assert (rw_promise rw = None /\ rw_rejectTimeout rw = Some MAX_WAIT_TIME
            \/ (exists e, rw_promise rw = Some (Rejected e))
               /\ rw_rejectTimeout rw = None) as Hcases.
    { unfold root_ok in Hrw. destruct (rw_promise rw) as [[v|e]|].
      - destruct Hrw as [Hs _]. congruence.
      - right. by eauto.
      - left. by destruct Hrw. }
    assert (wf_promise wf <> Some (Resolved tt)) as Hnr.
    { intros Hp. rewrite Hp in Hprom. destruct Hprom as [_ Hres].
      pose proof (Forall_lookup_1' _ _ _ _ Hres Hi) as Hr.
      unfold is_resolved in Hr.
      destruct Hcases as [[Hn _]|[[e He] _]]; by rewrite ?Hn, ?He in Hr. }
    split.
    + intros d Hd. destruct Hcases as [[_ Ht]|[_ Ht]]; rewrite Ht in Hd; [|done].
      by injection Hd as <-.
    + intros now.
      change (step st (now, StartupTimeout w i)) with (on_rejectTimeout w i st).
      destruct Hcases as [[Hn Ht]|[[e He] Ht]].
      * destruct (on_rejectTimeout_view st w i rw wf _ Hw Hi Ht) as [-> _].
        rewrite list_lookup_insert_eq by (by eapply lookup_lt_Some).
        rewrite Hn. destruct (wf_promise wf) as [[[]|e]|]; try done; by eexists _, _.
      * assert (on_rejectTimeout w i st = st) as ->.
        { unfold on_rejectTimeout, root_at. rewrite Hw. simpl. by rewrite Hi, Ht. }
        destruct (wf_promise wf) as [[[]|e']|] eqn:Hq; try done.
        -- by exists wf, e'.
        -- destruct Hprom as [_ Hnever].
           by destruct (Forall_lookup_1' _ _ _ _ Hnever Hi e).
  - intros turns w wf p. apply run_settled.
  - exact Hb.
  - intros now w i change Hp. unfold step; simpl.
    destruct (subscribed st w i); [|done]. unfold on_all. by rewrite Hp.
Qed.

Lemma watch_is_all_or_nothing_witness :
  exists wf' e,
    watching (step (run Demo.session Demo.one_ready) (240000, StartupTimeout 0%nat 1%nat))
      !! 0%nat = Some wf'
    /\ wf_promise wf' = Some (Rejected e).
Proof.
  destruct (watch_is_all_or_nothing (run Demo.session Demo.one_ready)
              (ex_intro _ Demo.options (ex_intro _ 7 (ex_intro _ 4242
                 (ex_intro _ false (ex_intro _ Demo.one_ready eq_refl))))))
    as (_ & _ & Htimer & _).
  assert (exists wf rw,
            watching (run Demo.session Demo.one_ready) !! 0%nat = Some wf
            /\ wf_roots wf !! 1%nat = Some rw /\ rw_subscribed rw = false)
    as (wf & rw & Hw & Hi & Hsub)
    by (eexists _, _; split_and!; vm_compute; reflexivity).
  exact (proj2 (Htimer 0%nat wf 1%nat rw Hw Hi Hsub) 240000).
Defined.

(** C4 as it is stated fails in its last part: the backend of the first
    root was ready and a change under it went to [onChange]; then the
    start-up timer of the second root fired and [watch()] rejected; and
    the next event of the first root went to [onChange] all the same. *)
Lemma rejected_watch_has_delivered_events :
  ~ (forall st w wf e,
        reachable st -> watching st !! w = Some wf ->
        wf_promise wf = Some (Rejected e) -> wf_onChange wf = []).
Proof.
  intros H.
  assert (exists wf,
            watching (run Demo.session Demo.one_ready_one_late) !! 0%nat = Some wf
            /\ wf_promise wf = Some (Rejected start_failed)
            /\ wf_onChange wf = [Demo.seen "change" "src/a.js";
                                 Demo.seen "add" "src/b.js"])
    as (wf & Hw & Hp & Hd)
    by (eexists; split_and!; vm_compute; reflexivity).
  specialize (H _ 0%nat wf _ (demo_reachable _) Hw Hp).
  rewrite Hd in H. discriminate.
Qed.

(** ** Scenarios *)

(** The write takes 200 ms and the timeout is 50 ms: the check returns
    [timeout] with the pause reason of the first backend; the write
    completes afterwards and the cookie is then unlinked. *)
Example slow_write_times_out :
  let st := run Demo.session Demo.slow_write in
  (ck_returned <$> checks st !! 0%nat)
  = Some (Some (Returns (timeout_ 50 (Some "watchman") (Some "hg.update"))))
  /\ fsOps st = [writeFile "/proj/.metro-health-check-4242-7-0" "10";
                 unlink "/proj/.metro-health-check-4242-7-0"]
  /\ registry st !! Demo.cookie0 = None.
Proof. split_and!; vm_compute; reflexivity. Qed.

(** Two checks at once: each succeeds on the event for its own cookie,
    with its own elapsed time. *)
Example two_checks_succeed_independently :
  let st := run Demo.session Demo.two_observed in
  (ck_returned <$> checks st !! 0%nat)
  = Some (Some (Returns (success 1000 15 (Some "watchman"))))
  /\ (ck_returned <$> checks st !! 1%nat)
     = Some (Some (Returns (success 1000 9 (Some "watchman")))).
Proof. split; vm_compute; reflexivity. Qed.

(** * Further properties *)

(** ** [crawl] *)

Import Ledger.

Lemma perf_points_app l1 l2 : perf_points (l1 ++ l2) = perf_points l1 ++ perf_points l2.
Proof. induction l1 as [|[] l1 IH]; simpl; try done. by rewrite IH. Qed.

Lemma emissions_app l1 l2 : emissions (l1 ++ l2) = emissions l1 ++ emissions l2.
Proof. induction l1 as [|[] l1 IH]; simpl; try done. by rewrite IH. Qed.

Lemma perf_points_emitted (g : Status -> Emission) ss :
  perf_points (map (fun s => Emitted (g s)) ss) = [].
Proof. by induction ss. Qed.

Lemma emissions_emitted (g : Status -> Emission) ss :
  emissions (map (fun s => Emitted (g s)) ss) = map g ss.
Proof. induction ss; simpl; [done|]. by f_equal. Qed.

(** X1: with a signal that is aborted at the call, [crawl()] rejects
    with the reason of the signal; it has called no strategy and warned of
    nothing, and the only thing it has done is to mark [crawl_start]. *)
Theorem crawl_rejects_when_aborted
    (options : WatcherOptions) (watchmanCrawl nodeCrawl : Crawler) :
  aborted (abortSignal options) = true ->
  (crawl options watchmanCrawl nodeCrawl).2 = Rejected (reason (abortSignal options))
  /\ effects (crawl options watchmanCrawl nodeCrawl).1
     = match perfLogger options with
       | Some _ => [PerfPoint "crawl_start"]
       | None => []
       end.
Proof.
  intros Hab.
  unfold crawl, crawl_body, retry, call, perf_point.
  unfold mbind, M_bind, bind, mret, M_ret, ret, throw, perform, get_crawler,
    set_crawler; simpl.
  rewrite Hab. by destruct (perfLogger options).
Qed.

Lemma crawl_rejects_when_aborted_witness :
  aborted (abortSignal Demo.aborted_options) = true
  /\ (crawl Demo.aborted_options Demo.watchman_down Demo.node_up).2
     = Rejected (mkError "AbortError" "aborted").
Proof.
  split; [reflexivity|].
  exact (proj1 (crawl_rejects_when_aborted Demo.aborted_options
                  Demo.watchman_down Demo.node_up eq_refl)).
Defined.

Ltac crawl_unfold :=
  unfold crawl, crawl_body, retry, logEnd, call, perf_point;
  unfold mbind, M_bind, bind, mret, M_ret, ret, throw, perform, get_crawler,
    set_crawler; simpl.

Ltac crawl_cases :=
  repeat first
    [ rewrite perform_all_spec; simpl
    | match goal with
      | |- context [match perfLogger ?o with _ => _ end] =>
          destruct (perfLogger o) eqn:?; simpl
      | |- context [if aborted ?a then _ else _] =>
          destruct (aborted a) eqn:?; simpl
      | |- context [match selected ?o with _ => _ end] =>
          destruct (selected o) eqn:?; simpl
      | |- context [match outcome ?r with _ => _ end] =>
          destruct (outcome r) eqn:?; simpl
      | |- context [match ?w (crawlerOptions ?o) with _ => _ end] =>
          destruct (w (crawlerOptions o)) eqn:?; simpl
      end ].

(** X3: with a [perfLogger], every call of [crawl()] marks
    [crawl_start], and it marks [crawl_end] after it exactly when it
    resolves; these are the only marks, and without a [perfLogger] there
    is none. *)
Theorem crawl_marks_start_and_end
    (options : WatcherOptions) (watchmanCrawl nodeCrawl : Crawler) :
  perf_points (effects (crawl options watchmanCrawl nodeCrawl).1)
  = match perfLogger options with
    | None => []
    | Some _ =>
        "crawl_start"
        :: (if is_resolution (crawl options watchmanCrawl nodeCrawl).2
            then ["crawl_end"] else [])
    end.
Proof.
  crawl_unfold. crawl_cases;
    rewrite ?perf_points_app, ?perf_points_emitted; simpl;
    rewrite ?perf_points_app, ?perf_points_emitted; reflexivity.
Qed.

(** X4: the [status] events that [crawl()] emits are the statuses that
    the strategies it calls report through [onStatus], each emitted once
    under the name [status], in the order of the calls and of the reports;
    nothing else is emitted. *)
Theorem crawl_forwards_statuses
    (options : WatcherOptions) (watchmanCrawl nodeCrawl : Crawler) :
  emissions (effects (crawl options watchmanCrawl nodeCrawl).1)
  = map (emit "status")
        (reported watchmanCrawl nodeCrawl
           (invocations (effects (crawl options watchmanCrawl nodeCrawl).1))).
Proof.
  unfold reported. crawl_unfold. crawl_cases; simplify_eq;
    repeat (rewrite ?emissions_app, ?invocations_app, ?emissions_emitted,
              ?invocations_emitted; simpl);
    repeat match goal with
           | H : _ (crawlerOptions _) = _ |- _ => rewrite H
           end;
    rewrite ?app_nil_r, ?map_app; reflexivity.
Qed.

(** The whole trace of a call that resolves at the first attempt. *)
Lemma crawl_success_trace options watchmanCrawl nodeCrawl run delta :
  aborted (abortSignal options) = false ->
  (if useWatchman options then watchmanCrawl else nodeCrawl)
    (crawlerOptions options) = Returns run ->
  outcome run = Resolved delta ->
  effects (crawl options watchmanCrawl nodeCrawl).1
  = match perfLogger options with Some _ => [PerfPoint "crawl_start"] | None => [] end
    ++ [Debug ("Beginning crawl with " +:+ dq +:+ "%s" +:+ dq +:+ ".")
          [ArgS (if useWatchman options then "watchman" else "node")];
        Invoke (if useWatchman options then watchman else node)
               (crawlerOptions options)]
    ++ map (fun s => Emitted (emit "status" s)) (statuses run)
    ++ [Debug ("Crawler " +:+ dq +:+ "%s" +:+ dq +:+
               " returned %d added/modified, %d removed, %d clock(s).")
          [ArgS (if useWatchman options then "watchman" else "node");
           ArgN (size (changedFiles delta));
           ArgN (size (removedFiles delta));
           ArgN (match clocks delta with Some m => size m | None => 0%nat end)]]
    ++ match perfLogger options with Some _ => [PerfPoint "crawl_end"] | None => [] end.
Proof.
  intros Hab Hret Hres. crawl_unfold. rewrite Hab; simpl.
  unfold selected, implementation.
  destruct (perfLogger options) as [pl|]; destruct (useWatchman options); simpl;
    rewrite Hret, perform_all_spec; simpl; rewrite Hres; simpl;
    rewrite <- ?app_assoc; reflexivity.
Qed.

(** X2: when the signal is not aborted and the selected strategy
    resolves, [crawl()] resolves with the result of that strategy as it
    is; it has called that strategy once, with the crawler options, and
    no other, and it has warned of nothing.  All it has done is this, in
    this order: the mark [crawl_start], the log of the beginning with
    the name of the selected crawler, the call of the strategy, the
    [status] events of its reports, the log of the end with the name of
    the selected crawler and the sizes of the result, and the mark
    [crawl_end]; the marks only with a [perfLogger]. *)
Theorem crawl_resolves_with_the_selected_strategy
    (options : WatcherOptions) (watchmanCrawl nodeCrawl : Crawler)
    (run : CrawlRun) (delta : CrawlResult) :
  aborted (abortSignal options) = false ->
  (if useWatchman options then watchmanCrawl else nodeCrawl)
    (crawlerOptions options) = Returns run ->
  outcome run = Resolved delta ->
  let finished := crawl options watchmanCrawl nodeCrawl in
  finished.2 = Resolved delta
  /\ invocations (effects finished.1)
     = [(if useWatchman options then watchman else node, crawlerOptions options)]
  /\ warnings (effects finished.1) = []
  /\ crawler finished.1 = (if useWatchman options then watchman else node)
  /\ effects finished.1
     = match perfLogger options with Some _ => [PerfPoint "crawl_start"] | None => [] end
       ++ [Debug ("Beginning crawl with " +:+ dq +:+ "%s" +:+ dq +:+ ".")
             [ArgS (if useWatchman options then "watchman" else "node")];
           Invoke (if useWatchman options then watchman else node)
                  (crawlerOptions options)]
       ++ map (fun s => Emitted (emit "status" s)) (statuses run)
       ++ [Debug ("Crawler " +:+ dq +:+ "%s" +:+ dq +:+
                  " returned %d added/modified, %d removed, %d clock(s).")
             [ArgS (if useWatchman options then "watchman" else "node");
              ArgN (size (changedFiles delta));
              ArgN (size (removedFiles delta));
              ArgN (match clocks delta with Some m => size m | None => 0%nat end)]]
       ++ match perfLogger options with
          | Some _ => [PerfPoint "crawl_end"]
          | None => []
          end.
Proof.
  intros Hab Hret Hres finished.
  pose proof (crawl_success_trace options watchmanCrawl nodeCrawl run delta
                Hab Hret Hres) as Htrace.
  destruct (crawl_after_success options watchmanCrawl nodeCrawl run delta Hab)
    as (pre & Hw & Hi & Hc); [|done|].
  { unfold selected. by destruct (useWatchman options). }
  subst finished. split_and!; [| | | |exact Htrace].
  - by rewrite Hc.
  - rewrite Htrace, !invocations_app, invocations_emitted.
    by destruct (perfLogger options).
  - rewrite Htrace, !warnings_app, warnings_emitted.
    by destruct (perfLogger options).
  - rewrite Hc. simpl.
    unfold logEnd, perf_point, mbind, M_bind, bind, mret, M_ret, ret, perform,
      get_crawler; simpl.
    by destruct (perfLogger options).
Qed.

Lemma crawl_resolves_with_the_selected_strategy_witness :
  (crawl Demo.options Demo.node_up Demo.node_up).2 = Resolved Demo.delta
  /\ effects (crawl Demo.options Demo.node_up Demo.node_up).1
     = [PerfPoint "crawl_start";
        Debug ("Beginning crawl with " +:+ dq +:+ "%s" +:+ dq +:+ ".")
          [ArgS "watchman"];
        Invoke watchman (crawlerOptions Demo.options);
        Debug ("Crawler " +:+ dq +:+ "%s" +:+ dq +:+
               " returned %d added/modified, %d removed, %d clock(s).")
          [ArgS "watchman"; ArgN 1; ArgN 0; ArgN 0];
        PerfPoint "crawl_end"].
Proof.
  destruct (crawl_resolves_with_the_selected_strategy Demo.options
              Demo.node_up Demo.node_up _ Demo.delta eq_refl eq_refl eq_refl)
    as (Hresult & _ & _ & _ & Htrace).
  split; [exact Hresult|]. rewrite Htrace. reflexivity.
Defined.

(** ** [checkHealth] *)

Lemma touch_cases st turn c fr :
  touch st turn c fr = fr
  \/ (exists pauseReason, touch st turn c fr = frame_timeout pauseReason fr)
  \/ (exists failure, touch st turn c fr = frame_creation failure fr)
  \/ (exists now, touch st turn c fr = frame_observation now fr).
Proof.
  unfold touch. destruct turn as [now []]; simpl; try (by left);
    case_decide; try (by left).
  - right; right; right. by eexists.
  - right; left. by eexists.
  - right; right; left. by eexists.
Qed.

Lemma step_frame_origin st turn c fr' :
  checks (step st turn) !! c = Some fr' ->
  (exists fr, checks st !! c = Some fr /\ fr' = touch st turn c fr)
  \/ (exists timeout, turn.2 = CallCheckHealth timeout
                      /\ c = length (checks st)
                      /\ fr' = opened st timeout turn.1).
Proof.
  intros Hc'. destruct (call_or_not turn) as [[timeout Ht]|Hn].
  - destruct turn as [now input]; simpl in Ht; subst input.
    destruct (step_checkHealth st now timeout) as [H1 _]. rewrite H1 in Hc'.
    apply lookup_app_Some in Hc' as [Hc'|[Hge Hc']].
    + left. exists fr'. split; [done|]. unfold touch. done.
    + apply list_lookup_singleton_Some in Hc' as [Hz <-].
      right. exists timeout. split_and!; try done. lia.
  - destruct (step_checks st turn Hn) as [H1 _]. rewrite H1 in Hc'.
    destruct (checks st !! c) as [fr|]; simplify_eq/=. left. by exists fr.
Qed.

(** A property of frames that holds of a new frame and is kept by the
    three callbacks holds of every frame of a session. *)
Lemma frames_invariant (P : CheckFrame -> Prop) :
  (forall st timeout now, P (opened st timeout now)) ->
  (forall pauseReason fr, P fr -> P (frame_timeout pauseReason fr)) ->
  (forall failure fr, P fr -> P (frame_creation failure fr)) ->
  (forall now fr, P fr -> P (frame_observation now fr)) ->
  forall st, reachable st -> forall c fr, checks st !! c = Some fr -> P fr.
Proof.
  intros Hnew Ht Hc Ho st (options & inst & p & sup & turns & ->).
  induction turns as [|turn turns IH] using rev_ind; intros c fr Hfr.
  - simpl in Hfr. by rewrite lookup_nil in Hfr.
  - rewrite run_snoc in Hfr.
    apply step_frame_origin in Hfr as [(fr0 & Hfr0 & ->)|(timeout & _ & _ & ->)];
      [|apply Hnew].
    specialize (IH c fr0 Hfr0).
    destruct (touch_cases (run (start options inst p sup) turns) turn c fr0)
      as [->|[[x ->]|[[x ->]|[x ->]]]]; auto.
Qed.

Lemma finish_carries fr : carries fr -> carries (finish fr).
Proof. unfold carries, finish. by destruct (ck_returned fr). Qed.

Lemma set_once_carries fr r :
  carries fr ->
  result_timeout r = ck_timeout fr -> result_watcher r = ck_watcher fr ->
  forall r', set_once r (ck_result fr) = Some r' ->
    result_timeout r' = ck_timeout fr /\ result_watcher r' = ck_watcher fr.
Proof.
  intros Hc Ht Hw r'. unfold set_once.
  destruct (ck_result fr) as [r0|] eqn:Hr; intros [= <-]; [by apply Hc|done].
Qed.

Lemma all_carry : forall st, reachable st ->
  forall c fr, checks st !! c = Some fr -> carries fr.
Proof.
  apply (frames_invariant carries).
  - intros st timeout now r. done.
  - intros pr fr Hc. unfold frame_timeout.
    destruct (ck_timer fr); [|done]. apply finish_carries.
    intros r'. simpl. by apply set_once_carries.
  - intros failure fr Hc. unfold frame_creation.
    destruct (ck_created fr); [done|].
    assert (carries (with_result
                       match failure with
                       | Some error => set_once (error_ (ck_timeout fr) error (ck_watcher fr))
                                                (ck_result fr)
                       | None => ck_result fr
                       end (creation_settled fr))) as H.
    { intros r'. simpl. destruct failure; [by apply set_once_carries|apply Hc]. }
    destruct (ck_observed fr); [by apply finish_carries|done].
  - intros now fr Hc. unfold frame_observation.
    destruct (ck_observed fr); [done|].
    assert (carries (with_result
                       (set_once (success (ck_timeout fr) (now - ck_startTime fr)
                                          (ck_watcher fr)) (ck_result fr))
                       (observation_settled fr))) as H.
    { intros r'. simpl. by apply set_once_carries. }
    destruct (ck_created fr); [by apply finish_carries|done].
Qed.

(** X5: whatever result a check gets, and whenever it gets it, the
    result carries the timeout that was passed to the call and the name
    of the watcher that was active at the call, not the one active when
    the result is made. *)
Theorem result_carries_the_call
    (st0 : State) (now timeout : Z) (turns : list (Z * Input)) :
  reachable st0 ->
  let final := run (step st0 (now, CallCheckHealth timeout)) turns in
  exists fr,
    checks final !! length (checks st0) = Some fr
    /\ forall r, ck_result fr = Some r ->
         result_timeout r = timeout
         /\ result_watcher r = _activeWatcher (this st0).
Proof.
  intros Hreach final.
  pose proof (reachable_step st0 (now, CallCheckHealth timeout) Hreach) as Hreach1.
  destruct (step_checkHealth st0 now timeout) as [H1 _].
  assert (checks (step st0 (now, CallCheckHealth timeout)) !! length (checks st0)
          = Some (opened st0 timeout now)) as Hc
    by (rewrite H1; apply lookup_snoc).
  destruct (run_frame_kept _ turns _ _ Hc) as (fr & Hfr & Hst & _).
  exists fr. split; [exact Hfr|]. intros r Hr.
  destruct (all_carry final (reachable_run _ turns Hreach1) _ fr Hfr r Hr) as [Ht Hw].
  unfold statics in Hst. injection Hst as _ Hto Hwa _ _ _.
  rewrite Ht, Hw, Hto, Hwa. done.
Qed.

Lemma result_carries_the_call_witness :
  exists fr,
    checks (run (step (run Demo.session Demo.both_ready) (10, CallCheckHealth 50))
                Demo.timer_then_write)
      !! length (checks (run Demo.session Demo.both_ready)) = Some fr
    /\ forall r, ck_result fr = Some r ->
         result_timeout r = 50
         /\ result_watcher r
            = _activeWatcher (this (run Demo.session Demo.both_ready)).
Proof.
  exact (result_carries_the_call (run Demo.session Demo.both_ready) 10 50
           Demo.timer_then_write
           (ex_intro _ Demo.options (ex_intro _ 7 (ex_intro _ 4242
              (ex_intro _ false (ex_intro _ Demo.both_ready eq_refl)))))).
Defined.

Lemma finish_tidy fr : race_won fr = true -> tidy (finish fr).
Proof.
  unfold tidy, finish, has_returned, race_won, timer_gone. intros Hw.
  destruct (ck_returned fr) eqn:Hr; simpl; by rewrite ?Hr, Hw.
Qed.

Lemma all_tidy : forall st, reachable st ->
  forall c fr, checks st !! c = Some fr -> tidy fr.
Proof.
  apply (frames_invariant tidy).
  - done.
  - intros pr fr Ht. unfold frame_timeout.
    destruct (ck_timer fr) eqn:Htimer; [|done]. by apply finish_tidy.
  - intros failure fr Ht. unfold frame_creation.
    destruct (ck_created fr) eqn:Hc; [done|].
    destruct (ck_observed fr) eqn:Ho.
    + apply finish_tidy. unfold race_won; simpl. rewrite Ho. apply orb_true_r.
    + revert Ht. unfold tidy, has_returned, race_won, timer_gone; simpl.
      rewrite Hc, Ho. simpl. by destruct (ck_timer fr).
  - intros now fr Ht. unfold frame_observation.
    destruct (ck_observed fr) eqn:Ho; [done|].
    destruct (ck_created fr) eqn:Hc.
    + apply finish_tidy. unfold race_won; simpl. rewrite Hc. apply orb_true_r.
    + revert Ht. unfold tidy, has_returned, race_won, timer_gone; simpl.
      rewrite Hc, Ho. simpl. by destruct (ck_timer fr).
Qed.

(** X7: in a session, a call of [checkHealth] has returned exactly when
    its timer has fired or both the write of its cookie has settled and
    the cookie was observed.  So the failure of the write, which decides
    [error] when nothing was decided before, does not by itself make the
    call return: the call goes on waiting for its timer or for an
    observation, and its entry stays in the registry. *)
Theorem checkHealth_returns_when_the_race_is_won (st : State) :
  reachable st ->
  (forall c fr, checks st !! c = Some fr ->
     is_Some (ck_returned fr)
     <-> ck_timer fr = None \/ (ck_created fr = true /\ ck_observed fr = true))
  /\ (forall c fr now error,
        checks st !! c = Some fr -> ck_result fr = None -> ck_created fr = false ->
        let st' := step st (now, WriteFileSettled c (Some error)) in
        exists fr',
          checks st' !! c = Some fr'
          /\ ck_result fr' = Some (error_ (ck_timeout fr) error (ck_watcher fr))
          /\ ck_returned fr' = None
          /\ registry st' !! ck_basename fr = registry st !! ck_basename fr).
Proof.
  intros Hreach. split.
  - intros c fr Hc. pose proof (all_tidy st Hreach c fr Hc) as Ht.
    unfold tidy, has_returned, race_won, timer_gone in Ht. split.
    + intros [v Hv]. rewrite Hv in Ht. symmetry in Ht.
      apply orb_prop in Ht as [Ht|Ht].
      * left. by destruct (ck_timer fr).
      * right. by apply andb_prop in Ht.
    + intros [Hn|[Hcr Ho]].
      * rewrite Hn in Ht. simpl in Ht. destruct (ck_returned fr); [by eauto|done].
      * rewrite Hcr, Ho, orb_true_r in Ht.
        destruct (ck_returned fr); [by eauto|done].
  - intros c fr now error Hc Hres Hcr st'.
    destruct (reachable_invariants st Hreach) as (Hs & _ & _).
    destruct (Hs c fr Hc) as (H1 & _ & _).
    destruct (H1 Hres) as (_ & Hobs & Hret).
    assert (touch st (now, WriteFileSettled c (Some error)) c fr
            = with_result (Some (error_ (ck_timeout fr) error (ck_watcher fr)))
                          (creation_settled fr)) as Htouch.
    { unfold touch; simpl. rewrite decide_True by done.
      unfold frame_creation. by rewrite Hcr, Hobs, Hres. }
    exists (touch st (now, WriteFileSettled c (Some error)) c fr).
    split_and!.
    + by apply step_frame.
    + by rewrite Htouch.
    + by rewrite Htouch.
    + destruct (step_checks st (now, WriteFileSettled c (Some error))) as [_ H2];
        [done|].
      subst st'. rewrite H2. unfold target; simpl. rewrite Hc, Htouch.
      unfold released; simpl. by rewrite Hret.
Qed.

Lemma checkHealth_returns_when_the_race_is_won_witness :
  exists fr,
    checks (run Demo.session Demo.observed_first) !! 0%nat = Some fr
    /\ (is_Some (ck_returned fr)
        <-> ck_timer fr = None \/ (ck_created fr = true /\ ck_observed fr = true)).
Proof.
  assert (exists fr, checks (run Demo.session Demo.observed_first) !! 0%nat = Some fr)
    as [fr Hc] by (eexists; vm_compute; reflexivity).
  exists fr. split; [exact Hc|].
  exact (proj1 (checkHealth_returns_when_the_race_is_won
                  (run Demo.session Demo.observed_first)
                  (ex_intro _ Demo.options (ex_intro _ 7 (ex_intro _ 4242
                     (ex_intro _ false (ex_intro _ Demo.observed_first eq_refl))))))
               0%nat fr Hc).
Defined.

(** *** The file-system calls *)

Lemma after_race_fsOps c st :
  fsOps (after_race c st)
  = fsOps st ++ match checks st !! c with
                | Some fr => swept fr (finish fr)
                | None => []
                end.
Proof.
  unfold after_race, swept, finish, cleaned, has_returned.
  destruct (checks st !! c) as [fr|]; [|by rewrite app_nil_r].
  destruct (ck_returned fr) eqn:Hr.
  - rewrite Hr. destruct (ck_created fr); simpl; by rewrite app_nil_r.
  - simpl. destruct (ck_created fr); simpl; [done|by rewrite app_nil_r].
Qed.

Lemma raced_fsOps c st fr fr1 :
  checks st !! c = Some fr ->
  ck_healthCheckPath fr1 = ck_healthCheckPath fr ->
  fsOps (after_race c (set_checks (<[c := fr1]>) st))
  = fsOps st ++ swept fr1 (finish fr1).
Proof.
  intros Hc Hp. rewrite after_race_fsOps.
  by rewrite (lookup_set_checks_insert st c fr fr1 Hc).
Qed.

Lemma on_timeout_fsOps c pause st :
  fsOps (on_timeout c pause st)
  = fsOps st ++ match checks st !! c with
                | Some fr => swept fr (frame_timeout (pause_reason st pause) fr)
                | None => []
                end.
Proof.
  unfold on_timeout. fold (pause_reason st pause).
  destruct (checks st !! c) as [fr|] eqn:Hc; [|by rewrite app_nil_r].
  unfold frame_timeout. destruct (ck_timer fr) eqn:Ht.
  - by rewrite (raced_fsOps c st fr _ Hc).
  - unfold swept. destruct (cleaned fr); simpl; by rewrite app_nil_r.
Qed.

Lemma resolveHealthCheck_fsOps c now st :
  fsOps (resolveHealthCheck c now st)
  = fsOps st ++ match checks st !! c with
                | Some fr => swept fr (frame_observation now fr)
                | None => []
                end.
Proof.
  unfold resolveHealthCheck.
  destruct (checks st !! c) as [fr|] eqn:Hc; [|by rewrite app_nil_r].
  unfold frame_observation. destruct (ck_observed fr) eqn:Ho.
  - unfold swept. destruct (cleaned fr); simpl; by rewrite app_nil_r.
  - destruct (ck_created fr) eqn:Hcr.
    + rewrite (raced_fsOps c st fr _ Hc) by done.
      unfold swept, cleaned; simpl. by rewrite Hcr.
    + unfold swept, cleaned; simpl. rewrite Hcr. simpl. by rewrite app_nil_r.
Qed.

Lemma on_creation_fsOps c failure st :
  fsOps (on_creation c failure st)
  = fsOps st ++ match checks st !! c with
                | Some fr => swept fr (frame_creation failure fr)
                | None => []
                end.
Proof.
  unfold on_creation.
  destruct (checks st !! c) as [fr|] eqn:Hc; [|by rewrite app_nil_r].
  unfold frame_creation. destruct (ck_created fr) eqn:Hcr.
  - unfold swept. destruct (cleaned fr); simpl; by rewrite app_nil_r.
  - set (fr1 := with_result _ (creation_settled fr)).
    destruct (ck_returned fr) eqn:Hr; destruct (ck_observed fr) eqn:Ho.
    + rewrite after_race_fsOps.
      change (checks (issue _ ?s)) with (checks s).
      rewrite (lookup_set_checks_insert st c fr fr1 Hc).
      unfold swept, finish, cleaned, has_returned; simpl.
      rewrite Hr, Hcr; simpl. rewrite Hr. by rewrite app_nil_r.
    + unfold swept, cleaned, has_returned; simpl. by rewrite Hr, Hcr.
    + rewrite (raced_fsOps c st fr fr1 Hc) by done.
      unfold swept, finish, cleaned, has_returned; simpl.
      by rewrite Hr, Hcr.
    + unfold swept, cleaned, has_returned; simpl. rewrite Hr, Hcr. simpl.
      by rewrite app_nil_r.
Qed.

Lemma watch_fsOps construct st : fsOps (watch construct st) = fsOps st.
Proof.
  unfold watch, all_fulfilled.
  destruct (create_all _ _ _ _ _) as [made [e|]]; simpl; [done|].
  destruct (_ !! _) as [wf|]; simpl; [|done].
  destruct (wf_promise wf); simpl; [done|]. by destruct (forallb _ _).
Qed.

Lemma on_ready_fsOps w i st : fsOps (on_ready w i st) = fsOps st.
Proof.
  unfold on_ready, all_fulfilled.
  destruct (root_at st w i) as [rw|]; [|done].
  destruct (rw_subscribed rw); [done|].
  destruct (_ !! _) as [wf|]; simpl; [|done].
  destruct (wf_promise wf); simpl; [done|]. by destruct (forallb _ _).
Qed.

Lemma on_rejectTimeout_fsOps w i st : fsOps (on_rejectTimeout w i st) = fsOps st.
Proof.
  unfold on_rejectTimeout, one_rejected.
  destruct (root_at st w i) as [rw|]; [|done].
  destruct (rw_rejectTimeout rw); [|done].
  destruct (rw_promise rw); [done|].
  destruct (_ !! _) as [wf|]; simpl; [|done]. by destruct (wf_promise wf).
Qed.

(** What a turn adds to the file-system log. *)
Lemma step_fsOps st turn :
  fsOps (step st turn)
  = fsOps st
    ++ match turn.2 with
       | CallCheckHealth timeout =>
           [writeFile (ck_healthCheckPath (opened st timeout turn.1)) (pretty turn.1)]
       | _ =>
           match target st turn with
           | Some c =>
               match checks st !! c with
               | Some fr => swept fr (touch st turn c fr)
               | None => []
               end
           | None => []
           end
       end.
Proof.
  destruct turn as [now input].
  destruct input as [construct|timeout|w i|w i change|w i|k pause|k failure|].
  - change (step st (now, CallWatch construct)) with (watch construct st).
    by rewrite watch_fsOps, app_nil_r.
  - done.
  - change (step st (now, Ready w i)) with (on_ready w i st).
    by rewrite on_ready_fsOps, app_nil_r.
  - rewrite step_All. unfold target, touch. simpl.
    destruct (observed_check st (now, All w i change)) as [c|] eqn:Hoc.
    + rewrite resolveHealthCheck_fsOps.
      destruct (checks st !! c); [|done]. by rewrite decide_True.
    + rewrite app_nil_r. by destruct (_ && _).
  - change (step st (now, StartupTimeout w i)) with (on_rejectTimeout w i st).
    by rewrite on_rejectTimeout_fsOps, app_nil_r.
  - change (step st (now, HealthTimeout k pause)) with (on_timeout k pause st).
    rewrite on_timeout_fsOps. unfold target, touch; simpl.
    destruct (checks st !! k); [|done]. by rewrite decide_True.
  - change (step st (now, WriteFileSettled k failure)) with (on_creation k failure st).
    rewrite on_creation_fsOps. unfold target, touch; simpl.
    destruct (checks st !! k); [|done]. by rewrite decide_True.
  - simpl. by rewrite app_nil_r.
Qed.

Lemma written_app ops ops' : written (ops ++ ops') = written ops ++ written ops'.
Proof.
  induction ops as [|[] ops IH]; simpl; [done| |done]. by rewrite IH.
Qed.

Lemma unlinked_app ops ops' : unlinked (ops ++ ops') = unlinked ops ++ unlinked ops'.
Proof.
  induction ops as [|[] ops IH]; simpl; [done|done|]. by rewrite IH.
Qed.

Lemma swept_written fr fr' : written (swept fr fr') = [].
Proof. unfold swept. by destruct (_ && _). Qed.

Lemma touch_cleaned st turn c fr :
  cleaned fr = true -> cleaned (touch st turn c fr) = true.
Proof.
  intros H.
  assert (ck_created fr = true /\ has_returned fr = true) as [Hc Hr]
    by (by apply andb_true_iff).
  unfold has_returned in Hr. destruct (ck_returned fr) eqn:Hret; [|done].
  destruct (touch_cases st turn c fr) as [->|[[x ->]|[[x ->]|[x ->]]]]; [done|..].
  - unfold frame_timeout. destruct (ck_timer fr); [|done].
    unfold finish; simpl. rewrite Hret. unfold cleaned, has_returned; simpl.
    by rewrite Hc, Hret.
  - unfold frame_creation. by rewrite Hc.
  - unfold frame_observation. destruct (ck_observed fr); [done|].
    rewrite Hc. unfold finish; simpl. rewrite Hret.
    unfold cleaned, has_returned; simpl. by rewrite Hc, Hret.
Qed.

Lemma touch_path st turn c fr :
  ck_healthCheckPath (touch st turn c fr) = ck_healthCheckPath fr.
Proof.
  pose proof (touch_statics st turn c fr) as H. unfold statics in H. congruence.
Qed.

Lemma touch_startTime st turn c fr :
  ck_startTime (touch st turn c fr) = ck_startTime fr.
Proof.
  pose proof (touch_statics st turn c fr) as H. unfold statics in H. congruence.
Qed.

(** A turn that is not a call rewrites at most the frame of its target. *)
Lemma step_alter st turn :
  (forall timeout, turn.2 <> CallCheckHealth timeout) ->
  checks (step st turn)
  = match target st turn with
    | Some c => alter (touch st turn c) c (checks st)
    | None => checks st
    end.
Proof.
  intros Hn. destruct (step_checks st turn Hn) as [H _].
  apply list_eq. intros i. rewrite H.
  destruct (target st turn) as [c|] eqn:Ht.
  - destruct (decide (i = c)) as [->|Hic].
    + by rewrite list_lookup_alter_eq.
    + rewrite list_lookup_alter_ne by done.
      destruct (checks st !! i) as [fr|]; simpl; [|done].
      rewrite touch_elsewhere; [done|congruence].
  - destruct (checks st !! i) as [fr|]; simpl; [|done].
    rewrite touch_elsewhere; [done|congruence].
Qed.

Lemma map_alter_fixed {A B} (f : A -> B) (g : A -> A) (l : list A) c :
  (forall x, f (g x) = f x) -> map f (alter g c l) = map f l.
Proof.
  intros H. revert c. induction l as [|x l IH]; intros [|c]; simpl; try done.
  - by rewrite H.
  - f_equal. apply IH.
Qed.

(** Rewriting one frame adds its cookie to those of the cleaned frames
    when the rewriting is what cleans it. *)
Lemma cleaned_alter (g : CheckFrame -> CheckFrame) (l : list CheckFrame) c fr :
  l !! c = Some fr ->
  ck_healthCheckPath (g fr) = ck_healthCheckPath fr ->
  (cleaned fr = true -> cleaned (g fr) = true) ->
  Permutation (map ck_healthCheckPath (List.filter cleaned l) ++ unlinked (swept fr (g fr)))
    (map ck_healthCheckPath (List.filter cleaned (alter g c l))).
Proof.
  intros Hc Hp Hm. revert c Hc. induction l as [|x l IH]; intros [|c] Hc;
    simplify_eq/=.
  - unfold swept. destruct (cleaned fr) eqn:H1.
    + rewrite Hm by done. simpl. by rewrite app_nil_r, Hp.
    + destruct (cleaned (g fr)); simpl.
      * rewrite Hp. symmetry. apply Permutation_cons_append.
      * by rewrite app_nil_r.
  - destruct (cleaned x); simpl; [constructor|]; by apply IH.
Qed.

Lemma filter_cleaned_snoc l fr :
  cleaned fr = false -> List.filter cleaned (l ++ [fr]) = List.filter cleaned l.
Proof.
  intros H. rewrite List.filter_app. simpl. by rewrite H, app_nil_r.
Qed.

Lemma ledger_step st turn : ledger_ok st -> ledger_ok (step st turn).
Proof.
  intros [Hw Hu]. unfold ledger_ok. rewrite step_fsOps.
  rewrite written_app, unlinked_app, Hw.
  destruct (call_or_not turn) as [[timeout Ht]|Hn].
  - destruct turn as [now input]; simpl in Ht; subst input.
    destruct (step_checkHealth st now timeout) as [-> _]. simpl.
    rewrite map_app, filter_cleaned_snoc by done. simpl.
    by rewrite app_nil_r.
  - rewrite (step_alter st turn Hn).
    assert (match turn.2 with
            | CallCheckHealth timeout =>
                [writeFile (ck_healthCheckPath (opened st timeout turn.1))
                   (pretty turn.1)]
            | _ => match target st turn with
                   | Some c => match checks st !! c with
                               | Some fr => swept fr (touch st turn c fr)
                               | None => []
                               end
                   | None => []
                   end
            end
            = match target st turn with
              | Some c => match checks st !! c with
                          | Some fr => swept fr (touch st turn c fr)
                          | None => []
                          end
              | None => []
              end) as ->.
    { destruct turn as [now []]; try done. by destruct (Hn timeout). }
    destruct (target st turn) as [c|]; [|by rewrite !app_nil_r].
    destruct (checks st !! c) as [fr|] eqn:Hc.
    + rewrite swept_written, app_nil_r. split.
      * symmetry. apply map_alter_fixed. intros x.
        by rewrite touch_path, touch_startTime.
      * rewrite Hu. apply cleaned_alter; [done|apply touch_path|apply touch_cleaned].
    + rewrite !app_nil_r.
      assert (alter (touch st turn c) c (checks st) = checks st) as ->; [|done].
      apply list_eq. intros i. rewrite list_lookup_alter.
      case_decide; [|done]. subst i. by rewrite Hc.
Qed.

(** X6: in every session the file-system calls are those of its checks:
    each call of [checkHealth] has written its cookie once, with the
    start time as content and in the order of the calls, and the cookies
    unlinked are, each one once, those of the checks that have returned
    and whose write has settled. *)
Theorem checkHealth_writes_and_unlinks_its_cookie_once st :
  reachable st -> ledger_ok st.
Proof.
  intros (options & inst & p & sup & turns & ->).
  induction turns as [|turn turns IH] using rev_ind.
  - split; [done|]. simpl. constructor.
  - rewrite run_snoc. by apply ledger_step.
Qed.

Lemma checkHealth_writes_and_unlinks_its_cookie_once_witness :
  ledger_ok (run Demo.session Demo.two_observed).
Proof.
  exact (checkHealth_writes_and_unlinks_its_cookie_once
           (run Demo.session Demo.two_observed)
           (ex_intro _ Demo.options (ex_intro _ 7 (ex_intro _ 4242
              (ex_intro _ false (ex_intro _ Demo.two_observed eq_refl)))))).
Defined.

(** *** [watch] *)

Lemma create_all_pending options impl construct rs i :
  forallb is_resolved (create_all options impl construct i rs).1
  = match (create_all options impl construct i rs).1 with [] => true | _ => false end.
Proof.
  destruct rs as [|r rs]; simpl; [done|].
  destruct (construct i); [done|].
  by destruct (create_all options impl construct (S i) rs).
Qed.

Lemma create_all_made options impl construct rs : forall i,
  (create_all options impl construct i rs).2 = None ->
  length (create_all options impl construct i rs).1 = length rs.
Proof.
  induction rs as [|r rs IH]; intros i; simpl; [done|].
  destruct (construct i); [done|].
  specialize (IH (S i)). destruct (create_all options impl construct (S i) rs).
  simpl in *. intros H. by rewrite IH.
Qed.

(** X8: a call of [watch] settles its promise within the call only when
    a constructor throws, which rejects it, or when there is no root,
    which fulfils it with no backend; otherwise the promise is pending
    after the call and [_backends] is as before. *)
Theorem watch_settles_in_the_call_only_without_backends construct st now :
  let options := _options (this st) in
  let impl := select_impl (useWatchman options) (fsevents st) in
  let st' := step st (now, CallWatch construct) in
  wf_promise <$> watching st' !! length (watching st)
  = Some match (create_all options impl construct 0 (roots options)).2 with
         | Some e => Some (Rejected e)
         | None => match roots options with
                   | [] => Some (Resolved tt)
                   | _ :: _ => None
                   end
         end
  /\ _backends (this st')
     = match roots options with [] => [] | _ :: _ => _backends (this st) end.
Proof.
  intros options impl st'. subst st'.
  change (step st (now, CallWatch construct)) with (watch construct st).
  destruct (watch_view construct st) as (Hw & Hb & _).
  fold options impl in Hw, Hb. rewrite Hw, Hb, lookup_snoc. simpl.
  rewrite create_all_pending.
  pose proof (create_all_made options impl construct (roots options) 0%nat) as Hlen.
  destruct (roots options) as [|r rs]; [done|].
  destruct (create_all options impl construct 0 (r :: rs)) as [made [e|]];
    simpl in *; [done|].
  specialize (Hlen eq_refl). by destruct made.
Qed.

Lemma create_all_layout options impl construct rs : forall i,
  (fun rw => (rw_root rw, rw_impl rw, rw_options rw))
    <$> (create_all options impl construct i rs).1
  = (fun r => (r, impl, watcherOptions options))
      <$> take (length (create_all options impl construct i rs).1) rs.
Proof.
  induction rs as [|r rs IH]; intros i; simpl; [done|].
  destruct (construct i); [done|].
  specialize (IH (S i)). destruct (create_all options impl construct (S i) rs).
  simpl in *. f_equal. exact IH.
Qed.

Lemma layout_insert wf i rw rw' on p :
  wf_roots wf !! i = Some rw ->
  rw_root rw' = rw_root rw -> rw_impl rw' = rw_impl rw ->
  rw_options rw' = rw_options rw ->
  layout {| wf_roots := <[i := rw']> (wf_roots wf); wf_onChange := on;
            wf_promise := p |}
  = layout wf
  /\ length (<[i := rw']> (wf_roots wf)) = length (wf_roots wf).
Proof.
  intros Hi H1 H2 H3. split; [|by rewrite length_insert].
  unfold layout; simpl. rewrite list_fmap_insert, H1, H2, H3.
  apply list_insert_id. by rewrite list_lookup_fmap, Hi.
Qed.

(** What a turn does to the activations of [watch]: it opens one,
    rewrites one without touching how its backends were constructed, or
    leaves them. *)
Lemma step_watching st turn :
  (exists construct wf, turn.2 = CallWatch construct
      /\ watching (step st turn) = watching st ++ [wf]
      /\ layout wf = planned st (length (wf_roots wf)))
  \/ watching (step st turn) = watching st
  \/ exists w wf wf', watching st !! w = Some wf
        /\ watching (step st turn) = <[w := wf']> (watching st)
        /\ layout wf' = layout wf
        /\ length (wf_roots wf') = length (wf_roots wf).
Proof.
  destruct turn as [now input].
  destruct input as [construct|timeout|v i|v i change|v i|k pause|k failure|].
  - left. change (step st (now, CallWatch construct)) with (watch construct st).
    destruct (watch_view construct st) as (Hw & _).
    eexists construct, _. split; [done|]. split; [exact Hw|].
    apply create_all_layout.
  - by right; left.
  - right. change (step st (now, Ready v i)) with (on_ready v i st).
    destruct (root_at st v i) as [rw|] eqn:Hroot;
      [|left; by unfold on_ready; rewrite Hroot].
    destruct (rw_subscribed rw) eqn:Hsub;
      [left; by unfold on_ready; rewrite Hroot, Hsub|].
    apply root_at_Some in Hroot as (wf1 & Hv & Hi).
    destruct (on_ready_view st v i rw wf1 Hv Hi Hsub) as [Hws _].
    right. eexists v, wf1, _. split; [done|]. split; [exact Hws|].
    by apply (layout_insert wf1 i rw).
  - right. rewrite step_All.
    destruct (observed_check _ _) as [c|].
    + destruct (resolveHealthCheck_view c now st) as (_ & _ & Hs & _). by left.
    + destruct (_ && _) eqn:Hcond; [|by left].
      apply andb_prop in Hcond as [Hsub _].
      destruct (subscribed_frame st v i Hsub) as [wf1 Hv].
      right. eexists v, wf1, _. split; [done|]. split.
      * unfold onChange; simpl. by rewrite <- (alter_lookup_Some _ _ _ wf1 Hv).
      * done.
  - right. change (step st (now, StartupTimeout v i)) with (on_rejectTimeout v i st).
    destruct (root_at st v i) as [rw|] eqn:Hroot;
      [|left; by unfold on_rejectTimeout; rewrite Hroot].
    destruct (rw_rejectTimeout rw) as [t|] eqn:Ht;
      [|left; by unfold on_rejectTimeout; rewrite Hroot, Ht].
    apply root_at_Some in Hroot as (wf1 & Hv & Hi).
    destruct (on_rejectTimeout_view st v i rw wf1 t Hv Hi Ht) as [Hws _].
    right. eexists v, wf1, _. split; [done|]. split; [exact Hws|].
    by apply (layout_insert wf1 i rw).
  - right; left. by destruct (on_timeout_view k pause st) as (_ & _ & Hs & _).
  - right; left. by destruct (on_creation_view k failure st) as (_ & _ & Hs & _).
  - by right; left.
Qed.

Lemma planned_fixed st turn n : planned (step st turn) n = planned st n.
Proof.
  destruct (step_fixed st turn) as [Hcfg _]. unfold config in Hcfg.
  injection Hcfg as Ho _ _ Hf. unfold planned. by rewrite Ho, Hf.
Qed.

Lemma all_planned : forall st, reachable st ->
  forall w wf, watching st !! w = Some wf ->
    layout wf = planned st (length (wf_roots wf)).
Proof.
  intros st (options & inst & p & sup & turns & ->).
  induction turns as [|turn turns IH] using rev_ind; intros w wf Hw.
  - simpl in Hw. by rewrite lookup_nil in Hw.
  - rewrite run_snoc in *. rewrite planned_fixed.
    set (st := run (start options inst p sup) turns) in *.
    destruct (step_watching st turn)
      as [(construct & wf0 & _ & Hws & Hl)|[Hws|(v & wf1 & wf1' & Hv & Hws & Hl & Hn)]];
      rewrite Hws in Hw.
    + apply lookup_app_Some in Hw as [Hw|[_ Hw]]; [by apply (IH w)|].
      apply list_lookup_singleton_Some in Hw as [_ <-]. done.
    + by apply (IH w).
    + destruct (decide (v = w)) as [->|Hne].
      * rewrite list_lookup_insert_eq in Hw by (by eapply lookup_lt_Some).
        simplify_eq. rewrite Hl, Hn. by apply (IH w).
      * rewrite list_lookup_insert_ne in Hw by done. by apply (IH w).
Qed.

(** X9: throughout a session the backends of an activation of [watch]
    are the ones constructed for the roots of the options, in their
    order, all of the class selected from [useWatchman] and
    [FSEventsWatcher.isSupported()] and all with the same options:
    dotfiles watched, the globs of [package.json], of the health check
    cookies and of the extensions, and the [ignorePattern]; an
    activation that has not been rejected has one backend for every
    root. *)
Theorem backends_are_constructed_alike st w wf :
  reachable st -> watching st !! w = Some wf ->
  layout wf
  = (fun r => (r, select_impl (useWatchman (_options (this st))) (fsevents st),
               {| dot := true;
                  glob := "**/package.json"
                          :: ("**/" +:+ healthCheckFilePrefix (_options (this st)) +:+ "*")
                          :: map (fun extension => "**/*." +:+ extension)
                                 (extensions (_options (this st)));
                  ignored := ignorePattern (_options (this st));
                  deferStates := watchmanDeferStates (_options (this st)) |}))
      <$> take (length (wf_roots wf)) (roots (_options (this st)))
  /\ ((forall e, wf_promise wf <> Some (Rejected e)) ->
      length (wf_roots wf) = length (roots (_options (this st)))).
Proof.
  intros Hr Hw. split; [exact (all_planned st Hr w wf Hw)|].
  intros Hne. destruct (reachable_watching_ok st Hr) as [Hall _].
  pose proof (Forall_lookup_1' _ _ _ _ Hall Hw) as [_ Hp].
  destruct (wf_promise wf) as [[[]|e]|]; [by destruct Hp|by destruct (Hne e)|by destruct Hp].
Qed.

Lemma backends_are_constructed_alike_witness :
  exists wf,
    watching (run Demo.session Demo.both_ready) !! 0%nat = Some wf
    /\ layout wf
       = [("/proj/a", WatchmanWatcher, watcherOptions Demo.options);
          ("/proj/b", WatchmanWatcher, watcherOptions Demo.options)].
Proof.
  eexists. split; [reflexivity|].
  exact (proj1 (backends_are_constructed_alike (run Demo.session Demo.both_ready) 0 _
           (ex_intro _ Demo.options (ex_intro _ 7 (ex_intro _ 4242
              (ex_intro _ false (ex_intro _ Demo.both_ready eq_refl)))))
           eq_refl)).
Defined.

(** X10: once the listener of [ready] of a backend has run, a second
    [ready] does nothing, and the start-up timer, which the listener
    cleared, rejects nothing: both turns leave the session as it is. *)
Theorem ready_is_handled_once_and_clears_the_timer st w i now :
  reachable st -> subscribed st w i = true ->
  step st (now, Ready w i) = st /\ step st (now, StartupTimeout w i) = st.
Proof.
  intros Hr Hsub.
  change (step st (now, Ready w i)) with (on_ready w i st).
  change (step st (now, StartupTimeout w i)) with (on_rejectTimeout w i st).
  unfold subscribed in Hsub. unfold on_ready, on_rejectTimeout.
  destruct (root_at st w i) as [rw|] eqn:Hroot; [|done].
  rewrite Hsub. split; [done|].
  apply root_at_Some in Hroot as (wf & Hw & Hi).
  destruct (reachable_watching_ok st Hr) as [Hall _].
  pose proof (Forall_lookup_1' _ _ _ _ Hall Hw) as [Hroots _].
  pose proof (Forall_lookup_1' _ _ _ _ Hroots Hi) as Hrw.
  unfold root_ok in Hrw.
  destruct (rw_promise rw) as [[v|e]|].
  - destruct Hrw as [_ Ht]. by rewrite Ht.
  - by rewrite Hrw.
  - destruct Hrw as [Hs _]. congruence.
Qed.

Lemma ready_is_handled_once_and_clears_the_timer_witness :
  step (run Demo.session Demo.both_ready) (9, Ready 0%nat 1%nat)
  = run Demo.session Demo.both_ready
  /\ step (run Demo.session Demo.both_ready) (9, StartupTimeout 0%nat 1%nat)
     = run Demo.session Demo.both_ready.
Proof.
  exact (ready_is_handled_once_and_clears_the_timer
           (run Demo.session Demo.both_ready) 0 1 9
           (ex_intro _ Demo.options (ex_intro _ 7 (ex_intro _ 4242
              (ex_intro _ false (ex_intro _ Demo.both_ready eq_refl)))))
           eq_refl).
Defined.

(** *** The names of the cookies *)

Lemma avoids_app a s t : avoids a (s +:+ t) = avoids a s && avoids a t.
Proof.
  induction s as [|c s IH]; [done|].
  change (String c s +:+ t) with (String c (s +:+ t)). simpl.
  by rewrite IH, andb_assoc.
Qed.

Lemma avoids_String a c s :
  avoids a (String c s) = negb (Ascii.eqb c a) && avoids a s.
Proof. done. Qed.

Lemma avoids_digit a c : digit a = false -> digit c = true ->
  avoids a (String c EmptyString) = true.
Proof.
  intros Ha Hc. rewrite avoids_String. change (avoids a EmptyString) with true.
  rewrite andb_true_r. destruct (Ascii.eqb_spec c a) as [->|]; [congruence|done].
Qed.

Lemma pretty_N_char_digit d : digit (pretty_N_char d) = true.
Proof.
  destruct d as [|p]; [done|].
  do 4 (try (destruct p as [p|p|]; try done)).
Qed.

Lemma digit_avoids a c : digit a = false -> digit c = true -> negb (Ascii.eqb c a) = true.
Proof.
  intros Ha Hc. destruct (Ascii.eqb_spec c a) as [->|]; [congruence|done].
Qed.

Lemma pretty_N_go_avoids a : digit a = false ->
  forall x s, avoids a s = true -> avoids a (pretty_N_go x s) = true.
Proof.
  intros Ha x. induction (N.lt_wf_0 x) as [x _ IH]. intros s Hs.
  destruct (decide (x = 0%N)) as [->|Hx]; [by rewrite pretty_N_go_0|].
  rewrite pretty_N_go_step by lia. apply IH.
  - apply N.div_lt; lia.
  - rewrite avoids_String, Hs, andb_true_r. apply digit_avoids; [done|].
    apply pretty_N_char_digit.
Qed.

Lemma pretty_N_avoids a (x : N) : digit a = false -> avoids a (pretty x) = true.
Proof.
  intros Ha. unfold pretty, pretty_N. case_decide.
  - by apply avoids_digit.
  - by apply pretty_N_go_avoids.
Qed.

Lemma pretty_Z_avoids a (z : Z) :
  digit a = false -> a <> dash \/ 0 <= z -> avoids a (pretty z) = true.
Proof.
  intros Ha Hz. destruct z as [|p|p].
  - by apply avoids_digit.
  - apply (pretty_N_avoids a (N.pos p) Ha).
  - destruct Hz as [Hd|Hz]; [|lia].
    change (pretty (Z.neg p)) with ("-" +:+ pretty (N.pos p)).
    rewrite avoids_app, (pretty_N_avoids a (N.pos p) Ha), andb_true_r.
    rewrite avoids_String. change (avoids a EmptyString) with true.
    rewrite andb_true_r. destruct (Ascii.eqb_spec "-"%char a) as [<-|]; [|done].
    by destruct Hd.
Qed.

Lemma cookie_avoids_slash prefix_ process_pid instanceId healthCheckId :
  avoids slash prefix_ = true ->
  avoids slash (cookie prefix_ process_pid instanceId healthCheckId) = true.
Proof.
  intros Hp. unfold cookie.
  rewrite !avoids_app, Hp, !pretty_Z_avoids by (done || by left). done.
Qed.

Lemma list_ascii_of_string_app s t :
  list_ascii_of_string (s +:+ t) = list_ascii_of_string s ++ list_ascii_of_string t.
Proof.
  induction s as [|c s IH]; [done|].
  change (String c s +:+ t) with (String c (s +:+ t)). simpl. by rewrite IH.
Qed.

Lemma avoids_Forall a s :
  avoids a s = true -> Forall (fun c => Ascii.eqb c a = false) (list_ascii_of_string s).
Proof.
  induction s as [|c s IH]; simpl; [constructor|].
  intros H. apply andb_prop in H as [H1 H2]. constructor; [|by apply IH].
  by apply negb_true_iff.
Qed.

Lemma segments_segment n :
  Forall (fun c => is_slash c = false) n -> segments n = [n].
Proof.
  induction 1 as [|c l Hc Hl IH]; simpl; [done|]. by rewrite Hc, IH.
Qed.

Lemma segments_nonempty l : segments l <> [].
Proof.
  destruct l as [|c l]; simpl; [done|].
  destruct (is_slash c); [done|]. by destruct (segments l).
Qed.

Lemma segments_snoc n d :
  Forall (fun c => is_slash c = false) n ->
  segments (d ++ slash :: n) = segments d ++ [n].
Proof.
  intros Hfree. induction d as [|c d IH]; simpl.
  - by rewrite segments_segment.
  - destruct (is_slash c); [by rewrite IH|]. rewrite IH.
    pose proof (segments_nonempty d). by destruct (segments d).
Qed.

Lemma normalize_segment_pushes n allowAboveRoot res :
  n <> [] -> is_dot n = false -> is_dotdot n = false ->
  normalize_segment allowAboveRoot res n = n :: res.
Proof.
  intros Hne Hdot Hdotdot.
  unfold normalize_segment. destruct n; [done|]. by rewrite Hdot, Hdotdot.
Qed.

Lemma glue_snoc n ss :
  exists pre, glue (ss ++ [n]) = pre ++ n
              /\ (pre = [] \/ exists pre', pre = pre' ++ [slash]).
Proof.
  induction ss as [|s ss (pre & IH & Hpre)]; simpl.
  - exists []. split; [done|by left].
  - destruct (ss ++ [n]) eqn:Hss; [by destruct ss|].
    rewrite IH. exists (s ++ slash :: pre). split; [by rewrite <- app_assoc|].
    right. destruct Hpre as [->|[pre' ->]].
    + by exists s.
    + exists (s ++ slash :: pre'). by rewrite <- app_assoc.
Qed.

Lemma take_segment_segment l r :
  Forall (fun c => is_slash c = false) l ->
  match r with [] => True | c :: _ => is_slash c = true end ->
  take_segment (l ++ r) = l.
Proof.
  intros Hfree Hr. induction Hfree as [|c l Hc Hl IH]; simpl.
  - destruct r as [|c r]; [done|]. simpl. by rewrite Hr.
  - by rewrite Hc, IH.
Qed.

Lemma rev_segment n :
  Forall (fun c => is_slash c = false) n -> n <> [] ->
  exists c l, rev n = c :: l /\ is_slash c = false.
Proof.
  intros Hfree Hne.
  apply Forall_rev in Hfree. destruct (rev n) as [|c l] eqn:Hr.
  - destruct Hne. apply (f_equal (@rev ascii)) in Hr.
    by rewrite rev_involutive in Hr.
  - exists c, l. split; [done|]. by inversion Hfree.
Qed.

(** The last segment of a path of which nothing comes after [n]. *)
Lemma last_segment n pre :
  Forall (fun c => is_slash c = false) n -> n <> [] ->
  pre = [] \/ (exists pre', pre = pre' ++ [slash]) ->
  rev (take_segment (drop_slashes (rev (pre ++ n)))) = n.
Proof.
  intros Hfree Hne Hpre. rewrite rev_app_distr.
  destruct (rev_segment n Hfree Hne) as (c & l & Hr & Hc).
  assert (drop_slashes (rev n ++ rev pre) = rev n ++ rev pre) as ->.
  { rewrite Hr. simpl. by rewrite Hc. }
  rewrite take_segment_segment; [apply rev_involutive|by apply Forall_rev|].
  destruct Hpre as [->|[pre' ->]]; [done|].
  by rewrite rev_app_distr.
Qed.

Lemma normalize_keeps_segment n l :
  Forall (fun c => is_slash c = false) n -> n <> [] ->
  is_dot n = false -> is_dotdot n = false ->
  l = n \/ (exists d, l = d ++ slash :: n) ->
  exists pre, normalize_chars l = pre ++ n
              /\ (pre = [] \/ exists pre', pre = pre' ++ [slash]).
Proof.
  intros Hfree Hne Hdot Hdotdot Hl.
  assert (exists ss, segments l = ss ++ [n]) as [ss Hss].
  { destruct Hl as [->|[d ->]].
    - exists []. by apply segments_segment.
    - exists (segments d). by apply segments_snoc. }
  assert (match rev l with d :: _ => is_slash d | [] => false end = false) as Htr.
  { destruct (rev_segment n Hfree Hne) as (c & r & Hr & Hc).
    destruct Hl as [->|[d ->]]; [by rewrite Hr|].
    rewrite rev_app_distr. simpl. rewrite <- app_assoc, Hr. done. }
  unfold normalize_chars. destruct l as [|c l'] eqn:El.
  { destruct Hl as [H|[d H]]; [by destruct Hne|by destruct d]. }
  rewrite <- El in *. rewrite Htr, Hss, fold_left_app. simpl.
  rewrite normalize_segment_pushes by done. simpl.
  destruct (glue_snoc n (rev (fold_left (normalize_segment (negb (is_slash c))) ss [])))
    as (pre & Hg & Hpre).
  rewrite Hg. destruct (pre ++ n) as [|a res] eqn:Hres.
  { destruct pre; [by destruct Hne|done]. }
  rewrite <- Hres, app_nil_r. destruct (is_slash c).
  - exists (slash :: pre). split; [done|]. right.
    destruct Hpre as [->|[pre' ->]]; [by exists []|by exists (slash :: pre')].
  - by exists pre.
Qed.

Lemma is_dot_string name_ :
  is_dot (list_ascii_of_string name_) = true -> name_ = ".".
Proof.
  destruct name_ as [|c [|d r]]; simpl; try done.
  by intros ->%Ascii.eqb_eq.
Qed.

Lemma is_dotdot_string name_ :
  is_dotdot (list_ascii_of_string name_) = true -> name_ = "..".
Proof.
  destruct name_ as [|c [|d [|e r]]]; simpl; try done.
  by intros [->%Ascii.eqb_eq ->%Ascii.eqb_eq]%andb_prop.
Qed.

Example join_normalizes :
  join "/proj" "x" = "/proj/x" /\ join "/proj/" "x" = "/proj/x"
  /\ join "" "x" = "x" /\ join "/proj/./sub//" "../x" = "/proj/x"
  /\ join ".." "x" = "../x" /\ join "/.." "x" = "/x" /\ join "a" ".." = ".".
Proof. by vm_compute. Qed.

(** The basename of a segment joined to a directory is the segment,
    whatever the directory. *)
Lemma basename_join dir_ name_ :
  avoids slash name_ = true ->
  name_ <> EmptyString -> name_ <> "." -> name_ <> ".." ->
  basename (join dir_ name_) = name_.
Proof.
  intros Ha Hne Hdot Hdotdot.
  set (n := list_ascii_of_string name_).
  assert (Forall (fun c => is_slash c = false) n) as Hfree
    by apply avoids_Forall, Ha.
  assert (n <> []) as Hn by (subst n; by destruct name_).
  assert (is_dot n = false) as Hd.
  { destruct (is_dot n) eqn:H; [|done]. by apply is_dot_string in H. }
  assert (is_dotdot n = false) as Hdd.
  { destruct (is_dotdot n) eqn:H; [|done]. by apply is_dotdot_string in H. }
  assert (exists l, join dir_ name_ = string_of_list_ascii (normalize_chars l)
                    /\ (l = n \/ exists d, l = d ++ slash :: n)) as (l & -> & Hl).
  { unfold join, normalize. destruct dir_ as [|c dir_].
    - destruct name_; [done|]. eexists. split; [done|by left].
    - destruct name_; [done|]. eexists. split; [done|]. right.
      exists (list_ascii_of_string (String c dir_)).
      by rewrite list_ascii_of_string_app. }
  destruct (normalize_keeps_segment n l Hfree Hn Hd Hdd Hl) as (pre & -> & Hpre).
  unfold basename. rewrite list_ascii_of_string_of_list_ascii.
  rewrite last_segment by done. apply string_of_list_ascii_of_string.
Qed.

Lemma cookie_has_dash prefix_ process_pid instanceId healthCheckId :
  avoids dash (cookie prefix_ process_pid instanceId healthCheckId) = false.
Proof.
  unfold cookie. rewrite avoids_app. apply andb_false_iff. right.
  by rewrite avoids_app.
Qed.

Lemma cookie_nonempty prefix_ process_pid instanceId healthCheckId :
  cookie prefix_ process_pid instanceId healthCheckId <> EmptyString.
Proof. unfold cookie. by destruct prefix_. Qed.

Lemma all_joined : forall st, reachable st ->
  forall c fr, checks st !! c = Some fr ->
    ck_healthCheckPath fr = join (rootDir (_options (this st))) (ck_basename fr).
Proof.
  intros st (options & inst & p & sup & turns & ->).
  induction turns as [|turn turns IH] using rev_ind; intros c fr Hfr.
  - simpl in Hfr. by rewrite lookup_nil in Hfr.
  - rewrite run_snoc in *.
    set (st := run (start options inst p sup) turns) in *.
    destruct (step_fixed st turn) as [Hcfg _]. unfold config in Hcfg.
    injection Hcfg as -> _ _ _.
    apply step_frame_origin in Hfr as [(fr0 & Hfr0 & ->)|(timeout & _ & _ & ->)];
      [|done].
    rewrite touch_path, touch_basename. by apply (IH c).
Qed.

(** X12: the file that a check writes is one that [crawl] ignores.  With
    [path.join] and [path.basename] as they are where [path.sep] is the
    slash, [path.join] normalizing the root directory and the cookie name
    joined, and for a prefix without separator: whatever the root
    directory is, the basename of the path written is the name under
    which the check is registered, and the [ignore] that [crawl] hands to
    the strategies holds of that path whatever [options.ignore] says. *)
Theorem checkHealth_writes_a_file_that_crawl_ignores st c fr :
  reachable st ->
  avoids slash (healthCheckFilePrefix (_options (this st))) = true ->
  checks st !! c = Some fr ->
  basename (ck_healthCheckPath fr) = ck_basename fr
  /\ ignore_ (_options (this st)) (ck_healthCheckPath fr) = true.
Proof.
  intros Hr Hp Hc.
  destruct (reachable_invariants st Hr) as (_ & _ & _ & Hnum).
  destruct (Hnum c fr Hc) as [_ Hb].
  assert (basename (ck_healthCheckPath fr) = ck_basename fr) as Hbase.
  { rewrite (all_joined st Hr c fr Hc), Hb.
    pose proof (cookie_has_dash (healthCheckFilePrefix (_options (this st))) (pid st)
                  (_instanceId (this st)) (ck_healthCheckId fr)) as Hdash.
    apply basename_join;
      [by apply cookie_avoids_slash|apply cookie_nonempty|..];
      intros Heq; by rewrite Heq in Hdash. }
  split; [done|]. unfold ignore_. rewrite Hbase, Hb, cookie_startsWith.
  apply orb_true_r.
Qed.

Lemma checkHealth_writes_a_file_that_crawl_ignores_witness :
  exists fr,
    checks (run Demo.session Demo.checking) !! 0%nat = Some fr
    /\ basename (ck_healthCheckPath fr) = ck_basename fr
    /\ ignore_ (_options (this (run Demo.session Demo.checking)))
                (ck_healthCheckPath fr) = true.
Proof.
  eexists. split; [reflexivity|].
  exact (checkHealth_writes_a_file_that_crawl_ignores
           (run Demo.session Demo.checking) 0 _
           (ex_intro _ Demo.options (ex_intro _ 7 (ex_intro _ 4242
              (ex_intro _ false (ex_intro _ Demo.checking eq_refl)))))
           eq_refl eq_refl).
Defined.

Lemma split_at_dash s1 : forall s2 t1 t2,
  avoids dash s1 = true -> avoids dash s2 = true ->
  s1 +:+ "-" +:+ t1 = s2 +:+ "-" +:+ t2 -> s1 = s2 /\ t1 = t2.
Proof.
  induction s1 as [|c1 s1 IH]; intros [|c2 s2] t1 t2 H1 H2 H.
  - split; [done|]. by injection H.
  - change (String c2 s2 +:+ "-" +:+ t2) with (String c2 (s2 +:+ "-" +:+ t2)) in H.
    injection H as <- _. rewrite avoids_String in H2. done.
  - change (String c1 s1 +:+ "-" +:+ t1) with (String c1 (s1 +:+ "-" +:+ t1)) in H.
    injection H as -> _. rewrite avoids_String in H1. done.
  - change (String c1 s1 +:+ "-" +:+ t1) with (String c1 (s1 +:+ "-" +:+ t1)) in H.
    change (String c2 s2 +:+ "-" +:+ t2) with (String c2 (s2 +:+ "-" +:+ t2)) in H.
    injection H as -> H. rewrite avoids_String in H1, H2.
    apply andb_prop in H1 as [_ H1]. apply andb_prop in H2 as [_ H2].
    destruct (IH s2 t1 t2 H1 H2 H) as [-> ->]. done.
Qed.

(** X11: the constructor counts the instances of a process, and the
    instance identifier keeps the cookies of two watchers apart: with
    the same prefix and in the same process, a watcher made at a later
    value of the counter never names a cookie as an earlier one does,
    whatever the identifiers of the two checks. *)
Theorem watchers_of_a_process_use_distinct_cookies
    options1 options2 prefix_ process_pid n1 n2 id1 id2 :
  0 <= n1 < n2 ->
  n1 < (new_Watcher options1 n1).1
  /\ cookie prefix_ process_pid (_instanceId (new_Watcher options1 n1).2) id1
     <> cookie prefix_ process_pid (_instanceId (new_Watcher options2 n2).2) id2.
Proof.
  intros Hn. simpl. split; [lia|]. unfold cookie. intros H.
  do 4 (apply String.app_inj in H).
  apply split_at_dash in H as [H _];
    try (apply pretty_Z_avoids; [done|right; lia]).
  apply pretty_Z_inj in H. lia.
Qed.

Lemma watchers_of_a_process_use_distinct_cookies_witness :
  7 < (new_Watcher Demo.options 7).1
  /\ cookie ".metro-health-check" 4242 (_instanceId (new_Watcher Demo.options 7).2) 12
     <> cookie ".metro-health-check" 4242
          (_instanceId (new_Watcher Demo.aborted_options 71).2) 2.
Proof.
  apply (watchers_of_a_process_use_distinct_cookies
           Demo.options Demo.aborted_options ".metro-health-check" 4242 7 71 12 2).
  lia.
Defined.

(** *** [./watchers/common.js] *)

Lemma replaceAll_same s sep : Common.replaceAll s sep sep = s.
Proof.
  induction s as [|c s IH]; simpl; [done|]. rewrite IH.
  by destruct (Ascii.eqb_spec c sep) as [->|].
Qed.

Lemma posixPathMatchesPattern_spec sep pattern filePath :
  Common.posixPathMatchesPattern sep pattern filePath
  = pattern (Common.replaceAll filePath sep slash).
Proof.
  unfold Common.posixPathMatchesPattern.
  destruct (Ascii.eqb_spec sep slash) as [->|Hne]; [|done].
  by rewrite replaceAll_same.
Qed.

(** X13: for a symbolic link or a directory, a symbolic link that passes
    [isFile] too, a watcher set up by [assignOptions] includes a path by
    [ignored] and [dot] alone: the globs of the options play no part. *)
Theorem links_and_directories_are_included_without_the_globs
    (some : string -> list string -> option bool -> bool)
    sep watcher opts stat relativePath :
  Common.isSymbolicLink stat || Common.isDirectory stat = true ->
  let w := (Common.assignOptions sep watcher opts).1 in
  Common.isIncluded some (Common.typeFromStat stat) (Common.globs w) (Common.w_dot w)
    (Common.doIgnore w) relativePath
  = match Common.ignored opts with
    | Some pattern => negb (pattern (Common.replaceAll relativePath sep slash))
    | None => true
    end
    && (match Common.dot opts with Some b => b | None => false end
        || some relativePath ["**/*"] None).
Proof.
  intros Hs w. subst w. unfold Common.isIncluded, Common.typeFromStat; simpl.
  assert ((match (if Common.isSymbolicLink stat then Some "l"
                   else if Common.isDirectory stat then Some "d"
                   else if Common.isFile stat then Some "f" else None)
           with Some t => String.eqb t "f" | None => false end) = false) as ->.
  { destruct (Common.isSymbolicLink stat); [done|].
    by destruct (Common.isDirectory stat). }
  rewrite orb_true_r.
  destruct (Common.ignored opts) as [pattern|]; [|done].
  rewrite posixPathMatchesPattern_spec. by destruct (pattern _).
Qed.

Lemma links_and_directories_are_included_without_the_globs_witness :
  let w := (Common.assignOptions Demo.backslash Demo.blank Demo.backend_options).1 in
  Common.isIncluded (fun _ _ _ => false) (Common.typeFromStat Demo.link)
    (Common.globs w) (Common.w_dot w) (Common.doIgnore w)
    (String Demo.backslash "lib")
  = match Common.ignored Demo.backend_options with
    | Some pattern =>
        negb (pattern (Common.replaceAll (String Demo.backslash "lib")
                         Demo.backslash slash))
    | None => true
    end
    && (match Common.dot Demo.backend_options with Some b => b | None => false end
        || false).
Proof.
  apply (links_and_directories_are_included_without_the_globs
           (fun _ _ _ => false) Demo.backslash Demo.blank Demo.backend_options
           Demo.link (String Demo.backslash "lib")).
  reflexivity.
Defined.
